(** * Stock-RSI-App: the analysis pipeline of [streamlit_app.py]

    A shallow embedding of the numeric helpers ([rsi], [annual_vol]), of the
    data fetch ([fetch_all]) and of the selection and classification done by
    [analyze_universe], together with the properties the specification
    states about them.

    Numbers.  The program computes on binary64 values.  They are modelled
    as exact rationals extended with the IEEE special values: a quiet NaN,
    the two infinities and the two signed zeros.  Every finite binary64 is
    a rational, so every input the program can receive has a counterpart;
    the arithmetic is exact, rounding is not modelled. *)

From Stdlib Require Import String.
From Stdlib Require Import List Bool ZArith QArith Qround Qreduction Qabs Lia Lqa.
From Stdlib Require Import Sorting.Sorted Sorting.Permutation.
Import ListNotations.

Local Open Scope Q_scope.

(** ** Floating-point values *)

(** [Inf true] is -inf, [Zero true] is -0.0; [Num q] carries a non-zero
    rational in lowest terms (the constructors below keep it so). *)
Inductive float : Type :=
  | NaN
  | Inf (neg : bool)
  | Zero (neg : bool)
  | Num (q : Q).

Definition Qltb (p q : Q) : bool :=
  match p ?= q with Lt => true | _ => false end.

(** Conversion of an exact value, as [float(x)] and [astype(float)] do. *)
Definition of_Q (q : Q) : float :=
  if Qeq_bool q 0 then Zero false else Num (Qred q).

Definition of_Z (z : Z) : float := of_Q (inject_Z z).

(** Sign bit; NaN carries none that the program can observe. *)
Definition fsign (x : float) : bool :=
  match x with
  | NaN => false
  | Inf s => s
  | Zero s => s
  | Num q => Qltb q 0
  end.

Definition isnan (x : float) : bool :=
  match x with NaN => true | _ => false end.

Definition fneg (x : float) : float :=
  match x with
  | NaN => NaN
  | Inf s => Inf (negb s)
  | Zero s => Zero (negb s)
  | Num q => Num (Qred (- q))
  end.

Definition fadd (x y : float) : float :=
  match x, y with
  | NaN, _ | _, NaN => NaN
  | Inf a, Inf b => if Bool.eqb a b then Inf a else NaN
  | Inf a, _ => Inf a
  | _, Inf b => Inf b
  | Zero a, Zero b => Zero (a && b)
  | Zero _, Num q => Num q
  | Num p, Zero _ => Num p
  | Num p, Num q => of_Q (p + q)
  end.

Definition fsub (x y : float) : float := fadd x (fneg y).

Definition fmul (x y : float) : float :=
  match x, y with
  | NaN, _ | _, NaN => NaN
  | Inf _, Zero _ | Zero _, Inf _ => NaN
  | Inf a, _ => Inf (xorb a (fsign y))
  | _, Inf b => Inf (xorb (fsign x) b)
  | Zero a, _ => Zero (xorb a (fsign y))
  | _, Zero b => Zero (xorb (fsign x) b)
  | Num p, Num q => of_Q (p * q)
  end.

(** Division as numpy performs it on arrays: a zero divisor gives an
    infinity or NaN, never an exception. *)
Definition fdiv (x y : float) : float :=
  match x, y with
  | NaN, _ | _, NaN => NaN
  | Inf _, Inf _ => NaN
  | Zero _, Zero _ => NaN
  | Inf a, _ => Inf (xorb a (fsign y))
  | _, Inf b => Zero (xorb (fsign x) b)
  | Zero a, _ => Zero (xorb a (fsign y))
  | Num p, Zero b => Inf (xorb (fsign x) b)
  | Num p, Num q => of_Q (p / q)
  end.

(** Position on the extended line: the infinities sit below and above
    every finite value, both zeros are the rational 0, NaN has no place. *)
Definition rank (x : float) : option (Z * Q) :=
  match x with
  | NaN => None
  | Inf true => Some ((-1)%Z, 0)
  | Inf false => Some (1%Z, 0)
  | Zero _ => Some (0%Z, 0)
  | Num q => Some (0%Z, q)
  end.

(** [x < y]: false as soon as an operand is NaN. *)
Definition fltb (x y : float) : bool :=
  match rank x, rank y with
  | Some (a, p), Some (b, q) => (a <? b)%Z || ((a =? b)%Z && Qltb p q)
  | _, _ => false
  end.

(** [x <= y]. *)
Definition fleb (x y : float) : bool :=
  match rank x, rank y with
  | Some (a, p), Some (b, q) => (a <? b)%Z || ((a =? b)%Z && Qle_bool p q)
  | _, _ => false
  end.

Definition fgtb (x y : float) : bool := fltb y x.
Definition fgeb (x y : float) : bool := fleb y x.

(** [x == y]: the two zeros are equal, NaN equals nothing. *)
Definition feqb (x y : float) : bool :=
  match rank x, rank y with
  | Some (a, p), Some (b, q) => (a =? b)%Z && Qeq_bool p q
  | _, _ => false
  end.

(** Round half to even to the nearest integer. *)
Definition round_half_even (q : Q) : Z :=
  let f := Qfloor q in
  match Qcompare (q - inject_Z f) (1 # 2) with
  | Lt => f
  | Gt => (f + 1)%Z
  | Eq => if Z.even f then f else (f + 1)%Z
  end.

(** Python's [round(x, 2)] on a float: NaN, infinities and zeros come back
    unchanged; a result that rounds to zero keeps the sign of [x]. *)
Definition round2 (x : float) : float :=
  match x with
  | Num q =>
      let z := round_half_even (q * 100) in
      if (z =? 0)%Z then Zero (Qltb q 0) else Num (Qred (inject_Z z / 100))
  | _ => x
  end.

(** ** Configuration *)

Definition RSI_PERIOD : Z := 14.
Definition VOL_DAYS : nat := 252.
Definition N_CARDS : nat := 10.

Local Open Scope string_scope.

Definition NIFTY50 : list string :=
  [ "RELIANCE.NS"; "TCS.NS"; "HDFCBANK.NS"; "INFY.NS"; "ICICIBANK.NS"; "KOTAKBANK.NS";
    "LT.NS"; "ITC.NS"; "SBIN.NS"; "HCLTECH.NS"; "AXISBANK.NS"; "BHARTIARTL.NS"; "BAJAJ-AUTO.NS";
    "ASIANPAINT.NS"; "HINDUNILVR.NS"; "MARUTI.NS"; "SUNPHARMA.NS"; "NTPC.NS"; "M&M.NS";
    "BAJFINANCE.NS"; "ULTRACEMCO.NS"; "TITAN.NS"; "POWERGRID.NS"; "ONGC.NS"; "HDFCLIFE.NS";
    "NESTLEIND.NS"; "DIVISLAB.NS"; "WIPRO.NS"; "BRITANNIA.NS"; "TECHM.NS"; "COALINDIA.NS";
    "SBILIFE.NS"; "ADANIENT.NS"; "ADANIPORTS.NS"; "TATASTEEL.NS"; "BPCL.NS"; "INDUSINDBK.NS";
    "GRASIM.NS"; "EICHERMOT.NS"; "JSWSTEEL.NS"; "DRREDDY.NS"; "TATAMOTORS.NS"; "CIPLA.NS";
    "SHREECEM.NS"; "HINDALCO.NS" ].

(** The entries of [PALETTE] that the pipeline reads. *)
Module PALETTE.
Definition green : string := "#2ecc71".
Definition red : string := "#e74c3c".
Definition yellow : string := "#fff7cc".
Definition gray : string := "#95a5a6".
End PALETTE.

Local Close Scope string_scope.

(** ** Signal classification (the signal block of [analyze_universe]) *)

Inductive Label : Type := Buy | Sell | Neutral | Conflict.

Record Signal : Type := mkSignal {
  sig_label : Label;
  sig_color : string;
  sig_cross : bool
}.

(** [def between(x): return 40 <= x <= 60] *)
Definition between (x : float) : bool :=
  fleb (of_Z 40) x && fleb x (of_Z 60).

(** The body of the loop over the rows: the chain of [if ...: ...; continue]
    statements, then the unconditional fallback. *)
Definition signal (d w : float) : Signal :=
  if fgtb d (of_Z 60) && between w then mkSignal Conflict PALETTE.gray true
  else if fgtb w (of_Z 60) && between d then mkSignal Conflict PALETTE.gray true
  else if fgtb d (of_Z 60) && fgtb w (of_Z 60) then mkSignal Buy PALETTE.green false
  else if fltb d (of_Z 40) && fltb w (of_Z 40) then mkSignal Sell PALETTE.red false
  else if between d && between w then mkSignal Neutral PALETTE.yellow false
  else mkSignal Neutral PALETTE.yellow false.

(** *** The decision table as the specification words it *)

(** Order relations on floats as propositions. *)
Definition flt (x y : float) : Prop := fltb x y = true.
Definition fle (x y : float) : Prop := fleb x y = true.

Definition in_band (x : float) : Prop := fle (of_Z 40) x /\ fle x (of_Z 60).
Definition above_band (x : float) : Prop := flt (of_Z 60) x.
Definition below_band (x : float) : Prop := flt x (of_Z 40).

Definition rule1 (d w : float) : Prop := above_band d /\ in_band w.
Definition rule2 (d w : float) : Prop := above_band w /\ in_band d.
Definition rule3 (d w : float) : Prop := above_band d /\ above_band w.
Definition rule4 (d w : float) : Prop := below_band d /\ below_band w.
Definition rule5 (d w : float) : Prop := in_band d /\ in_band w.

(** A priority table: the first row whose predicate holds gives the label,
    the fallback applies when none does. *)
Inductive table_gives (d w : float) :
  list ((float -> float -> Prop) * Label) -> Label -> Label -> Prop :=
  | table_fallback : forall dflt, table_gives d w [] dflt dflt
  | table_hit : forall (P : float -> float -> Prop) l rows dflt,
      P d w -> table_gives d w ((P, l) :: rows) dflt l
  | table_skip : forall (P : float -> float -> Prop) l rows dflt r,
      ~ P d w -> table_gives d w rows dflt r ->
      table_gives d w ((P, l) :: rows) dflt r.

Definition decision_table : list ((float -> float -> Prop) * Label) :=
  [ (rule1, Conflict); (rule2, Conflict); (rule3, Buy); (rule4, Sell);
    (rule5, Neutral) ].

(** ** pandas Series *)

(** A Series is a list of (index label, value).  The labels of a price
    series are dates, kept as proleptic Gregorian ordinals (day 1 is
    Monday 0001-01-01, as [date.toordinal] counts).  A cell of provider
    data is a finite price or missing. *)
Definition Series (A : Type) : Type := list (Z * A).

Definition Cell : Type := option Q.

Definition index {A} (s : Series A) : list Z := map fst s.
Definition values {A} (s : Series A) : list A := map snd s.

(** [s.dropna()] on provider cells. *)
Definition dropna (s : Series Cell) : Series Cell :=
  filter (fun p => match snd p with Some _ => true | None => false end) s.

(** [s.astype(float)]: a missing cell is NaN. *)
Definition astype_float (s : Series Cell) : Series float :=
  map (fun p => (fst p, match snd p with Some q => of_Q q | None => NaN end)) s.

(** [s.dropna()] on a float Series. *)
Definition dropna_float (s : Series float) : Series float :=
  filter (fun p => negb (isnan (snd p))) s.

(** Element-wise lifting; the operands of every binary operation below
    carry the same index, so pandas' label alignment is positional. *)
Definition smap {A B} (f : A -> B) (s : Series A) : Series B :=
  map (fun p => (fst p, f (snd p))) s.

Fixpoint szip (f : float -> float -> float) (s t : Series float) : Series float :=
  match s, t with
  | (i, x) :: s', (_, y) :: t' => (i, f x y) :: szip f s' t'
  | _, _ => []
  end.

(** [s.shift(1)]: the labels stay, the values move down by one and the
    first becomes NaN. *)
Fixpoint shift_from (prev : float) (s : Series float) : Series float :=
  match s with
  | [] => []
  | (i, x) :: s' => (i, prev) :: shift_from x s'
  end.

Definition shift1 (s : Series float) : Series float := shift_from NaN s.

(** [s.diff()] is [s - s.shift(1)]. *)
Definition diff (s : Series float) : Series float := szip fsub s (shift1 s).

(** [s.clip(lower=0)] and [s.clip(upper=0)]: a value outside the bound is
    replaced by the bound, NaN stays NaN. *)
Definition clip_lower0 (x : float) : float :=
  if isnan x then NaN else if fgeb x (of_Z 0) then x else of_Z 0.

Definition clip_upper0 (x : float) : float :=
  if isnan x then NaN else if fleb x (of_Z 0) then x else of_Z 0.

(** [s.ewm(alpha=alpha, adjust=False).mean()], the loop of pandas'
    [ewm] aggregation with [adjust=False], [ignore_na=False] and
    [min_periods=0].  The state is the running average [weighted] and the
    weight [old_wt] of the past. *)
Definition ewm_step (alpha : float) (st : float * float) (cur : float)
  : float * float :=
  let '(weighted, old_wt) := st in
  let is_observation := negb (isnan cur) in
  if negb (isnan weighted) then
    let old_wt := fmul old_wt (fsub (of_Z 1) alpha) in
    if is_observation then
      let weighted :=
        if negb (feqb weighted cur)
        then fdiv (fadd (fmul old_wt weighted) (fmul alpha cur)) (fadd old_wt alpha)
        else weighted in
      (weighted, of_Z 1)
    else (weighted, old_wt)
  else if is_observation then (cur, old_wt)
  else (weighted, old_wt).

Fixpoint ewm_loop (alpha : float) (st : float * float) (s : Series float)
  : Series float :=
  match s with
  | [] => []
  | (i, cur) :: s' =>
      let st' := ewm_step alpha st cur in
      (i, fst st') :: ewm_loop alpha st' s'
  end.

Definition ewm_mean (alpha : float) (s : Series float) : Series float :=
  match s with
  | [] => []
  | (i, x) :: s' => (i, x) :: ewm_loop alpha (x, of_Z 1) s'
  end.

(** ** Financial helpers *)

(** [rsi(series, period=RSI_PERIOD)], for a positive [period]; on a
    period of zero or below the source raises, in [1/period] or in
    [ewm].  The program calls it at the default period only. *)
Definition rsi (series : Series Cell) (period : Z) : Series float :=
  let s := astype_float (dropna series) in
  match s with
  | [] => s
  | _ :: _ =>
      let delta := diff s in
      let up := smap clip_lower0 delta in
      let down := smap fneg (smap clip_upper0 delta) in
      let alpha := fdiv (of_Z 1) (of_Z period) in
      let avg_up := ewm_mean alpha up in
      let avg_down := ewm_mean alpha down in
      let rs := szip fdiv avg_up avg_down in
      smap (fun x => fsub (of_Z 100) (fdiv (of_Z 100) (fadd (of_Z 1) x))) rs
  end.

(** Last [n] elements: [s.iloc[-n:]], [s.tail(n)]. *)
Definition lastn {A} (n : nat) (l : list A) : list A := skipn (length l - n) l.

(** numpy's reduction with [+]: the first element starts the sum. *)
Definition fsum (l : list float) : float :=
  match l with
  | [] => Zero false
  | x :: l' => fold_left fadd l' x
  end.

(** ** numpy's transcendental functions

    [np.log] and [np.sqrt] on a positive rational are not rational; their
    values there are taken as given ([ln], [sqrtQ]).  What numpy does on
    the special values and on negative arguments is written out. *)
Section Numpy.

Variable ln : Q -> Q.
Variable sqrtQ : Q -> Q.

Definition np_log (x : float) : float :=
  match x with
  | NaN => NaN
  | Inf false => Inf false
  | Inf true => NaN
  | Zero _ => Inf true
  | Num q => if Qltb q 0 then NaN else of_Q (ln q)
  end.

Definition np_sqrt (x : float) : float :=
  match x with
  | NaN => NaN
  | Inf false => Inf false
  | Inf true => NaN
  | Zero s => Zero s
  | Num q => if Qltb q 0 then NaN else of_Q (sqrtQ q)
  end.

(** [s.std(ddof=0)]: the square root of the mean squared deviation from
    the mean, the count itself being the divisor. *)
Definition std_ddof0 (l : list float) : float :=
  let count := of_Z (Z.of_nat (length l)) in
  let avg := fdiv (fsum l) count in
  let sqr := map (fun x => let d := fsub avg x in fmul d d) l in
  np_sqrt (fdiv (fsum sqr) count).

(** [annual_vol(close_series)] *)
Definition annual_vol (close_series : Series Cell) : float :=
  let s := astype_float (dropna close_series) in
  if (length s <? 10)%nat then NaN
  else
    let s := if (VOL_DAYS <=? length s)%nat then lastn VOL_DAYS s else s in
    let log_ret := dropna_float (smap np_log (szip fdiv s (shift1 s))) in
    if (length log_ret <? 2)%nat then NaN
    else fmul (std_ddof0 (values log_ret)) (np_sqrt (of_Z 252)).

End Numpy.

(** ** pandas DataFrame of provider bars *)

(** Column names and one row of cells per index label. *)
Record DataFrame : Type := mkFrame {
  columns : list string;
  rows : list (Z * list Cell)
}.

(** [pd.DataFrame()] *)
Definition empty_frame : DataFrame := mkFrame [] [].

(** [df.empty]: some axis has length zero. *)
Definition df_empty (df : DataFrame) : bool :=
  match columns df, rows df with
  | [], _ | _, [] => true
  | _, _ => false
  end.

Fixpoint column_pos (name : string) (cols : list string) : option nat :=
  match cols with
  | [] => None
  | c :: cols' =>
      if String.eqb c name then Some O
      else option_map S (column_pos name cols')
  end.

(** [name in df.columns] *)
Definition has_column (name : string) (df : DataFrame) : bool :=
  match column_pos name (columns df) with Some _ => true | None => false end.

(** [df[name]], read where the column exists. *)
Definition getitem (df : DataFrame) (name : string) : Series Cell :=
  match column_pos name (columns df) with
  | Some j => map (fun r => (fst r, nth j (snd r) None)) (rows df)
  | None => []
  end.

(** [df.dropna(how='all')]: rows without a single value go. *)
Definition dropna_all (df : DataFrame) : DataFrame :=
  mkFrame (columns df)
    (filter (fun r => existsb (fun c => match c with Some _ => true | None => false end)
                        (snd r))
            (rows df)).

(** The calendar week of a date, weeks running Monday to Sunday as the
    rule ['W'] cuts them. *)
Definition week_of (d : Z) : Z := ((d - 1) / 7)%Z.

(** The Sunday that closes a week, the label pandas gives the bin. *)
Definition week_label (w : Z) : Z := (7 * (w + 1))%Z.

Definition last_valid (l : list Cell) : Cell :=
  fold_left (fun acc c => match c with Some _ => c | None => acc end) l None.

(** [df.resample('W').last()]: one row per week from the first to the
    last week of the index; each column holds its last value of the
    week that is not missing, or nothing. *)
Definition resample_W_last (df : DataFrame) : DataFrame :=
  match map (fun r => week_of (fst r)) (rows df) with
  | [] => mkFrame (columns df) []
  | w0 :: ws =>
      let lo := fold_left Z.min ws w0 in
      let hi := fold_left Z.max ws w0 in
      let bins := map (fun k => (lo + Z.of_nat k)%Z) (seq 0 (Z.to_nat (hi - lo + 1))) in
      mkFrame (columns df)
        (map (fun w =>
                let inside := filter (fun r => (week_of (fst r) =? w)%Z) (rows df) in
                (week_label w,
                 map (fun j => last_valid (map (fun r => nth j (snd r) None) inside))
                     (seq 0 (length (columns df)))))
             bins)
  end.

(** ** Exceptions and the provider *)

Inductive exn : Type :=
  | KeyError (key : string)
  | IndexError
  | ProviderError (msg : string).

Inductive result (A : Type) : Type :=
  | Ok (a : A)
  | Raise (e : exn).
Arguments Ok {A} a.
Arguments Raise {A} e.

(** What a batch download returns: the table itself and, under each
    ticker it knows, that ticker's columns.  [raw[t]] on a ticker it does
    not know raises [KeyError]. *)
Record RawTable : Type := mkRaw {
  raw_frame : DataFrame;
  raw_groups : list (string * DataFrame)
}.

Fixpoint assoc {A} (k : string) (l : list (string * A)) : option A :=
  match l with
  | [] => None
  | (k', v) :: l' => if String.eqb k' k then Some v else assoc k l'
  end.

Definition raw_getitem (raw : RawTable) (t : string) : result DataFrame :=
  match assoc t (raw_groups raw) with
  | Some df => Ok df
  | None => Raise (KeyError t)
  end.

(** The calls of [yfinance] the program makes, each able to fail. *)
Record Provider : Type := mkProvider {
  download : list string -> result RawTable;
  download_one : string -> result DataFrame;
  ticker_info : string -> result (list (string * string))
}.

(** What [fetch_all] does to the outside, in order. *)
Inductive event : Type :=
  | CallDownload (tickers : list string)
  | CallDownloadOne (t : string)
  | SetLastFetchError.

(** A Python [dict]: the keys in insertion order; an assignment to a key
    already there changes its value in place. *)
Definition dict (A : Type) : Type := list (string * A).

Fixpoint dict_set {A} (d : dict A) (k : string) (v : A) : dict A :=
  match d with
  | [] => [(k, v)]
  | (k', v') :: d' =>
      if String.eqb k' k then (k, v) :: d' else (k', v') :: dict_set d' k v
  end.

Definition dict_get {A} (d : dict A) (k : string) (default : A) : A :=
  match assoc k d with Some v => v | None => default end.

(** ** Data fetch *)

(** The body of the loop [for t in tickers] of [fetch_all]: the table of
    [t] out of the batch, else one download of [t] alone, else an empty
    frame. *)
Definition fetch_ticker (yf : Provider) (raw : RawTable) (t : string)
  : DataFrame * list event :=
  match raw_getitem raw t with
  | Ok df => (dropna_all df, [])
  | Raise _ =>
      match download_one yf t with
      | Ok df2 => (df2, [CallDownloadOne t])
      | Raise _ => (empty_frame, [CallDownloadOne t])
      end
  end.

Fixpoint fetch_loop (yf : Provider) (raw : RawTable) (tickers : list string)
  (out : dict DataFrame) : dict DataFrame * list event :=
  match tickers with
  | [] => (out, [])
  | t :: rest =>
      let '(df, ev) := fetch_ticker yf raw t in
      let '(out', ev') := fetch_loop yf raw rest (dict_set out t df) in
      (out', ev ++ ev')
  end.

(** [fetch_all(tickers)]; the result cache of the decorator is not part
    of the model. *)
Definition fetch_all (yf : Provider) (tickers : list string)
  : dict DataFrame * list event :=
  match download yf tickers with
  | Raise _ => ([], [CallDownload tickers; SetLastFetchError])
  | Ok raw =>
      match tickers with
      | [t] => ([(t, raw_frame raw)], [CallDownload tickers])
      | _ =>
          let '(out, ev) := fetch_loop yf raw tickers [] in
          (out, CallDownload tickers :: ev)
      end
  end.

(** ** Analysis: the [N_CARDS] least volatile tickers *)

Record Candidate : Type := mkCandidate {
  ticker : string;
  company : string;
  daily_rsi : float;
  weekly_rsi : float;
  volatility : float;
  series_daily : list float
}.

(** Python's [list.sort(key=...)]: stable, an element moves behind
    another only when its key is smaller under [<]. *)
Fixpoint insert_by {A} (key : A -> float) (x : A) (l : list A) : list A :=
  match l with
  | [] => [x]
  | y :: l' => if fltb (key y) (key x) then y :: insert_by key x l' else x :: l
  end.

Definition list_sort {A} (key : A -> float) (l : list A) : list A :=
  fold_right (insert_by key) [] l.

(** numpy's [argsort(kind='quicksort')] as it runs on 17 keys or fewer:
    at that size the sort does not partition, it is its insertion pass
    alone.  The pass takes the keys from left to right and moves each one
    left past the keys that are strictly greater, so that equal keys stay
    in their order.  [done] holds the part already sorted, last key
    first. *)
Fixpoint insert_back {A} (key : A -> float) (x : A) (done : list A) : list A :=
  match done with
  | [] => [x]
  | y :: before => if fltb (key x) (key y) then y :: insert_back key x before
                   else x :: done
  end.

Definition insertion_pass {A} (key : A -> float) (l : list A) : list A :=
  rev (fold_left (fun done x => insert_back key x done) l []).

(** [df.sort_values("volatility")] on a frame of at most 17 rows, which
    the frame of the selection is with its [N_CARDS] rows at most: pandas
    sorts the rows whose key is not NaN by numpy's [argsort] and puts the
    rows whose key is NaN last, in their order. *)
Definition sort_values (frame : list Candidate) : list Candidate :=
  insertion_pass volatility (filter (fun r => negb (isnan (volatility r))) frame)
  ++ filter (fun r => isnan (volatility r)) frame.

(** [s.iloc[-1]] *)
Definition iloc_last (s : Series float) : result float :=
  match rev s with
  | [] => Raise IndexError
  | (_, x) :: _ => Ok x
  end.

(** [a or b] on what [dict.get] returns: [None] and the empty string
    both give way to [b]. *)
Definition or_else (a : option string) (b : string) : string :=
  match a with
  | Some s => if String.eqb s EmptyString then b else s
  | None => b
  end.

(** The best-effort company name. *)
Definition company_name (yf : Provider) (tk : string) : string :=
  match ticker_info yf tk with
  | Ok info =>
      or_else (assoc "shortName"%string info)
              (or_else (assoc "longName"%string info) EmptyString)
  | Raise _ => EmptyString
  end.

(** The columns of [pd.DataFrame(selected)]: the keys of the records, none
    when there is no record. *)
Definition record_columns (selected : list Candidate) : list string :=
  match selected with
  | [] => []
  | _ :: _ => ["ticker"; "company"; "daily_rsi"; "weekly_rsi"; "volatility";
               "series_daily"]%string
  end.

Definition usable (df : DataFrame) : bool :=
  negb (df_empty df || negb (has_column "Close"%string df)).

Section Analysis.

Variable ln : Q -> Q.
Variable sqrtQ : Q -> Q.
Variable yf : Provider.

(** The order in which [sort_values("volatility")] returns the rows.
    pandas sorts with numpy's quicksort there, which is documented up to
    the order of rows with equal keys; [sort_values] above is what its
    scalar code does on a frame as small as the selection. *)
Variable sort_rows : list Candidate -> list Candidate.

(** The first loop of [analyze_universe], over [price_map.items()]. *)
Definition vol_entries (price_map : dict DataFrame) : list (string * float) :=
  flat_map (fun kv =>
              let '(tk, df) := kv in
              if usable df
              then [(tk, annual_vol ln sqrtQ (getitem df "Close"%string))]
              else [])
           price_map.

(** [vol_list] as the selection loop receives it: NaN scores removed,
    then sorted by score. *)
Definition vol_list (price_map : dict DataFrame) : list (string * float) :=
  list_sort snd (filter (fun x => negb (isnan (snd x))) (vol_entries price_map)).

(** One ticker of the selection loop: the record to append, or nothing
    when a [continue] is taken. *)
Definition candidate (price_map : dict DataFrame) (tk : string) (vol : float)
  : option Candidate :=
  let df := dict_get price_map tk empty_frame in
  if negb (usable df) then None
  else
    let daily := dropna (getitem df "Close"%string) in
    if (length daily <? 40)%nat then None
    else
      let weekly := dropna (getitem (resample_W_last df) "Close"%string) in
      if (length weekly <? 8)%nat then None
      else
        match iloc_last (rsi daily RSI_PERIOD), iloc_last (rsi weekly RSI_PERIOD) with
        | Ok d, Ok w =>
            Some (mkCandidate tk (company_name yf tk) (round2 d) (round2 w) vol
                    (values (astype_float (lastn 40 daily))))
        | _, _ => None
        end.

(** The selection loop, [selected] being the list built so far. *)
Fixpoint select (price_map : dict DataFrame) (vl : list (string * float))
  (selected : list Candidate) : list Candidate :=
  match vl with
  | [] => selected
  | (tk, vol) :: rest =>
      if (N_CARDS <=? length selected)%nat then selected
      else
        match candidate price_map tk vol with
        | None => select price_map rest selected
        | Some c => select price_map rest (selected ++ [c])
        end
  end.

(** [pd.DataFrame(selected).sort_values("volatility")
      .reset_index(drop=True).head(N_CARDS)] *)
Definition ranked_frame (selected : list Candidate) : result (list Candidate) :=
  if existsb (String.eqb "volatility"%string) (record_columns selected)
  then Ok (firstn N_CARDS (sort_rows selected))
  else Raise (KeyError "volatility"%string).

(** [analyze_universe] from the price map on. *)
Definition analyze_prices (price_map : dict DataFrame)
  : result (list (Candidate * Signal)) :=
  match ranked_frame (select price_map (vol_list price_map) []) with
  | Raise e => Raise e
  | Ok df =>
      match df with
      | [] => Ok []
      | _ :: _ => Ok (map (fun row => (row, signal (daily_rsi row) (weekly_rsi row))) df)
      end
  end.

(** [analyze_universe()] *)
Definition analyze_universe : result (list (Candidate * Signal)) :=
  analyze_prices (fst (fetch_all yf NIFTY50)).

(** The script after [handle_query_params()]: the call of
    [analyze_universe], nothing around it catching, then the warning on
    an empty frame or the page. *)
Inductive outcome : Type :=
  | Uncaught (e : exn)
  | NoDataWarning
  | Page (df : list (Candidate * Signal)).

Definition run_app : outcome :=
  match analyze_universe with
  | Raise e => Uncaught e
  | Ok [] => NoDataWarning
  | Ok df => Page df
  end.

End Analysis.

(** ** Notions used in the statements *)

(** A finite value that is zero or above, and one strictly above. *)
Definition nonneg (x : float) : Prop :=
  match x with
  | Zero _ => True
  | Num q => 0 < q
  | _ => False
  end.

Definition positive (x : float) : Prop :=
  match x with
  | Num q => 0 < q
  | _ => False
  end.

(** A value of the smoothing that is still NaN or is zero or above. *)
Definition okst (w : float) : Prop := w = NaN \/ nonneg w.

(** The closed interval [[0, 100]]. *)
Definition in_range (x : float) : Prop :=
  fle (of_Z 0) x /\ fle x (of_Z 100).

(** The smoothing factor [1/period] at the default period. *)
Definition alpha14 : float := fdiv (of_Z 1) (of_Z RSI_PERIOD).

(** One value of the RSI from the two smoothed averages, as the last two
    lines of [rsi] compute it. *)
Definition rsi_point (u d : float) : float :=
  fsub (of_Z 100) (fdiv (of_Z 100) (fadd (of_Z 1) (fdiv u d))).

(** The passes of [rsi] over the tail of the series, fused into one:
    [prev] is the previous price, [su] and [sd] are the states of the two
    smoothings.  [rsi_unfold] below shows it is what [rsi] computes. *)
Fixpoint rsi_loop (alpha prev : float) (su sd : float * float) (s : Series float)
  : Series float :=
  match s with
  | [] => []
  | (i, x) :: s' =>
      let delta := fsub x prev in
      let su' := ewm_step alpha su (clip_lower0 delta) in
      let sd' := ewm_step alpha sd (fneg (clip_upper0 delta)) in
      (i, rsi_point (fst su') (fst sd')) :: rsi_loop alpha x su' sd' s'
  end.

(** The entries of a series that hold a price, and the prices alone. *)
Definition present (series : Series Cell) : list (Z * Q) :=
  flat_map (fun p => match snd p with Some q => [(fst p, q)] | None => [] end) series.

Definition prices (series : Series Cell) : list Q := map snd (present series).

Definition floats (ps : list (Z * Q)) : Series float :=
  map (fun iq => (fst iq, of_Q (snd iq))) ps.

(** A value with at most two decimals, and the rational a finite value
    stands for. *)
Definition two_decimals (x : float) : Prop :=
  match x with
  | Num q => exists z : Z, q == inject_Z z / 100
  | _ => True
  end.

Definition fval (x : float) : Q :=
  match x with
  | Num q => q
  | _ => 0
  end.

(** ** The volatility contract in the words of the specification *)

(** The log returns [ln (price[t] / price[t-1])] of a window, one per
    pair of successive prices. *)
Definition log_returns (ln : Q -> Q) (window : list float) : list float :=
  map (fun pc => np_log ln (fdiv (snd pc) (fst pc))) (combine window (tl window)).

(** Population standard deviation: the mean of the squared deviations
    from the mean is taken over [N], not [N - 1]. *)
Definition population_std (sqrtQ : Q -> Q) (l : list float) : float :=
  let n := of_Z (Z.of_nat (length l)) in
  let mean := fdiv (fsum l) n in
  np_sqrt sqrtQ (fdiv (fsum (map (fun x => fmul (fsub mean x) (fsub mean x)) l)) n).

(** Drop the missing values; fewer than 10 observations: undefined;
    keep the most recent 252 when there are more; take the log returns
    and keep the valid ones; fewer than 2: undefined; otherwise the
    population standard deviation times the square root of 252. *)
Definition annual_vol_spec (ln sqrtQ : Q -> Q) (close_series : Series Cell) : float :=
  let observations := map of_Q (prices close_series) in
  if (length observations <? 10)%nat then NaN
  else
    let window :=
      if (252 <? length observations)%nat then lastn 252 observations
      else observations in
    let valid := filter (fun r => negb (isnan r)) (log_returns ln window) in
    if (length valid <? 2)%nat then NaN
    else fmul (population_std sqrtQ valid) (np_sqrt sqrtQ (of_Z 252)).

(** The quotients of each value by the one before it, [prev] standing
    before the first. *)
Fixpoint ratios (prev : float) (l : list float) : list float :=
  match l with
  | [] => []
  | y :: l' => fdiv y prev :: ratios y l'
  end.

(** ** Reading the effects of [fetch_all] *)

(** The number of single-ticker downloads of [t] among the events. *)
Definition single_downloads (t : string) (log : list event) : nat :=
  length (filter (fun e => match e with
                           | CallDownloadOne t' => String.eqb t' t
                           | _ => false
                           end) log).

(** The keys of a dict. *)
Definition keys {A} (d : dict A) : list string := map fst d.

(** ** Reading the selection *)

(** The daily and the weekly closing series the selection loop looks at. *)
Definition daily_of (df : DataFrame) : Series Cell :=
  dropna (getitem df "Close"%string).

Definition weekly_of (df : DataFrame) : Series Cell :=
  dropna (getitem (resample_W_last df) "Close"%string).

(** A frame passes all filters: it is usable, its volatility is defined,
    it has 40 daily and 8 weekly observations. *)
Definition passes (ln sqrtQ : Q -> Q) (df : DataFrame) : bool :=
  usable df
  && negb (isnan (annual_vol ln sqrtQ (getitem df "Close"%string)))
  && (40 <=? length (daily_of df))%nat
  && (8 <=? length (weekly_of df))%nat.

(** The number of tickers of a price map that survive all filters. *)
Definition survivors (ln sqrtQ : Q -> Q) (price_map : dict DataFrame) : nat :=
  length (filter (fun kv => passes ln sqrtQ (snd kv)) price_map).

(** The records the selection loop would append for a list of scored
    tickers, were it not to stop. *)
Definition cands (yf : Provider) (price_map : dict DataFrame)
  (vl : list (string * float)) : list Candidate :=
  flat_map (fun x => match candidate yf price_map (fst x) (snd x) with
                     | Some c => [c]
                     | None => []
                     end) vl.

(** ** Reading the smoothed averages and the rank of a ticker *)

(** [avg_up] and [avg_down] as [rsi] computes them at the default period. *)
Definition avg_up (series : Series Cell) : Series float :=
  ewm_mean alpha14 (smap clip_lower0 (diff (astype_float (dropna series)))).

Definition avg_down (series : Series Cell) : Series float :=
  ewm_mean alpha14 (smap fneg (smap clip_upper0 (diff (astype_float (dropna series))))).

(** The scored tickers the selection loop meets before it meets [tk]. *)
Fixpoint before (tk : string) (vl : list (string * float)) : list (string * float) :=
  match vl with
  | [] => []
  | (k, v) :: rest => if String.eqb k tk then [] else (k, v) :: before tk rest
  end.

(** ** Layout of the page *)

Definition CARD_HEIGHT : Z := 170.

(** The height handed to [components.html]: [rows = math.ceil(len(df) /
    cols_for_calc)] with three columns, then
    [max(360, rows * CARD_HEIGHT + 120)]. *)
Definition iframe_height (n_rows : nat) : Z :=
  let cols_for_calc := 3%Z in
  let rows := Qceiling (Qdiv (inject_Z (Z.of_nat n_rows)) (inject_Z cols_for_calc)) in
  Z.max 360 (rows * CARD_HEIGHT + 120)%Z.

(** ** Reading a record without its company name *)

Definition without_company (c : Candidate) : Candidate :=
  mkCandidate (ticker c) EmptyString (daily_rsi c) (weekly_rsi c) (volatility c)
    (series_daily c).

(** ** Successive differences of a list of prices *)

Fixpoint deltas (prev : Q) (l : list Q) : list Q :=
  match l with
  | [] => []
  | x :: l' => (x - prev) :: deltas x l'
  end.

Definition successive_differences (l : list Q) : list Q :=
  match l with
  | [] => []
  | p :: rest => deltas p rest
  end.

(** ** A series with every price multiplied by a factor *)

Definition scale_prices (k : Q) (s : Series Cell) : Series Cell :=
  map (fun p => (fst p, option_map (Qmult k) (snd p))) s.

(** ** Reading the weekly resample *)

(** The weeks [resample_W_last] makes a row for: every week from the
    first to the last week of the index. *)
Definition week_bins (df : DataFrame) : list Z :=
  match map (fun r => week_of (fst r)) (rows df) with
  | [] => []
  | w0 :: ws =>
      let lo := fold_left Z.min ws w0 in
      let hi := fold_left Z.max ws w0 in
      map (fun k => (lo + Z.of_nat k)%Z) (seq 0 (Z.to_nat (hi - lo + 1)))
  end.

(** The rows of a frame that hold a close, as (date, week) pairs. *)
Definition valid_days (df : DataFrame) : list (Z * Z) :=
  map (fun p => (fst p, week_of (fst p))) (daily_of df).

(** The number of weeks among [ws] in which some valid day falls. *)
Definition weeks_hit (ws : list Z) (days : list (Z * Z)) : nat :=
  length (filter (fun w => existsb (fun d => (snd d =? w)%Z) days) ws).

(** Monday to Friday. *)
Definition weekday (d : Z) : Prop := ((d - 1) mod 7 < 5)%Z.

(** ** The sparkline

    [sparkline_svg] prints a polyline through the points [zip(xs, ys)]
    and closes the area under it through the two bottom corners.  The
    points are modelled as the function computes them, before they are
    printed with two decimals; [None] is the drawing without a path that
    fewer than two values get. *)

(** The step of [ndarray.min] and of [ndarray.max]: a NaN wins. *)
Definition fmin (x y : float) : float :=
  if isnan x then x else if isnan y then y else if fltb y x then y else x.

Definition fmax (x y : float) : float :=
  if isnan x then x else if isnan y then y else if fltb x y then y else x.

(** [np.linspace(start, stop, num)] between two integers, the end point
    included: the step is taken once, the points are [i * step + start],
    and the last of two or more points is set to [stop]. *)
Definition linspace (start stop : Z) (num : nat) : list float :=
  let div := Z.of_nat (num - 1) in
  let delta := of_Z (stop - start) in
  let step := fdiv delta (of_Z div) in
  map (fun i =>
         if (0 <? i)%nat && (i =? num - 1)%nat then of_Z stop
         else
           let y := of_Z (Z.of_nat i) in
           fadd (if (0 <? div)%Z
                 then if feqb step (of_Z 0)
                      then fmul (fdiv y (of_Z div)) delta
                      else fmul y step
                 else fmul y delta)
                (of_Z start))
      (seq 0 num).

(** The array [ys] of [sparkline_svg]. *)
Definition sparkline_ys (vals : list float) (height : Z) : list float :=
  match vals with
  | [] => []
  | v0 :: rest =>
      let minv := fold_left fmin rest v0 in
      let maxv := fold_left fmax rest v0 in
      if feqb maxv minv
      then map (fun _ => fmul (of_Z 1) (of_Q (inject_Z height / 2))) vals
      else map (fun v =>
                  fsub (fsub (of_Z height)
                          (fmul (fdiv (fsub v minv) (fsub maxv minv))
                             (of_Z (height - 6))))
                       (of_Z 3))
               vals
  end.

(** The points of the path of [sparkline_svg(values, width, height)]. *)
Definition sparkline_points (values : list float) (width height : Z)
  : option (list (float * float)) :=
  if (length values <? 2)%nat then None
  else Some (combine (linspace 2 (width - 2) (length values))
                     (sparkline_ys values height)).

(** The sparkline of a card of [build_page_html]: the last 30 of the
    stored closes in a box of 180 by 36. *)
Definition card_sparkline (row : Candidate) : option (list (float * float)) :=
  sparkline_points (lastn 30 (series_daily row)) 180 36.

(** A finite value and the rational it holds. *)
Definition stands_for (x : float) (q : Q) : Prop :=
  match x with
  | Zero _ => q == 0
  | Num p => p == q
  | _ => False
  end.

(** ** Sample data

    Concrete providers, price tables and library behaviours on which the
    definitions above are run. *)
Module Sample.

(** A rational stand-in for [np.log]: the first terms of
    [2 * atanh ((q - 1) / (q + 1))]; exact at 1. *)
Definition ln (q : Q) : Q :=
  let y := (q - 1) / (q + 1) in
  Qred (2 * (y + y * y * y / 3 + y * y * y * y * y / 5)).

(** A rational stand-in for [np.sqrt]: the integer square root of the
    argument scaled by [10^12], scaled back. *)
Definition sqrtQ (q : Q) : Q :=
  Qred (inject_Z (Z.sqrt (Qfloor (q * 1000000000000))) / 1000000).

(** [sort_values] keeping rows of equal volatility in their order. *)
Definition sort_stable (l : list Candidate) : list Candidate :=
  list_sort volatility l.

(** The [k]-th trading day from Monday 2024-01-01, weekends skipped. *)
Definition trading_day (k : nat) : Z :=
  (738886 + 7 * (Z.of_nat k / 5) + Z.of_nat k mod 5)%Z.

Definition ohlcv : list string := ["Open"; "High"; "Low"; "Close"; "Volume"]%string.

(** A price series on consecutive trading days. *)
Definition closes_on_trading_days (l : list Q) : Series Cell :=
  combine (map trading_day (seq 0 (length l))) (map Some l).

(** Daily bars closing at the given prices, one per trading day. *)
Definition bars (closes : list Q) : DataFrame :=
  mkFrame ohlcv
    (map (fun kp => (trading_day (fst kp),
                     [Some (snd kp); Some (snd kp); Some (snd kp); Some (snd kp);
                      Some 1000]))
         (combine (seq 0 (length closes)) closes)).

Definition flat (n : nat) (c : Q) : list Q := repeat c n.

(** A provider that serves the given tables in one batch and knows no
    company name. *)
Definition serving (tables : list (string * DataFrame)) : Provider :=
  mkProvider (fun _ => Ok (mkRaw empty_frame tables))
             (fun t => Raise (ProviderError "no data"))
             (fun _ => Raise (ProviderError "no info")).

(** A provider that is down: every call fails. *)
Definition outage : Provider :=
  mkProvider (fun _ => Raise (ProviderError "rate limited"))
             (fun _ => Raise (ProviderError "rate limited"))
             (fun _ => Raise (ProviderError "rate limited")).

(** One flat ticker with forty bars over eight weeks. *)
Definition one_flat : dict DataFrame := [ ("FLAT.NS"%string, bars (flat 40 50)) ].

(** Two flat tickers. *)
Definition two_flat : dict DataFrame :=
  [ ("A.NS", bars (flat 40 50)); ("B.NS", bars (flat 40 70)) ]%string.

(** Eleven flat tickers. *)
Definition eleven_flat : dict DataFrame :=
  map (fun k => (String (Ascii.ascii_of_nat (65 + k)) ".NS", bars (flat 40 50)))
      (seq 0 11).

End Sample.


(** * Properties *)

(** ** Order facts on floats *)

Lemma Qltb_lt (p q : Q) : Qltb p q = true <-> p < q.
Proof.
  unfold Qltb. rewrite Qlt_alt. destruct (p ?= q); split; congruence.
Qed.

Lemma Qltb_ge (p q : Q) : Qltb p q = false <-> q <= p.
Proof.
  unfold Qltb. destruct (p ?= q) eqn:E; split; intro H; try congruence.
  - apply Qeq_alt in E. rewrite E. apply Qle_refl.
  - apply Qlt_alt in E. exfalso. apply (Qlt_irrefl p). eapply Qlt_le_trans; eauto.
  - apply Qgt_alt in E. apply Qlt_le_weak. exact E.
Qed.

Lemma fltb_not_fleb (x y : float) : fltb x y = true -> fleb y x = false.
Proof.
  unfold fltb, fleb.
  destruct (rank x) as [[a p]|], (rank y) as [[b q]|]; try discriminate.
  intro H. apply orb_true_iff in H.
  apply orb_false_iff.
  destruct H as [H | H].
  - apply Z.ltb_lt in H. split.
    + apply Z.ltb_ge. lia.
    + apply andb_false_iff. left. apply Z.eqb_neq. lia.
  - apply andb_true_iff in H. destruct H as [H1 H2].
    apply Z.eqb_eq in H1. subst b. split.
    + apply Z.ltb_irrefl.
    + apply andb_false_iff. right.
      apply Qltb_lt in H2.
      destruct (Qle_bool q p) eqn:E; [|reflexivity].
      apply Qle_bool_iff in E. exfalso.
      apply (Qlt_irrefl p). eapply Qlt_le_trans; eauto.
Qed.

Lemma fltb_trans_false (x y z : float) :
  fltb x y = true -> fltb y z = true -> fltb z x = false.
Proof.
  unfold fltb.
  destruct (rank x) as [[a p]|], (rank y) as [[b q]|], (rank z) as [[c r]|];
    try discriminate.
  intros H1 H2.
  apply orb_true_iff in H1. apply orb_true_iff in H2.
  rewrite !andb_true_iff, !Z.ltb_lt, !Z.eqb_eq, !Qltb_lt in *.
  apply orb_false_iff. rewrite andb_false_iff, Z.ltb_ge, Z.eqb_neq, Qltb_ge.
  destruct H1 as [H1 | [H1 H1']], H2 as [H2 | [H2 H2']]; subst;
    try (split; [lia | left; lia]).
  split; [lia | right]. apply Qlt_le_weak. eapply Qlt_trans; eauto.
Qed.

(** ** Signal classification *)

Lemma rule1_reflect (d w : float) :
  rule1 d w <-> fgtb d (of_Z 60) && between w = true.
Proof.
  unfold rule1, above_band, in_band, flt, fle, fgtb, between.
  rewrite !andb_true_iff. tauto.
Qed.

Lemma rule2_reflect (d w : float) :
  rule2 d w <-> fgtb w (of_Z 60) && between d = true.
Proof.
  unfold rule2, above_band, in_band, flt, fle, fgtb, between.
  rewrite !andb_true_iff. tauto.
Qed.

Lemma rule3_reflect (d w : float) :
  rule3 d w <-> fgtb d (of_Z 60) && fgtb w (of_Z 60) = true.
Proof.
  unfold rule3, above_band, flt, fgtb. rewrite !andb_true_iff. tauto.
Qed.

Lemma rule4_reflect (d w : float) :
  rule4 d w <-> fltb d (of_Z 40) && fltb w (of_Z 40) = true.
Proof.
  unfold rule4, below_band, flt. rewrite !andb_true_iff. tauto.
Qed.

Lemma rule5_reflect (d w : float) :
  rule5 d w <-> between d && between w = true.
Proof.
  unfold rule5, in_band, fle, between. rewrite !andb_true_iff. tauto.
Qed.

Lemma above_not_between (x : float) :
  fgtb x (of_Z 60) = true -> between x = false.
Proof.
  unfold fgtb, between. intro H. apply fltb_not_fleb in H. rewrite H.
  apply andb_false_r.
Qed.

Lemma below_not_above (x : float) :
  fltb x (of_Z 40) = true -> fgtb x (of_Z 60) = false.
Proof.
  unfold fgtb. intro H.
  apply (fltb_trans_false x (of_Z 40) (of_Z 60)); [exact H | reflexivity].
Qed.

Lemma below_not_between (x : float) :
  fltb x (of_Z 40) = true -> between x = false.
Proof.
  unfold between. intro H. apply fltb_not_fleb in H. rewrite H. reflexivity.
Qed.

(** C2. The classification of a (daily RSI, weekly RSI) pair is the one
    the priority table gives, first match winning, with Neutral as the
    fallback; the conflict marker is set exactly when rule 1 or rule 2
    holds; the labels are characterised by the rules; and the six sample
    pairs get the labels the specification lists. *)
Theorem signal_follows_decision_table :
  (forall d w : float,
      table_gives d w decision_table Neutral (sig_label (signal d w))
      /\ (sig_cross (signal d w) = true <-> rule1 d w \/ rule2 d w)
      /\ (sig_label (signal d w) = Conflict <-> rule1 d w \/ rule2 d w)
      /\ (sig_label (signal d w) = Buy <-> rule3 d w)
      /\ (sig_label (signal d w) = Sell <-> rule4 d w)
      /\ (sig_label (signal d w) = Neutral <->
          ~ (rule1 d w \/ rule2 d w \/ rule3 d w \/ rule4 d w)))
  /\ sig_label (signal (of_Z 65) (of_Z 50)) = Conflict
  /\ sig_label (signal (of_Z 50) (of_Z 65)) = Conflict
  /\ sig_label (signal (of_Z 70) (of_Z 75)) = Buy
  /\ sig_label (signal (of_Z 30) (of_Z 25)) = Sell
  /\ sig_label (signal (of_Z 50) (of_Z 50)) = Neutral
  /\ sig_label (signal (of_Z 75) (of_Z 30)) = Neutral.
Proof.
  split; [| repeat split; reflexivity].
  intros d w.
  rewrite rule1_reflect, rule2_reflect, rule3_reflect, rule4_reflect.
  assert (T : forall (P : float -> float -> Prop) b,
             (P d w <-> b = true) -> b = false -> ~ P d w).
  { intros P b HP Hb HPd. apply HP in HPd. congruence. }
  unfold signal, decision_table.
  destruct (fgtb d (of_Z 60) && between w) eqn:R1.
  { cbn. repeat split; auto; try discriminate; try tauto.
    - apply table_hit. apply rule1_reflect. exact R1.
    - apply andb_true_iff in R1. destruct R1 as [R1 R1'].
      intro H. apply andb_true_iff in H. destruct H as [_ H].
      apply above_not_between in H. congruence.
    - apply andb_true_iff in R1. destruct R1 as [R1 R1'].
      intro H. apply andb_true_iff in H. destruct H as [_ H].
      apply below_not_between in H. congruence. }
  destruct (fgtb w (of_Z 60) && between d) eqn:R2.
  { cbn. repeat split; auto; try discriminate; try tauto.
    - apply table_skip; [apply (T _ _ (rule1_reflect d w) R1)|].
      apply table_hit. apply rule2_reflect. exact R2.
    - apply andb_true_iff in R2. destruct R2 as [R2 R2'].
      intro H. apply andb_true_iff in H. destruct H as [H _].
      apply above_not_between in H. congruence.
    - apply andb_true_iff in R2. destruct R2 as [R2 R2'].
      intro H. apply andb_true_iff in H. destruct H as [H _].
      apply below_not_between in H. congruence. }
  destruct (fgtb d (of_Z 60) && fgtb w (of_Z 60)) eqn:R3.
  { cbn. repeat split; auto; try discriminate; try tauto;
      try (intros [H | H]; discriminate).
    - apply table_skip; [apply (T _ _ (rule1_reflect d w) R1)|].
      apply table_skip; [apply (T _ _ (rule2_reflect d w) R2)|].
      apply table_hit. apply rule3_reflect. exact R3.
    - apply andb_true_iff in R3. destruct R3 as [R3 R3'].
      intro H. apply andb_true_iff in H. destruct H as [H _].
      apply below_not_above in H. congruence. }
  destruct (fltb d (of_Z 40) && fltb w (of_Z 40)) eqn:R4.
  { cbn. repeat split; auto; try discriminate; try tauto;
      try (intros [H | H]; discriminate).
    apply table_skip; [apply (T _ _ (rule1_reflect d w) R1)|].
    apply table_skip; [apply (T _ _ (rule2_reflect d w) R2)|].
    apply table_skip; [apply (T _ _ (rule3_reflect d w) R3)|].
    apply table_hit. apply rule4_reflect. exact R4. }
  assert (G : table_gives d w decision_table Neutral Neutral).
  { unfold decision_table.
    apply table_skip; [apply (T _ _ (rule1_reflect d w) R1)|].
    apply table_skip; [apply (T _ _ (rule2_reflect d w) R2)|].
    apply table_skip; [apply (T _ _ (rule3_reflect d w) R3)|].
    apply table_skip; [apply (T _ _ (rule4_reflect d w) R4)|].
    destruct (between d && between w) eqn:R5.
    - apply table_hit. apply rule5_reflect. exact R5.
    - apply table_skip; [apply (T _ _ (rule5_reflect d w) R5)|].
      apply table_fallback. }
  destruct (between d && between w) eqn:R5;
    (cbn; repeat split; auto; try discriminate;
     try (intros [H | H]; discriminate);
     intros _ [H | [H | [H | H]]]; discriminate).
Qed.

(** ** Arithmetic of the float model *)

Ltac fsimpl :=
  cbn -[Qeq_bool Qle_bool Qltb of_Q Qred Qplus Qmult Qdiv Qopp Qminus Qcompare
        Qlt Qle Qeq] in *.

Lemma Qeq_bool_false_iff (p q : Q) : Qeq_bool p q = false <-> ~ p == q.
Proof.
  split.
  - intros H E. apply Qeq_bool_iff in E. congruence.
  - intro H. destruct (Qeq_bool p q) eqn:E; [|reflexivity].
    apply Qeq_bool_iff in E. contradiction.
Qed.

Lemma of_Q_pos (q : Q) : 0 < q -> of_Q q = Num (Qred q) /\ 0 < Qred q.
Proof.
  intro H. unfold of_Q.
  assert (E : Qeq_bool q 0 = false).
  { apply Qeq_bool_false_iff. intro E. rewrite E in H. apply (Qlt_irrefl _ H). }
  rewrite E. split; [reflexivity | now rewrite Qred_correct].
Qed.

Lemma of_Q_zero (q : Q) : q == 0 -> of_Q q = Zero false.
Proof.
  intro H. unfold of_Q. apply Qeq_bool_iff in H. now rewrite H.
Qed.

Lemma of_Q_neg (q : Q) : q < 0 -> of_Q q = Num (Qred q) /\ Qred q < 0.
Proof.
  intro H. unfold of_Q.
  assert (E : Qeq_bool q 0 = false).
  { apply Qeq_bool_false_iff. intro E. rewrite E in H. apply (Qlt_irrefl _ H). }
  rewrite E. split; [reflexivity | now rewrite Qred_correct].
Qed.


Lemma nonneg_cases (x : float) :
  nonneg x -> (exists s, x = Zero s) \/ positive x.
Proof. destruct x; cbn; try contradiction; eauto. Qed.

Lemma positive_nonneg (x : float) : positive x -> nonneg x.
Proof. destruct x; cbn; auto. Qed.

Lemma positive_sign (x : float) : positive x -> fsign x = false.
Proof.
  destruct x; cbn; try contradiction. intro H.
  apply Qltb_ge. apply Qlt_le_weak. exact H.
Qed.

Lemma of_Q_positive (q : Q) : 0 < q -> positive (of_Q q).
Proof. intro H. destruct (of_Q_pos q H) as [E P]. rewrite E. exact P. Qed.

Lemma fmul_positive (x y : float) :
  positive x -> positive y -> positive (fmul x y).
Proof.
  destruct x as [| | |p]; cbn; try contradiction.
  destruct y as [| | |q]; cbn; try contradiction.
  intros Hp Hq. apply of_Q_positive. apply Qmult_lt_0_compat; assumption.
Qed.

Lemma fmul_positive_nonneg (x y : float) :
  positive x -> nonneg y ->
  nonneg (fmul x y) /\ (positive (fmul x y) <-> positive y).
Proof.
  intros Hx Hy. destruct (nonneg_cases y Hy) as [[s ->] | Py].
  - destruct x; cbn in *; try contradiction. tauto.
  - pose proof (fmul_positive x y Hx Py) as P.
    split; [apply positive_nonneg; exact P | tauto].
Qed.

Lemma fadd_nonneg (x y : float) :
  nonneg x -> nonneg y ->
  nonneg (fadd x y) /\ (positive (fadd x y) <-> positive x \/ positive y).
Proof.
  destruct x as [| |a|p]; cbn; try contradiction;
    destruct y as [| |b|q]; cbn; try contradiction; intros Hx Hy.
  - tauto.
  - tauto.
  - tauto.
  - assert (H : 0 < p + q).
    { rewrite <- (Qplus_0_l 0). apply Qplus_lt_le_compat; [|apply Qlt_le_weak]; assumption. }
    pose proof (of_Q_positive _ H) as P.
    split; [apply positive_nonneg; exact P | tauto].
Qed.

Lemma fdiv_nonneg_positive (x y : float) :
  nonneg x -> positive y ->
  nonneg (fdiv x y) /\ (positive (fdiv x y) <-> positive x).
Proof.
  destruct y as [| | |q]; cbn; try contradiction.
  destruct x as [| |a|p]; cbn; try contradiction; intros Hx Hy.
  - tauto.
  - assert (H : 0 < p / q).
    { apply Qlt_shift_div_l; [assumption | now rewrite Qmult_0_l]. }
    pose proof (of_Q_positive _ H) as P.
    split; [apply positive_nonneg; exact P | tauto].
Qed.

Lemma feqb_nonneg (x y : float) :
  nonneg x -> nonneg y -> feqb x y = true -> (positive x <-> positive y).
Proof.
  destruct x as [| |a|p]; fsimpl; try contradiction;
    destruct y as [| |b|q]; fsimpl; try contradiction; intros Hx Hy E;
    try tauto.
  - apply Qeq_bool_iff in E. rewrite <- E in Hy. exfalso. apply (Qlt_irrefl _ Hy).
  - apply Qeq_bool_iff in E. rewrite E in Hx. exfalso. apply (Qlt_irrefl _ Hx).
Qed.

(** ** The smoothing and the RSI formula *)

Lemma alpha14_eq : alpha14 = Num (1 # 14).
Proof. reflexivity. Qed.

Lemma ewm_step_nonneg (w c : float) :
  nonneg w -> nonneg c ->
  exists w', ewm_step alpha14 (w, of_Z 1) c = (w', of_Z 1)
             /\ nonneg w' /\ (positive w' <-> positive w \/ positive c).
Proof.
  intros Hw Hc. unfold ewm_step.
  assert (Nw : isnan w = false) by (destruct w; cbn in *; auto; contradiction).
  assert (Nc : isnan c = false) by (destruct c; cbn in *; auto; contradiction).
  rewrite Nw, Nc. cbn [negb].
  rewrite alpha14_eq.
  change (fmul (of_Z 1) (fsub (of_Z 1) (Num (1 # 14)))) with (Num (13 # 14)).
  change (fadd (Num (13 # 14)) (Num (1 # 14))) with (Num 1).
  destruct (feqb w c) eqn:E; cbn [negb].
  - exists w. split; [reflexivity|]. split; [assumption|].
    pose proof (feqb_nonneg w c Hw Hc E). tauto.
  - eexists. split; [reflexivity|].
    assert (P13 : positive (Num (13 # 14))) by (cbn; reflexivity).
    assert (P1 : positive (Num (1 # 14))) by (cbn; reflexivity).
    assert (P : positive (Num 1)) by (cbn; reflexivity).
    destruct (fmul_positive_nonneg _ _ P13 Hw) as [A1 A2].
    destruct (fmul_positive_nonneg _ _ P1 Hc) as [B1 B2].
    destruct (fadd_nonneg _ _ A1 B1) as [C1 C2].
    destruct (fdiv_nonneg_positive _ _ C1 P) as [D1 D2].
    split; [assumption | tauto].
Qed.

Lemma rsi_point_zero_zero (a b : bool) : rsi_point (Zero a) (Zero b) = NaN.
Proof. reflexivity. Qed.

Lemma rsi_point_saturates (u : float) (b : bool) :
  positive u -> rsi_point u (Zero b) = of_Z 100.
Proof.
  destruct u as [| | |p]; cbn; try contradiction. intro H.
  unfold rsi_point. fsimpl. reflexivity.
Qed.

Lemma rsi_point_in_range (u d : float) :
  nonneg u -> positive d -> in_range (rsi_point u d).
Proof.
  intros Hu Hd. unfold rsi_point.
  destruct d as [| | |q]; cbn in Hd; try contradiction.
  destruct u as [| |a|p]; cbn in Hu; try contradiction.
  - fsimpl. assert (S : Qltb q 0 = false) by (apply Qltb_ge, Qlt_le_weak, Hd).
    rewrite S. destruct a; cbn; split; reflexivity.
  - assert (Hpq : 0 < p / q).
    { apply Qlt_shift_div_l; [assumption | now rewrite Qmult_0_l]. }
    cbn [fdiv].
    destruct (of_Q_pos _ Hpq) as [E1 P1]. rewrite E1.
    change (of_Z 1) with (Num 1). cbn [fadd].
    assert (H1 : 0 < 1 + Qred (p / q)) by lra.
    destruct (of_Q_pos _ H1) as [E2 P2]. rewrite E2.
    change (of_Z 100) with (Num 100). cbn [fdiv].
    set (t := Qred (1 + Qred (p / q))) in *.
    assert (Ht : 1 < t) by (unfold t; rewrite Qred_correct; lra).
    assert (H2 : 0 < 100 / t).
    { apply Qlt_shift_div_l; [lra | lra]. }
    assert (H3 : 100 / t < 100).
    { apply Qlt_shift_div_r; [lra | lra]. }
    destruct (of_Q_pos _ H2) as [E3 P3]. rewrite E3.
    unfold fsub. cbn [fneg fadd].
    assert (H4 : 0 < 100 + Qred (- Qred (100 / t))).
    { rewrite !Qred_correct. lra. }
    destruct (of_Q_pos _ H4) as [E4 P4]. rewrite E4.
    unfold in_range, fle, fleb. fsimpl.
    split.
    + apply Qle_bool_iff. apply Qlt_le_weak. exact P4.
    + apply Qle_bool_iff. rewrite !Qred_correct.
      change (inject_Z 100) with 100.
      assert (0 < 100 / t) by exact H2. lra.
Qed.

Lemma rsi_loop_fuses (alpha : float) (s : Series float) :
  forall prev su sd,
    smap (fun x => fsub (of_Z 100) (fdiv (of_Z 100) (fadd (of_Z 1) x)))
      (szip fdiv
         (ewm_loop alpha su (smap clip_lower0 (szip fsub s (shift_from prev s))))
         (ewm_loop alpha sd
            (smap fneg (smap clip_upper0 (szip fsub s (shift_from prev s))))))
    = rsi_loop alpha prev su sd s.
Proof.
  induction s as [|[i x] s IH]; intros prev su sd; [reflexivity|].
  cbn [shift_from szip smap map ewm_loop fst snd rsi_loop].
  unfold smap in IH. rewrite IH. reflexivity.
Qed.

Lemma fsub_nan_r (x : float) : fsub x NaN = NaN.
Proof. destruct x; reflexivity. Qed.

Lemma rsi_unfold (series : Series Cell) (period : Z) :
  rsi series period =
  match astype_float (dropna series) with
  | [] => []
  | (i, x) :: s' =>
      (i, NaN) :: rsi_loop (fdiv (of_Z 1) (of_Z period)) x (NaN, of_Z 1) (NaN, of_Z 1) s'
  end.
Proof.
  unfold rsi. destruct (astype_float (dropna series)) as [|[i x] s']; [reflexivity|].
  unfold diff, shift1, ewm_mean.
  cbn [shift_from szip smap map fst snd].
  rewrite fsub_nan_r. cbn [clip_lower0 clip_upper0 isnan fneg fdiv].
  f_equal. apply rsi_loop_fuses.
Qed.

Lemma ewm_step_ok (w c : float) :
  okst w -> nonneg c ->
  exists w', ewm_step alpha14 (w, of_Z 1) c = (w', of_Z 1)
             /\ nonneg w' /\ (positive w' <-> positive w \/ positive c).
Proof.
  intros [-> | Hw] Hc.
  - exists c. split; [|split; [assumption | cbn; tauto]].
    destruct c; cbn in Hc; try contradiction; reflexivity.
  - apply ewm_step_nonneg; assumption.
Qed.

Lemma fsub_of_Q (x p : Q) :
  (x - p == 0 /\ fsub (of_Q x) (of_Q p) = Zero false)
  \/ (~ x - p == 0 /\ exists q, fsub (of_Q x) (of_Q p) = Num q /\ q == x - p).
Proof.
  unfold of_Q.
  destruct (Qeq_bool x 0) eqn:Ex, (Qeq_bool p 0) eqn:Ep.
  - apply Qeq_bool_iff in Ex, Ep. left. split; [lra | reflexivity].
  - apply Qeq_bool_iff in Ex. apply Qeq_bool_false_iff in Ep.
    right. split; [lra|]. eexists. split; [reflexivity|].
    rewrite !Qred_correct. lra.
  - apply Qeq_bool_iff in Ep. apply Qeq_bool_false_iff in Ex.
    right. split; [lra|]. eexists. split; [reflexivity|].
    rewrite !Qred_correct. lra.
  - unfold fsub. cbn [fneg fadd]. unfold of_Q.
    destruct (Qeq_bool (Qred x + Qred (- Qred p)) 0) eqn:E.
    + apply Qeq_bool_iff in E. rewrite !Qred_correct in E.
      left. split; [lra | reflexivity].
    + apply Qeq_bool_false_iff in E. rewrite !Qred_correct in E.
      right. split; [lra|]. eexists. split; [reflexivity|].
      rewrite !Qred_correct. lra.
Qed.

Lemma clip_lower0_Num (q : Q) :
  clip_lower0 (Num q) = if Qle_bool 0 q then Num q else Zero false.
Proof. reflexivity. Qed.

Lemma clip_upper0_Num (q : Q) :
  clip_upper0 (Num q) = if Qle_bool q 0 then Num q else Zero false.
Proof. reflexivity. Qed.

Lemma delta_up_down (x p : Q) :
  let delta := fsub (of_Q x) (of_Q p) in
  nonneg (clip_lower0 delta) /\ nonneg (fneg (clip_upper0 delta))
  /\ (positive (clip_lower0 delta) <-> p < x)
  /\ (positive (fneg (clip_upper0 delta)) <-> x < p).
Proof.
  intro delta. subst delta.
  destruct (fsub_of_Q x p) as [[E ->] | [NE [q [-> Eq]]]].
  - cbn. repeat split; auto; try contradiction; intro H; lra.
  - rewrite clip_lower0_Num, clip_upper0_Num.
    destruct (Qle_bool 0 q) eqn:L0, (Qle_bool q 0) eqn:L1; fsimpl.
    + apply Qle_bool_iff in L0, L1. exfalso. apply NE. lra.
    + apply Qle_bool_iff in L0.
      assert (~ q <= 0) by (intro HH; apply Qle_bool_iff in HH; congruence).
      repeat split; auto; try lra; try contradiction.
    + apply Qle_bool_iff in L1.
      assert (~ 0 <= q) by (intro HH; apply Qle_bool_iff in HH; congruence).
      rewrite !Qred_correct.
      repeat split; auto; try lra; try contradiction.
    + assert (~ q <= 0) by (intro HH; apply Qle_bool_iff in HH; congruence).
      assert (~ 0 <= q) by (intro HH; apply Qle_bool_iff in HH; congruence).
      lra.
Qed.

Lemma astype_dropna (series : Series Cell) :
  astype_float (dropna series) = floats (present series).
Proof.
  unfold astype_float, dropna, floats, present.
  induction series as [|[i [q|]] s IH]; cbn; [reflexivity | | assumption].
  f_equal. exact IH.
Qed.

Lemma in_range_100 : in_range (of_Z 100).
Proof. split; reflexivity. Qed.

Lemma rsi_point_cases (u d : float) :
  nonneg u -> nonneg d ->
  (positive u \/ positive d -> in_range (rsi_point u d))
  /\ (~ positive u -> ~ positive d -> rsi_point u d = NaN).
Proof.
  intros Hu Hd. split.
  - intros H. destruct (nonneg_cases d Hd) as [[b ->] | Pd].
    + destruct H as [Pu | []]. rewrite rsi_point_saturates by assumption.
      apply in_range_100.
    + apply rsi_point_in_range; assumption.
  - intros Nu Nd.
    destruct (nonneg_cases u Hu) as [[a ->] | ?]; [|contradiction].
    destruct (nonneg_cases d Hd) as [[b ->] | ?]; [|contradiction].
    reflexivity.
Qed.

Lemma rsi_loop_inv (ps : list (Z * Q)) :
  forall (p : Q) (wu wd : float) (k : nat) (v : float),
    okst wu -> okst wd ->
    nth_error (values (rsi_loop alpha14 (of_Q p) (wu, of_Z 1) (wd, of_Z 1) (floats ps))) k
    = Some v ->
    (positive wu \/ positive wd
     \/ ~ Forall (fun y => y == p) (firstn (S k) (map snd ps)) -> in_range v)
    /\ (~ positive wu -> ~ positive wd ->
        Forall (fun y => y == p) (firstn (S k) (map snd ps)) -> v = NaN).
Proof.
  induction ps as [|[i x] ps IH]; intros p wu wd k v Hu Hd Hk.
  - destruct k; discriminate.
  - cbn [floats map fst snd rsi_loop] in Hk.
    destruct (delta_up_down x p) as [Nu [Nd [Pu Pd]]].
    destruct (ewm_step_ok wu _ Hu Nu) as [wu' [Eu [Nu' Pu']]].
    destruct (ewm_step_ok wd _ Hd Nd) as [wd' [Ed [Nd' Pd']]].
    rewrite Eu, Ed in Hk. cbn [fst values map snd] in Hk.
    destruct k as [|k].
    + cbn in Hk. injection Hk as <-.
      destruct (rsi_point_cases wu' wd' Nu' Nd') as [R1 R2].
      cbn [firstn map snd]. split.
      * intros H. apply R1.
        destruct H as [H | [H | H]]; [tauto | tauto |].
        destruct (Q_dec x p) as [[L | G] | E].
        -- right. tauto.
        -- left. tauto.
        -- exfalso. apply H. constructor; [exact E | constructor].
      * intros Xu Xd F. inversion F as [|? ? E _]; subst.
        apply R2; intro H.
        -- apply Pu' in H. destruct H as [H | H]; [tauto|].
           apply Pu in H. rewrite E in H. apply (Qlt_irrefl _ H).
        -- apply Pd' in H. destruct H as [H | H]; [tauto|].
           apply Pd in H. rewrite E in H. apply (Qlt_irrefl _ H).
    + cbn [nth_error] in Hk.
      fold (values (rsi_loop alpha14 (of_Q x) (wu', of_Z 1) (wd', of_Z 1) (floats ps))) in Hk.
      destruct (IH x wu' wd' k v (or_intror Nu') (or_intror Nd') Hk) as [I1 I2].
      change (firstn (S (S k)) (map snd ((i, x) :: ps)))
        with (x :: firstn (S k) (map snd ps)).
      split.
      * intros H. apply I1.
        destruct H as [H | [H | H]]; [tauto | tauto |].
        destruct (Q_dec x p) as [[L | G] | E].
        -- right. left. tauto.
        -- left. tauto.
        -- right. right. intro F. apply H. constructor; [exact E|].
           eapply Forall_impl; [|exact F]. cbn. intros y Hy. rewrite Hy. exact E.
      * intros Xu Xd F. inversion F as [|? ? E F']; subst.
        apply I2.
        -- intro H. apply Pu' in H. destruct H as [H | H]; [tauto|].
           apply Pu in H. rewrite E in H. apply (Qlt_irrefl _ H).
        -- intro H. apply Pd' in H. destruct H as [H | H]; [tauto|].
           apply Pd in H. rewrite E in H. apply (Qlt_irrefl _ H).
        -- eapply Forall_impl; [|exact F']. cbn. intros y Hy. rewrite Hy.
           symmetry. exact E.
Qed.

(** ** The values of [rsi] *)

Lemma rsi_default_unfold (series : Series Cell) :
  rsi series RSI_PERIOD =
  match present series with
  | [] => []
  | (i, x) :: ps =>
      (i, NaN) :: rsi_loop alpha14 (of_Q x) (NaN, of_Z 1) (NaN, of_Z 1) (floats ps)
  end.
Proof.
  rewrite rsi_unfold, astype_dropna.
  destruct (present series) as [|[i x] ps]; reflexivity.
Qed.

Lemma rsi_loop_length (alpha : float) (s : Series float) :
  forall prev su sd, length (rsi_loop alpha prev su sd s) = length s.
Proof.
  induction s as [|[i x] s IH]; intros; cbn; [reflexivity|].
  now rewrite IH.
Qed.

Lemma rsi_loop_index (alpha : float) (s : Series float) :
  forall prev su sd, index (rsi_loop alpha prev su sd s) = index s.
Proof.
  induction s as [|[i x] s IH]; intros; cbn; [reflexivity|].
  unfold index in IH. now rewrite IH.
Qed.

Lemma not_positive_NaN : ~ positive NaN.
Proof. intros []. Qed.

Lemma all_equal_dec (p : Q) (l : list Q) :
  {Forall (fun y => y == p) l} + {~ Forall (fun y => y == p) l}.
Proof. apply Forall_dec. intro y. apply Qeq_dec. Qed.

(** Past the first value, [rsi] is NaN as long as the prices have not
    moved and in [[0, 100]] from the first move on. *)
Lemma rsi_tail_values (series : Series Cell) (k : nat) (v : float) :
  nth_error (values (rsi series RSI_PERIOD)) (S k) = Some v ->
  (~ Forall (fun y => y == hd 0 (prices series)) (firstn (S (S k)) (prices series))
   -> in_range v)
  /\ (Forall (fun y => y == hd 0 (prices series)) (firstn (S (S k)) (prices series))
      -> v = NaN).
Proof.
  rewrite rsi_default_unfold. unfold prices.
  destruct (present series) as [|[i x] ps]; [discriminate|].
  cbn [values map snd nth_error hd firstn]. intro Hk.
  fold (values (rsi_loop alpha14 (of_Q x) (NaN, of_Z 1) (NaN, of_Z 1) (floats ps))) in Hk.
  destruct (rsi_loop_inv ps x NaN NaN k v (or_introl eq_refl) (or_introl eq_refl) Hk)
    as [I1 I2].
  split.
  - intro H. apply I1. right. right. intro F. apply H.
    constructor; [reflexivity | exact F].
  - intro F. inversion F; subst.
    apply I2; auto using not_positive_NaN.
Qed.

Lemma not_in_range_NaN : ~ in_range NaN.
Proof. intros [H _]. discriminate H. Qed.

Lemma rsi_head_nan (series : Series Cell) (v : float) :
  nth_error (values (rsi series RSI_PERIOD)) 0 = Some v -> v = NaN.
Proof.
  rewrite rsi_default_unfold.
  destruct (present series) as [|[i x] ps]; [discriminate|].
  cbn. congruence.
Qed.

(** C4 (as amended). Every value [rsi] returns is NaN or lies in
    [[0, 100]]; the first value is NaN for every input that has a point,
    and a later value lies in [[0, 100]] as soon as the prices up to it
    are not all equal.  The output is as long as the cleaned input. *)
Theorem rsi_values_nan_or_bounded :
  forall series : Series Cell,
    length (values (rsi series RSI_PERIOD)) = length (prices series)
    /\ (forall v, In v (values (rsi series RSI_PERIOD)) -> v = NaN \/ in_range v)
    /\ (forall v, nth_error (values (rsi series RSI_PERIOD)) 0 = Some v -> v = NaN)
    /\ (forall k v,
          nth_error (values (rsi series RSI_PERIOD)) (S k) = Some v ->
          ~ Forall (fun y => y == hd 0 (prices series))
              (firstn (S (S k)) (prices series)) ->
          in_range v).
Proof.
  intro series.
  pose proof (rsi_head_nan series) as H0.
  split; [|split; [|split]].
  - rewrite rsi_default_unfold. unfold prices, values.
    destruct (present series) as [|[i x] ps]; [reflexivity|].
    cbn. rewrite !length_map, rsi_loop_length. unfold floats.
    now rewrite length_map.
  - intros v Hv. apply In_nth_error in Hv. destruct Hv as [[|k] Hk].
    + left. apply H0. exact Hk.
    + destruct (rsi_tail_values series k v Hk) as [I1 I2].
      destruct (all_equal_dec (hd 0 (prices series))
                  (firstn (S (S k)) (prices series))) as [F | F]; auto.
  - exact H0.
  - intros k v Hk. apply (rsi_tail_values series k v Hk).
Qed.

(** C4 (as stated) fails: a series of two points has a value that is not
    in [[0, 100]], its first. *)
Lemma rsi_two_points_has_nan :
  ~ (forall (series : Series Cell) (v : float),
        In v (values (rsi series RSI_PERIOD)) ->
        in_range v \/ (length (prices series) < 2)%nat).
Proof.
  intro H.
  destruct (H (Sample.closes_on_trading_days [1; 2]) NaN) as [R | L].
  - left. reflexivity.
  - exact (not_in_range_NaN R).
  - cbn in L. lia.
Qed.

(** ** The empty selection *)

Lemma analyze_prices_nothing_selected
  (ln sqrtQ : Q -> Q) (yf : Provider) (sort_rows : list Candidate -> list Candidate)
  (price_map : dict DataFrame) :
  select yf price_map (vol_list ln sqrtQ price_map) [] = [] ->
  analyze_prices ln sqrtQ yf sort_rows price_map = Raise (KeyError "volatility").
Proof.
  intro H. unfold analyze_prices. rewrite H. reflexivity.
Qed.

(** C1. With the provider down, [fetch_all] returns an empty map, no
    ticker is selected, and [analyze_universe] raises [KeyError] out of
    [sort_values] instead of returning an empty frame; the script does not
    catch it. *)
Theorem analyze_universe_raises_on_outage :
  forall (ln sqrtQ : Q -> Q) (sort_rows : list Candidate -> list Candidate),
    fst (fetch_all Sample.outage NIFTY50) = []
    /\ analyze_universe ln sqrtQ Sample.outage sort_rows
       = Raise (KeyError "volatility")
    /\ run_app ln sqrtQ Sample.outage sort_rows = Uncaught (KeyError "volatility").
Proof.
  intros. repeat split; reflexivity.
Qed.

(** ** Alignment of [rsi] and rounding of its last value *)

Lemma index_smap {A B} (f : A -> B) (s : Series A) : index (smap f s) = index s.
Proof.
  unfold index, smap. rewrite map_map. reflexivity.
Qed.

Lemma index_astype (s : Series Cell) : index (astype_float s) = index s.
Proof.
  unfold index, astype_float. rewrite map_map. reflexivity.
Qed.

Lemma length_floats (ps : list (Z * Q)) : length (floats ps) = length ps.
Proof. apply length_map. Qed.

Lemma round_half_even_near (q : Q) :
  Qabs (inject_Z (round_half_even q) - q) <= 1 # 2.
Proof.
  unfold round_half_even.
  pose proof (Qfloor_le q) as L. pose proof (Qlt_floor q) as U.
  rewrite inject_Z_plus in U. change (inject_Z 1) with 1 in U.
  set (f := Qfloor q) in *.
  apply Qabs_Qle_condition.
  destruct (Qcompare (q - inject_Z f) (1 # 2)) eqn:C.
  - apply Qeq_alt in C.
    destruct (Z.even f); [|rewrite inject_Z_plus; change (inject_Z 1) with 1];
      split; lra.
  - apply Qlt_alt in C. split; lra.
  - apply Qgt_alt in C. rewrite inject_Z_plus. change (inject_Z 1) with 1.
    split; lra.
Qed.

Lemma round2_two_decimals (x : float) : two_decimals (round2 x).
Proof.
  destruct x as [| | |q]; cbn [round2 two_decimals]; auto.
  destruct (round_half_even (q * 100) =? 0)%Z; cbn [two_decimals]; auto.
  exists (round_half_even (q * 100)). apply Qred_correct.
Qed.

Lemma round2_near (q : Q) : Qabs (fval (round2 (Num q)) - q) <= 1 # 200.
Proof.
  pose proof (round_half_even_near (q * 100)) as H.
  apply Qabs_Qle_condition in H. apply Qabs_Qle_condition.
  unfold round2.
  destruct (round_half_even (q * 100) =? 0)%Z eqn:E.
  - apply Z.eqb_eq in E. rewrite E in H. change (inject_Z 0) with 0 in H.
    cbn [fval]. split; lra.
  - cbn [fval]. rewrite Qred_correct.
    set (z := inject_Z (round_half_even (q * 100))) in *.
    unfold Qdiv. change (/ 100) with (1 # 100). split; lra.
Qed.

(** C9 (as amended). The series [rsi] returns carries the labels of the
    cleaned input and has as many points as it: no point is dropped.  Its
    leading point is NaN, since it comes from a difference, and when the
    first two prices differ every later point is a value in [[0, 100]],
    so that exactly one leading point is undefined.  The selector takes
    the last value of the daily and of the weekly series and stores each
    rounded to two decimals: a multiple of 1/100 within 1/200 of the
    value. *)
Theorem rsi_aligned_first_nan_and_rounded :
  (forall series : Series Cell,
      index (rsi series RSI_PERIOD) = index (dropna series)
      /\ length (rsi series RSI_PERIOD) = length (dropna series)
      /\ (forall i c rest,
             dropna series = (i, c) :: rest ->
             exists tl, rsi series RSI_PERIOD = (i, NaN) :: tl
                        /\ length tl = length rest
                        /\ (forall p0 p1 more,
                               prices series = p0 :: p1 :: more -> ~ p1 == p0 ->
                               Forall in_range (values tl))))
  /\ (forall (yf : Provider) (price_map : dict DataFrame) (tk : string)
             (vol : float) (c : Candidate),
         candidate yf price_map tk vol = Some c ->
         let df := dict_get price_map tk empty_frame in
         exists d w,
           iloc_last (rsi (dropna (getitem df "Close")) RSI_PERIOD) = Ok d
           /\ iloc_last (rsi (dropna (getitem (resample_W_last df) "Close"))
                           RSI_PERIOD) = Ok w
           /\ daily_rsi c = round2 d /\ weekly_rsi c = round2 w)
  /\ (forall x : float, two_decimals (round2 x))
  /\ (forall q : Q, Qabs (fval (round2 (Num q)) - q) <= 1 # 200).
Proof.
  split; [|split; [|split]].
  - intro series.
    assert (I : index (rsi series RSI_PERIOD) = index (dropna series)).
    { rewrite rsi_unfold, <- index_astype.
      destruct (astype_float (dropna series)) as [|[i x] s']; [reflexivity|].
      cbn. f_equal. apply rsi_loop_index. }
    split; [exact I|]. split.
    + rewrite <- (length_map fst (rsi series RSI_PERIOD)), <- (length_map fst (dropna series)).
      exact (f_equal (@length Z) I).
    + intros i c rest E.
      assert (T : exists tl, rsi series RSI_PERIOD = (i, NaN) :: tl
                             /\ length tl = length rest).
      { rewrite rsi_unfold, E.
        destruct c as [q|]; cbn [astype_float map fst snd];
          (eexists; split; [reflexivity|]);
          rewrite rsi_loop_length; apply length_map. }
      destruct T as [tl [R L]]. exists tl. split; [exact R|]. split; [exact L|].
      intros p0 p1 more P N. apply Forall_forall. intros v Hv.
      apply In_nth_error in Hv. destruct Hv as [k Hk].
      assert (Hk' : nth_error (values (rsi series RSI_PERIOD)) (S k) = Some v)
        by (rewrite R; exact Hk).
      apply (rsi_tail_values series k v Hk').
      rewrite P. cbn [hd firstn]. intro F.
      inversion F as [|? ? _ F']; subst. inversion F' as [|? ? E1 _]; subst.
      exact (N E1).
  - intros yf price_map tk vol c H df. subst df. unfold candidate in H.
    destruct (negb (usable (dict_get price_map tk empty_frame))); [discriminate|].
    destruct (length _ <? 40)%nat; [discriminate|].
    destruct (length _ <? 8)%nat; [discriminate|].
    destruct (iloc_last (rsi (dropna (getitem (dict_get price_map tk empty_frame)
                                        "Close")) RSI_PERIOD)) as [d|];
      [|discriminate].
    destruct (iloc_last (rsi (dropna (getitem (resample_W_last
                                                 (dict_get price_map tk empty_frame))
                                        "Close")) RSI_PERIOD)) as [w|];
      [|discriminate].
    injection H as <-. exists d, w. cbn. auto.
  - exact round2_two_decimals.
  - exact round2_near.
Qed.

(** C9 (as stated) fails: on the closes 5, 5, 6 the output has the three
    points of the input, not one fewer, and two of them are undefined,
    which leaves one value, not two. *)
Lemma rsi_keeps_every_point_of_5_5_6 :
  values (rsi (Sample.closes_on_trading_days [5%Q; 5%Q; 6%Q]) RSI_PERIOD)
  = [NaN; NaN; of_Z 100]
  /\ length (rsi (Sample.closes_on_trading_days [5%Q; 5%Q; 6%Q]) RSI_PERIOD)
     <> (length (dropna (Sample.closes_on_trading_days [5%Q; 5%Q; 6%Q])) - 1)%nat
  /\ length (dropna_float (rsi (Sample.closes_on_trading_days [5%Q; 5%Q; 6%Q]) RSI_PERIOD))
     <> (length (dropna (Sample.closes_on_trading_days [5%Q; 5%Q; 6%Q])) - 1)%nat.
Proof.
  split; [vm_compute; reflexivity|].
  split; vm_compute; intro H; discriminate H.
Qed.

(** ** Annualised volatility *)

Lemma values_floats (ps : list (Z * Q)) : values (floats ps) = map of_Q (map snd ps).
Proof. unfold values, floats. rewrite !map_map. reflexivity. Qed.

Lemma values_smap {A B} (f : A -> B) (s : Series A) :
  values (smap f s) = map f (values s).
Proof. unfold values, smap. rewrite !map_map. reflexivity. Qed.

Lemma values_dropna_float (s : Series float) :
  values (dropna_float s) = filter (fun r => negb (isnan r)) (values s).
Proof.
  unfold values, dropna_float.
  induction s as [|[i x] s IH]; [reflexivity|].
  cbn. destruct (isnan x); cbn; [exact IH | now rewrite IH].
Qed.

Lemma values_lastn {A} (n : nat) (s : Series A) :
  values (lastn n s) = lastn n (values s).
Proof.
  unfold values, lastn. rewrite length_map. symmetry. apply skipn_map.
Qed.

Lemma values_ratios (s : Series float) :
  forall prev, values (szip fdiv s (shift_from prev s)) = ratios prev (values s).
Proof.
  induction s as [|[i x] s IH]; intro prev; [reflexivity|].
  cbn. f_equal. apply IH.
Qed.

Lemma ratios_pairs (l : list float) :
  forall x, map (fun pc => fdiv (snd pc) (fst pc)) (combine (x :: l) l) = ratios x l.
Proof.
  induction l as [|y l IH]; intro x; [reflexivity|].
  cbn. f_equal. apply IH.
Qed.

Lemma fdiv_nan_r (x : float) : fdiv x NaN = NaN.
Proof. destruct x; reflexivity. Qed.

(** The returns the code keeps are the valid ones among the log returns
    of the successive pairs: the shift puts NaN in front, [dropna] takes
    it away again. *)
Lemma code_returns (ln : Q -> Q) (s : Series float) :
  values (dropna_float (smap (np_log ln) (szip fdiv s (shift1 s))))
  = filter (fun r => negb (isnan r)) (log_returns ln (values s)).
Proof.
  rewrite values_dropna_float, values_smap. unfold shift1. rewrite values_ratios.
  unfold log_returns.
  destruct (values s) as [|x l]; [reflexivity|].
  cbn [ratios map tl]. rewrite fdiv_nan_r. cbn [np_log isnan negb filter].
  rewrite <- ratios_pairs, map_map. reflexivity.
Qed.

Lemma std_is_population_std (sqrtQ : Q -> Q) (l : list float) :
  std_ddof0 sqrtQ l = population_std sqrtQ l.
Proof. reflexivity. Qed.

Lemma lastn_all {A} (n : nat) (l : list A) : (length l <= n)%nat -> lastn n l = l.
Proof.
  intro H. unfold lastn. replace (length l - n)%nat with O by lia. reflexivity.
Qed.

Lemma annual_vol_meets_spec (ln sqrtQ : Q -> Q) (close_series : Series Cell) :
  annual_vol ln sqrtQ close_series = annual_vol_spec ln sqrtQ close_series.
Proof.
  unfold annual_vol, annual_vol_spec.
  rewrite astype_dropna. unfold prices.
  rewrite length_floats, !length_map.
  destruct (length (present close_series) <? 10)%nat; [reflexivity|].
  set (s := if (VOL_DAYS <=? length (present close_series))%nat
            then lastn VOL_DAYS (floats (present close_series))
            else floats (present close_series)).
  set (w := if (252 <? length (present close_series))%nat
            then lastn 252 (map of_Q (map snd (present close_series)))
            else map of_Q (map snd (present close_series))).
  assert (E : values s = w).
  { subst s w. unfold VOL_DAYS.
    destruct (252 <=? length (present close_series))%nat eqn:A,
             (252 <? length (present close_series))%nat eqn:B.
    - rewrite values_lastn, values_floats. reflexivity.
    - apply Nat.leb_le in A. apply Nat.ltb_ge in B.
      rewrite values_lastn, values_floats. apply lastn_all.
      rewrite !length_map. lia.
    - apply Nat.leb_gt in A. apply Nat.ltb_lt in B. lia.
    - apply values_floats. }
  assert (L : length (dropna_float (smap (np_log ln) (szip fdiv s (shift1 s))))
              = length (filter (fun r => negb (isnan r)) (log_returns ln w))).
  { rewrite <- E, <- code_returns. unfold values. now rewrite length_map. }
  rewrite L, code_returns, E. reflexivity.
Qed.

Lemma of_Q_compat (p q : Q) : p == q -> of_Q p = of_Q q.
Proof.
  intro E. unfold of_Q.
  assert (B : Qeq_bool p 0 = Qeq_bool q 0).
  { destruct (Qeq_bool q 0) eqn:Eq.
    - apply Qeq_bool_iff. apply Qeq_bool_iff in Eq. lra.
    - apply Qeq_bool_false_iff. apply Qeq_bool_false_iff in Eq. lra. }
  rewrite B, (Qred_complete p q E). reflexivity.
Qed.

Lemma map_of_Q_constant (c : Q) (l : list Q) :
  Forall (fun p => p == c) l -> map of_Q l = repeat (of_Q c) (length l).
Proof.
  induction 1 as [|p l E _ IH]; [reflexivity|].
  cbn. rewrite IH, (of_Q_compat p c E). reflexivity.
Qed.

Lemma lastn_repeat {A} (x : A) (n m : nat) :
  lastn n (repeat x m) = repeat x (Nat.min n m).
Proof.
  unfold lastn. rewrite repeat_length.
  replace m with ((m - n) + Nat.min n m)%nat at 2 by lia.
  rewrite repeat_app, skipn_app, repeat_length, Nat.sub_diag.
  rewrite skipn_all2 by (rewrite repeat_length; lia). reflexivity.
Qed.

Lemma fdiv_self (c : Q) : ~ c == 0 -> fdiv (of_Q c) (of_Q c) = Num 1.
Proof.
  intro H. unfold of_Q.
  assert (B : Qeq_bool c 0 = false) by (apply Qeq_bool_false_iff; exact H).
  rewrite B. cbn [fdiv].
  assert (E : Qred c / Qred c == 1).
  { rewrite Qred_correct. field. exact H. }
  rewrite (of_Q_compat _ _ E). reflexivity.
Qed.

Lemma log_returns_constant (ln : Q -> Q) (c : Q) (m : nat) :
  ln 1 == 0 -> ~ c == 0 ->
  log_returns ln (repeat (of_Q c) (S m)) = repeat (Zero false) m.
Proof.
  intros H1 Hc. unfold log_returns. cbn [repeat tl].
  induction m as [|m IH]; [reflexivity|].
  cbn [repeat combine map fst snd]. rewrite fdiv_self by exact Hc.
  cbn [np_log]. change (Qltb 1 0) with false. cbv iota.
  rewrite (of_Q_compat _ _ H1). f_equal. exact IH.
Qed.

Lemma filter_valid_zeros (m : nat) :
  filter (fun r => negb (isnan r)) (repeat (Zero false) m) = repeat (Zero false) m.
Proof. induction m as [|m IH]; [reflexivity|]. cbn. now rewrite IH. Qed.

Lemma fold_fadd_zeros (m : nat) :
  fold_left fadd (repeat (Zero false) m) (Zero false) = Zero false.
Proof. induction m as [|m IH]; [reflexivity|]. cbn. exact IH. Qed.

Lemma of_Z_count (m : nat) : positive (of_Z (Z.of_nat (S m))).
Proof.
  unfold of_Z. apply of_Q_positive.
  change 0 with (inject_Z 0). rewrite <- Zlt_Qlt. lia.
Qed.

Lemma population_std_zeros (sqrtQ : Q -> Q) (m : nat) :
  population_std sqrtQ (repeat (Zero false) (S m)) = Zero false.
Proof.
  unfold population_std. rewrite repeat_length.
  pose proof (of_Z_count m) as P.
  destruct (of_Z (Z.of_nat (S m))) as [| | |n]; cbn in P; try contradiction.
  assert (S0 : Qltb n 0 = false) by (apply Qltb_ge, Qlt_le_weak, P).
  cbn [repeat fsum]. rewrite fold_fadd_zeros.
  cbn [fdiv fsign]. rewrite S0. cbn [xorb].
  assert (E : map (fun x => fmul (fsub (Zero false) x) (fsub (Zero false) x))
                (Zero false :: repeat (Zero false) m)
              = repeat (Zero false) (S m)).
  { change (Zero false :: repeat (Zero false) m) with (repeat (Zero false) (S m)).
    induction (S m) as [|k IH]; [reflexivity|]. cbn [repeat map]. now rewrite IH. }
  rewrite E. cbn [repeat fsum]. rewrite fold_fadd_zeros.
  cbn [fdiv fsign]. rewrite S0. reflexivity.
Qed.

Lemma fmul_zero_sqrt (sqrtQ : Q -> Q) :
  exists sgn, fmul (Zero false) (np_sqrt sqrtQ (of_Z 252)) = Zero sgn.
Proof.
  change (of_Z 252) with (Num 252). cbn [np_sqrt]. change (Qltb 252 0) with false.
  cbv iota. unfold of_Q. destruct (Qeq_bool (sqrtQ 252) 0); cbn; eauto.
Qed.

Lemma annual_vol_constant (ln sqrtQ : Q -> Q) (s : Series Cell) (c : Q) :
  ln 1 == 0 -> ~ c == 0 -> (10 <= length (prices s))%nat ->
  Forall (fun p => p == c) (prices s) ->
  exists sgn, annual_vol ln sqrtQ s = Zero sgn.
Proof.
  intros H1 Hc Hn Hall.
  rewrite annual_vol_meets_spec. unfold annual_vol_spec.
  rewrite (map_of_Q_constant c _ Hall), repeat_length.
  set (n := length (prices s)) in *.
  destruct (n <? 10)%nat eqn:A; [apply Nat.ltb_lt in A; lia|].
  assert (W : exists m, (8 <= m)%nat /\
                (if (252 <? n)%nat then lastn 252 (repeat (of_Q c) n)
                 else repeat (of_Q c) n) = repeat (of_Q c) (S (S m))).
  { destruct (252 <? n)%nat eqn:B.
    - apply Nat.ltb_lt in B. rewrite lastn_repeat.
      exists 250%nat. split; [lia|]. f_equal. lia.
    - exists (n - 2)%nat. split; [lia|]. f_equal. lia. }
  destruct W as [m [Hm ->]].
  rewrite (log_returns_constant ln c (S m) H1 Hc), filter_valid_zeros, repeat_length.
  destruct (S m <? 2)%nat eqn:B; [apply Nat.ltb_lt in B; lia|].
  rewrite population_std_zeros. apply fmul_zero_sqrt.
Qed.

Lemma annual_vol_short (ln sqrtQ : Q -> Q) (s : Series Cell) :
  (length (prices s) < 10)%nat -> annual_vol ln sqrtQ s = NaN.
Proof.
  intro H. rewrite annual_vol_meets_spec. unfold annual_vol_spec.
  rewrite length_map. apply Nat.ltb_lt in H. rewrite H. reflexivity.
Qed.

(** C3. [annual_vol] drops the missing values, is undefined below 10
    observations, keeps the most recent 252 observations, takes the log
    returns of successive prices (the shifted copy has no value for the
    first, which is dropped), is undefined below 2 valid returns and
    otherwise returns their population standard deviation (divisor [N])
    times the square root of 252.  A constant series of at least 10
    prices has volatility exactly zero.  [np.log] is exact at 1. *)
Theorem annual_vol_contract (ln sqrtQ : Q -> Q) (ln_one : ln 1 == 0) :
  (forall s : Series Cell, annual_vol ln sqrtQ s = annual_vol_spec ln sqrtQ s)
  /\ (forall s : Series Cell,
         (length (prices s) < 10)%nat -> annual_vol ln sqrtQ s = NaN)
  /\ population_std sqrtQ [of_Q 1; of_Q 3] = np_sqrt sqrtQ (of_Q 1)
  /\ (forall (s : Series Cell) (c : Q),
         ~ c == 0 -> (10 <= length (prices s))%nat ->
         Forall (fun p => p == c) (prices s) ->
         exists sgn, annual_vol ln sqrtQ s = Zero sgn).
Proof.
  split; [|split; [|split]].
  - apply annual_vol_meets_spec.
  - apply annual_vol_short.
  - reflexivity.
  - intros s c. apply annual_vol_constant. exact ln_one.
Qed.

Lemma annual_vol_contract_witness :
  Sample.ln 1 == 0
  /\ exists sgn,
       annual_vol Sample.ln Sample.sqrtQ
         (Sample.closes_on_trading_days (Sample.flat 12 50)) = Zero sgn.
Proof.
  assert (H : Sample.ln 1 == 0) by reflexivity.
  split; [exact H|].
  destruct (annual_vol_contract Sample.ln Sample.sqrtQ H) as [_ [_ [_ C]]].
  apply (C _ 50).
  - discriminate.
  - cbn. lia.
  - repeat constructor.
Defined.

(** ** Data fetch *)

Lemma assoc_dict_set {A} (d : dict A) (k t : string) (v : A) :
  assoc t (dict_set d k v) = if String.eqb k t then Some v else assoc t d.
Proof.
  induction d as [|[k' v'] d IH]; cbn.
  - destruct (String.eqb k t); reflexivity.
  - destruct (String.eqb k' k) eqn:E; cbn.
    + apply String.eqb_eq in E. subst k'.
      destruct (String.eqb k t); reflexivity.
    + destruct (String.eqb k' t) eqn:E'.
      * apply String.eqb_eq in E'. subst k'.
        rewrite String.eqb_sym, E. reflexivity.
      * exact IH.
Qed.

Lemma keys_dict_set {A} (d : dict A) (k : string) (v : A) :
  keys (dict_set d k v) = if existsb (String.eqb k) (keys d) then keys d
                          else keys d ++ [k].
Proof.
  unfold keys. induction d as [|[k' v'] d IH]; cbn; [reflexivity|].
  rewrite (String.eqb_sym k k').
  destruct (String.eqb k' k) eqn:E; cbn.
  - apply String.eqb_eq in E. now subst.
  - rewrite IH. destruct (existsb (String.eqb k) (map fst d)); reflexivity.
Qed.

Lemma NoDup_dict_set {A} (d : dict A) (k : string) (v : A) :
  NoDup (keys d) -> NoDup (keys (dict_set d k v)).
Proof.
  intro H. rewrite keys_dict_set.
  destruct (existsb (String.eqb k) (keys d)) eqn:E; [exact H|].
  apply NoDup_app; [exact H | repeat constructor; intros [] |].
  intros x Hx [Ex | []]. subst x.
  assert (existsb (String.eqb k) (keys d) = true); [|congruence].
  apply existsb_exists. exists k. split; [exact Hx | apply String.eqb_refl].
Qed.

Lemma single_downloads_app (t : string) (l1 l2 : list event) :
  single_downloads t (l1 ++ l2) = (single_downloads t l1 + single_downloads t l2)%nat.
Proof. unfold single_downloads. now rewrite filter_app, length_app. Qed.

Lemma fetch_ticker_downloads (yf : Provider) (raw : RawTable) (t u : string) :
  single_downloads t (snd (fetch_ticker yf raw u)) =
  match raw_getitem raw u with
  | Ok _ => O
  | Raise _ => if String.eqb u t then 1%nat else O
  end.
Proof.
  unfold fetch_ticker. destruct (raw_getitem raw u); [reflexivity|].
  destruct (download_one yf u); cbn; destruct (String.eqb u t); reflexivity.
Qed.

Lemma fetch_loop_spec (yf : Provider) (raw : RawTable) (t : string)
  (tickers : list string) :
  forall out,
    NoDup tickers -> NoDup (keys out) ->
    let r := fetch_loop yf raw tickers out in
    NoDup (keys (fst r))
    /\ (In t tickers ->
        assoc t (fst r) = Some (fst (fetch_ticker yf raw t))
        /\ single_downloads t (snd r) =
           match raw_getitem raw t with Ok _ => O | Raise _ => 1%nat end)
    /\ (~ In t tickers ->
        assoc t (fst r) = assoc t out /\ single_downloads t (snd r) = O).
Proof.
  induction tickers as [|u rest IH]; intros out ND NDo.
  - cbn. split; [exact NDo|]. split; [intros [] | auto].
  - inversion ND as [|? ? Hu NDr]; subst.
    cbn [fetch_loop].
    destruct (fetch_ticker yf raw u) as [df ev] eqn:F.
    specialize (IH (dict_set out u df) NDr (NoDup_dict_set out u df NDo)).
    destruct (fetch_loop yf raw rest (dict_set out u df)) as [out' ev'] eqn:L.
    cbn [fst snd] in *. destruct IH as [I0 [I1 I2]].
    pose proof (fetch_ticker_downloads yf raw t u) as D. rewrite F in D. cbn [snd] in D.
    split; [exact I0|]. split.
    + intros [-> | Hin].
      * destruct (I2 Hu) as [A B]. rewrite A, assoc_dict_set, String.eqb_refl.
        rewrite F. cbn [fst]. split; [reflexivity|].
        rewrite single_downloads_app, B, D, String.eqb_refl.
        destruct (raw_getitem raw t); reflexivity.
      * destruct (I1 Hin) as [A B]. split; [exact A|].
        rewrite single_downloads_app, B, D.
        assert (N : String.eqb u t = false).
        { apply String.eqb_neq. intros ->. contradiction. }
        rewrite N. destruct (raw_getitem raw u); reflexivity.
    + intros Hn.
      assert (N : String.eqb u t = false).
      { apply String.eqb_neq. intros ->. apply Hn. now left. }
      destruct (I2 (fun H => Hn (or_intror H))) as [A B].
      rewrite A, assoc_dict_set, N. split; [reflexivity|].
      rewrite single_downloads_app, B, D, N.
      destruct (raw_getitem raw u); reflexivity.
Qed.

Lemma fetch_all_keys (yf : Provider) (tickers : list string) :
  NoDup tickers -> NoDup (keys (fst (fetch_all yf tickers))).
Proof.
  intro ND. unfold fetch_all.
  destruct (download yf tickers) as [raw|e]; [|constructor].
  destruct tickers as [|t [|u rest]].
  - constructor.
  - cbn. repeat constructor. intros [].
  - pose proof (fetch_loop_spec yf raw t (t :: u :: rest) [] ND (NoDup_nil _)) as H.
    destruct (fetch_loop yf raw (t :: u :: rest) []) as [out ev].
    exact (proj1 H).
Qed.

Lemma assoc_app {A} (k : string) (l1 l2 : list (string * A)) :
  assoc k (l1 ++ l2) = match assoc k l1 with Some v => Some v | None => assoc k l2 end.
Proof.
  induction l1 as [|[k' v] l1 IH]; [reflexivity|].
  cbn. destruct (String.eqb k' k); [reflexivity | exact IH].
Qed.

Lemma assoc_not_in {A} (k : string) (l : list (string * A)) :
  ~ In k (keys l) -> assoc k l = None.
Proof.
  induction l as [|[k' v] l IH]; [reflexivity|].
  cbn. intro H. destruct (String.eqb k' k) eqn:E.
  - apply String.eqb_eq in E. subst. exfalso. apply H. now left.
  - apply IH. intro Hin. apply H. now right.
Qed.

Lemma usable_empty_frame : usable empty_frame = false.
Proof. reflexivity. Qed.

Lemma df_empty_unusable (df : DataFrame) : df_empty df = true -> usable df = false.
Proof. intro H. unfold usable. rewrite H. reflexivity. Qed.

(** A ticker whose frame is not usable could as well be absent from the
    price map: every lookup ends on the same [continue]. *)
Lemma candidate_skips_unusable (yf : Provider) (pm1 pm2 : dict DataFrame)
  (t : string) (df : DataFrame) :
  usable df = false -> NoDup (keys (pm1 ++ (t, df) :: pm2)) ->
  forall tk vol,
    candidate yf (pm1 ++ (t, df) :: pm2) tk vol = candidate yf (pm1 ++ pm2) tk vol.
Proof.
  intros U ND tk vol. unfold candidate, dict_get.
  rewrite !assoc_app. destruct (assoc tk pm1) as [v|]; [reflexivity|].
  cbn [assoc]. destruct (String.eqb t tk) eqn:E; [|reflexivity].
  apply String.eqb_eq in E. subst tk.
  unfold keys in ND. rewrite map_app in ND. apply NoDup_remove_2 in ND.
  rewrite (assoc_not_in t pm2).
  - rewrite U, usable_empty_frame. reflexivity.
  - intro H. apply ND. apply in_or_app. now right.
Qed.

Lemma select_ext (yf : Provider) (pm pm' : dict DataFrame) :
  (forall tk vol, candidate yf pm tk vol = candidate yf pm' tk vol) ->
  forall vl sel, select yf pm vl sel = select yf pm' vl sel.
Proof.
  intros H vl. induction vl as [|[tk vol] vl IH]; intro sel; [reflexivity|].
  cbn [select]. rewrite H.
  destruct (N_CARDS <=? length sel)%nat; [reflexivity|].
  destruct (candidate yf pm' tk vol); apply IH.
Qed.

Lemma vol_entries_skips_unusable (ln sqrtQ : Q -> Q) (pm1 pm2 : dict DataFrame)
  (t : string) (df : DataFrame) :
  usable df = false ->
  vol_entries ln sqrtQ (pm1 ++ (t, df) :: pm2) = vol_entries ln sqrtQ (pm1 ++ pm2).
Proof.
  intro U. unfold vol_entries. rewrite !flat_map_app. cbn [flat_map].
  rewrite U. reflexivity.
Qed.

Lemma analyze_prices_skips_unusable
  (ln sqrtQ : Q -> Q) (yf : Provider) (sort_rows : list Candidate -> list Candidate)
  (pm1 pm2 : dict DataFrame) (t : string) (df : DataFrame) :
  usable df = false -> NoDup (keys (pm1 ++ (t, df) :: pm2)) ->
  analyze_prices ln sqrtQ yf sort_rows (pm1 ++ (t, df) :: pm2)
  = analyze_prices ln sqrtQ yf sort_rows (pm1 ++ pm2).
Proof.
  intros U ND. unfold analyze_prices, vol_list.
  rewrite (vol_entries_skips_unusable ln sqrtQ pm1 pm2 t df U).
  rewrite (select_ext yf _ _ (candidate_skips_unusable yf pm1 pm2 t df U ND)).
  reflexivity.
Qed.

(** C8. In a batch of several tickers, a ticker whose table cannot be
    taken out of the batch result is downloaded alone, once; what that
    download returns is stored for it, and an empty frame when it fails
    too, [fetch_all] itself raising nothing.  A ticker whose table is in
    the batch is not downloaded again.  Downstream, an empty frame is
    passed over: the analysis gives what it gives without that ticker. *)
Theorem fetch_all_falls_back_once_then_empty :
  (forall (yf : Provider) (tickers : list string) (raw : RawTable) (t : string),
      download yf tickers = Ok raw -> length tickers <> 1%nat ->
      NoDup tickers -> In t tickers ->
      (forall e, raw_getitem raw t = Raise e ->
         single_downloads t (snd (fetch_all yf tickers)) = 1%nat
         /\ assoc t (fst (fetch_all yf tickers))
            = Some (match download_one yf t with
                    | Ok df2 => df2
                    | Raise _ => empty_frame
                    end))
      /\ (forall df, raw_getitem raw t = Ok df ->
            single_downloads t (snd (fetch_all yf tickers)) = O
            /\ assoc t (fst (fetch_all yf tickers)) = Some (dropna_all df)))
  /\ df_empty empty_frame = true
  /\ (forall (ln sqrtQ : Q -> Q) (yf : Provider)
             (sort_rows : list Candidate -> list Candidate)
             (pm1 pm2 : dict DataFrame) (t : string) (df : DataFrame),
         df_empty df = true -> NoDup (keys (pm1 ++ (t, df) :: pm2)) ->
         analyze_prices ln sqrtQ yf sort_rows (pm1 ++ (t, df) :: pm2)
         = analyze_prices ln sqrtQ yf sort_rows (pm1 ++ pm2)).
Proof.
  split; [|split; [reflexivity|]].
  - intros yf tickers raw t D L ND Hin.
    pose proof (fetch_loop_spec yf raw t tickers [] ND (NoDup_nil _)) as H.
    cbv zeta in H. destruct H as [_ [H _]]. specialize (H Hin).
    assert (F : fetch_all yf tickers
                = (fst (fetch_loop yf raw tickers []),
                   CallDownload tickers :: snd (fetch_loop yf raw tickers []))).
    { unfold fetch_all. rewrite D.
      destruct tickers as [|a [|b rest]]; [reflexivity | now contradiction L |].
      destruct (fetch_loop yf raw (a :: b :: rest) []); reflexivity. }
    rewrite F. cbn [fst snd].
    change (single_downloads t (CallDownload tickers :: ?l))
      with (single_downloads t l).
    destruct H as [A B]. rewrite A, B. unfold fetch_ticker.
    split.
    + intros e E. rewrite E. split; [reflexivity|].
      destruct (download_one yf t); reflexivity.
    + intros df E. rewrite E. split; reflexivity.
  - intros ln sqrtQ yf sort_rows pm1 pm2 t df E ND.
    apply analyze_prices_skips_unusable; [apply df_empty_unusable, E | exact ND].
Qed.

Lemma fetch_all_falls_back_once_then_empty_witness :
  let yf := Sample.serving [("A.NS"%string, Sample.bars (Sample.flat 3 50))] in
  single_downloads "B.NS" (snd (fetch_all yf ["A.NS"; "B.NS"]%string)) = 1%nat
  /\ assoc "B.NS"%string (fst (fetch_all yf ["A.NS"; "B.NS"]%string)) = Some empty_frame.
Proof.
  intro yf.
  destruct fetch_all_falls_back_once_then_empty as [H _].
  destruct (H yf ["A.NS"; "B.NS"]%string
              (mkRaw empty_frame [("A.NS"%string, Sample.bars (Sample.flat 3 50))])
              "B.NS"%string) as [F _].
  - reflexivity.
  - cbn. lia.
  - repeat constructor; cbn; intuition discriminate.
  - cbn. auto.
  - exact (F (KeyError "B.NS") eq_refl).
Defined.

(** ** The order on floats that are not NaN *)

Lemma rank_some (x : float) : isnan x = false -> exists a p, rank x = Some (a, p).
Proof. destruct x as [|[]|[]|q]; cbn; try discriminate; eauto. Qed.

Lemma fltb_false_fleb (x y : float) :
  isnan x = false -> isnan y = false -> fltb y x = false -> fleb x y = true.
Proof.
  intros Hx Hy. unfold fltb, fleb.
  destruct (rank_some x Hx) as [a [p ->]], (rank_some y Hy) as [b [q ->]].
  rewrite orb_false_iff, andb_false_iff, orb_true_iff, andb_true_iff.
  rewrite Z.ltb_ge, Z.ltb_lt, Z.eqb_neq, Z.eqb_eq, Qltb_ge, Qle_bool_iff.
  intros [H1 [H2 | H2]].
  - left. lia.
  - destruct (Z.eq_dec a b); [right | left; lia]. split; assumption.
Qed.

Lemma fleb_trans (x y z : float) :
  fleb x y = true -> fleb y z = true -> fleb x z = true.
Proof.
  unfold fleb.
  destruct (rank x) as [[a p]|], (rank y) as [[b q]|], (rank z) as [[c r]|];
    try discriminate.
  rewrite !orb_true_iff, !andb_true_iff, !Z.ltb_lt, !Z.eqb_eq, !Qle_bool_iff.
  intros [H1 | [H1 H1']] [H2 | [H2 H2']]; subst; try (left; lia); auto.
  right. split; [reflexivity | eapply Qle_trans; eauto].
Qed.

Lemma fltb_fleb (x y : float) : fltb x y = true -> fleb x y = true.
Proof.
  unfold fltb, fleb.
  destruct (rank x) as [[a p]|], (rank y) as [[b q]|]; try discriminate.
  rewrite !orb_true_iff, !andb_true_iff, Z.ltb_lt, Z.eqb_eq, Qltb_lt, Qle_bool_iff.
  intros [H | [H H']]; [left; exact H | right; split; [exact H|]].
  apply Qlt_le_weak. exact H'.
Qed.

Lemma feqb_fltb_l (x y v : float) :
  feqb x v = true -> fltb x y = true -> feqb y v = false.
Proof.
  unfold feqb, fltb.
  destruct (rank x) as [[a p]|], (rank y) as [[b q]|], (rank v) as [[c r]|];
    try discriminate; auto.
  rewrite andb_true_iff, orb_true_iff, andb_true_iff, andb_false_iff.
  rewrite Z.eqb_eq, Z.ltb_lt, Z.eqb_eq, Z.eqb_neq, Qltb_lt.
  intros [-> E] [H | [-> H]].
  - left. lia.
  - right. apply Qeq_bool_iff in E. apply Qeq_bool_false_iff. intro E'.
    rewrite E, <- E' in H. apply (Qlt_irrefl _ H).
Qed.

Lemma feqb_fltb_r (x y v : float) :
  feqb y v = true -> fltb x y = true -> feqb x v = false.
Proof.
  unfold feqb, fltb.
  destruct (rank x) as [[a p]|], (rank y) as [[b q]|], (rank v) as [[c r]|];
    try discriminate; auto.
  rewrite andb_true_iff, orb_true_iff, andb_true_iff, andb_false_iff.
  rewrite Z.eqb_eq, Z.ltb_lt, Z.eqb_eq, Z.eqb_neq, Qltb_lt.
  intros [-> E] [H | [-> H]].
  - left. lia.
  - right. apply Qeq_bool_iff in E. apply Qeq_bool_false_iff. intro E'.
    rewrite E' , E in H. apply (Qlt_irrefl _ H).
Qed.

(** ** Python's [list.sort] *)

Section ListSort.

Context {A : Type}.
Variable key : A -> float.

Let le_key (a b : A) : Prop := fle (key a) (key b).
Let lt_key (a b : A) : Prop := flt (key a) (key b).
Let valid (a : A) : Prop := isnan (key a) = false.

Lemma insert_by_perm (x : A) (l : list A) : Permutation (insert_by key x l) (x :: l).
Proof.
  induction l as [|y l IH]; cbn; [reflexivity|].
  destruct (fltb (key y) (key x)); [|reflexivity].
  rewrite IH. apply perm_swap.
Qed.

Lemma list_sort_perm (l : list A) : Permutation (list_sort key l) l.
Proof.
  induction l as [|x l IH]; cbn; [reflexivity|].
  rewrite insert_by_perm. now constructor.
Qed.

Lemma insert_by_sorted (x : A) (l : list A) :
  valid x -> Forall valid l ->
  StronglySorted le_key l -> StronglySorted le_key (insert_by key x l).
Proof.
  intros Vx Vl S. induction S as [|y l S IH F]; cbn.
  - repeat constructor.
  - inversion Vl as [|? ? Vy Vl']; subst.
    destruct (fltb (key y) (key x)) eqn:E.
    + constructor; [apply IH; assumption|].
      eapply Permutation_Forall; [symmetry; apply insert_by_perm|].
      constructor; [|exact F]. apply fltb_fleb. exact E.
    + assert (L : le_key x y) by (apply fltb_false_fleb; assumption).
      constructor; [constructor; assumption|].
      constructor; [exact L|].
      eapply Forall_impl; [|exact F]. intros z Hz.
      eapply fleb_trans; eauto.
Qed.

Lemma list_sort_sorted (l : list A) :
  Forall valid l -> StronglySorted le_key (list_sort key l).
Proof.
  induction 1 as [|x l Vx Vl IH]; cbn; [constructor|].
  apply insert_by_sorted; auto.
  eapply Permutation_Forall; [symmetry; apply list_sort_perm | exact Vl].
Qed.

(** Stability: among the elements whose key equals [v], the sort keeps
    the order they came in. *)
Lemma insert_by_stable (v : float) (x : A) (l : list A) :
  filter (fun a => feqb (key a) v) (insert_by key x l)
  = filter (fun a => feqb (key a) v) (x :: l).
Proof.
  induction l as [|y l IH]; [reflexivity|].
  cbn [insert_by]. destruct (fltb (key y) (key x)) eqn:E; [|reflexivity].
  cbn [filter] in *. rewrite IH.
  destruct (feqb (key y) v) eqn:Ey, (feqb (key x) v) eqn:Ex; try reflexivity.
  rewrite (feqb_fltb_l _ _ _ Ey E) in Ex. discriminate.
Qed.

Lemma list_sort_stable (v : float) (l : list A) :
  filter (fun a => feqb (key a) v) (list_sort key l)
  = filter (fun a => feqb (key a) v) l.
Proof.
  induction l as [|x l IH]; [reflexivity|].
  cbn [list_sort fold_right]. rewrite insert_by_stable.
  cbn [filter]. fold (list_sort key l). rewrite IH. reflexivity.
Qed.

(** A list in strictly ascending order has one sorted arrangement. *)
Lemma sorted_permutation_unique (l l' : list A) :
  Permutation l l' ->
  StronglySorted lt_key l -> StronglySorted le_key l' -> l = l'.
Proof.
  revert l'. induction l as [|a t IH]; intros l' P S S'.
  - apply Permutation_nil in P. now subst.
  - destruct l' as [|b t']; [apply Permutation_sym, Permutation_nil in P; discriminate|].
    inversion S as [|? ? St Fa]; subst. inversion S' as [|? ? St' Fb]; subst.
    assert (E : a = b).
    { assert (Hb : In b (a :: t)).
      { eapply Permutation_in; [symmetry; exact P | now left]. }
      destruct Hb as [Hb | Hb]; [exact Hb|].
      assert (Ha : In a (b :: t')).
      { eapply Permutation_in; [exact P | now left]. }
      destruct Ha as [Ha | Ha]; [now symmetry|].
      rewrite Forall_forall in Fa, Fb.
      pose proof (Fa b Hb) as L1. pose proof (Fb a Ha) as L2.
      unfold lt_key, le_key, flt, fle in L1, L2.
      apply fltb_not_fleb in L1. congruence. }
    subst b. f_equal. apply IH; auto.
    eapply Permutation_cons_inv; exact P.
Qed.

End ListSort.

(** ** The selection loop *)

Lemma select_closed (yf : Provider) (pm : dict DataFrame) (vl : list (string * float)) :
  forall sel,
    select yf pm vl sel = sel ++ firstn (N_CARDS - length sel) (cands yf pm vl).
Proof.
  induction vl as [|[tk vol] vl IH]; intro sel.
  - cbn. now rewrite firstn_nil, app_nil_r.
  - cbn [select cands flat_map fst snd].
    destruct (N_CARDS <=? length sel)%nat eqn:E.
    + apply Nat.leb_le in E. replace (N_CARDS - length sel)%nat with O by lia.
      now rewrite app_nil_r.
    + apply Nat.leb_gt in E.
      destruct (candidate yf pm tk vol) as [c|].
      * rewrite IH, length_app. cbn [length app].
        replace (N_CARDS - length sel)%nat with (S (N_CARDS - (length sel + 1))) by lia.
        cbn [firstn]. rewrite <- app_assoc. reflexivity.
      * cbn [app]. apply IH.
Qed.

Lemma selected_is_prefix (yf : Provider) (pm : dict DataFrame)
  (vl : list (string * float)) :
  select yf pm vl [] = firstn N_CARDS (cands yf pm vl).
Proof. rewrite select_closed. cbn [app length]. now rewrite Nat.sub_0_r. Qed.

Lemma present_dropna (s : Series Cell) : present (dropna s) = present s.
Proof.
  unfold present, dropna. induction s as [|[i [q|]] s IH]; cbn; [reflexivity| |exact IH].
  now rewrite IH.
Qed.

Lemma length_dropna (s : Series Cell) : length (dropna s) = length (present s).
Proof.
  unfold present, dropna. induction s as [|[i [q|]] s IH]; cbn; [reflexivity| |exact IH].
  now rewrite IH.
Qed.

Lemma length_rsi (s : Series Cell) : length (rsi s RSI_PERIOD) = length (present s).
Proof.
  rewrite rsi_default_unfold. destruct (present s) as [|[i x] ps]; [reflexivity|].
  cbn. now rewrite rsi_loop_length, length_floats.
Qed.

Lemma iloc_last_ok (s : Series float) :
  s <> [] -> exists x, iloc_last s = Ok x /\ In x (values s).
Proof.
  intro H. unfold iloc_last.
  destruct (rev s) as [|[i x] r] eqn:E.
  - apply (f_equal (@rev _)) in E. rewrite rev_involutive in E. contradiction.
  - exists x. split; [reflexivity|].
    apply (in_map snd s (i, x)). apply in_rev. rewrite E. now left.
Qed.

Lemma rsi_last_ok (s : Series Cell) :
  (0 < length (present s))%nat ->
  exists x, iloc_last (rsi s RSI_PERIOD) = Ok x.
Proof.
  intro H. destruct (iloc_last_ok (rsi s RSI_PERIOD)) as [x [E _]]; [|eauto].
  intro E. apply (f_equal (@length _)) in E. rewrite length_rsi in E. cbn in E. lia.
Qed.

(** With 40 daily and 8 weekly observations neither [iloc[-1]] can fail:
    the ticker is selected exactly when its frame is usable and has the
    observations. *)
Lemma candidate_decided (yf : Provider) (pm : dict DataFrame) (tk : string)
  (vol : float) :
  let df := dict_get pm tk empty_frame in
  (if usable df && (40 <=? length (daily_of df))%nat
      && (8 <=? length (weekly_of df))%nat
   then exists c, candidate yf pm tk vol = Some c
                  /\ ticker c = tk /\ volatility c = vol
   else candidate yf pm tk vol = None).
Proof.
  intro df. unfold candidate. fold df. fold (daily_of df). fold (weekly_of df).
  destruct (usable df); cbn [negb andb]; [|reflexivity].
  destruct (40 <=? length (daily_of df))%nat eqn:D.
  - apply Nat.leb_le in D.
    assert (D' : (length (daily_of df) <? 40)%nat = false) by (apply Nat.ltb_ge; lia).
    rewrite D'. cbn [andb].
    destruct (8 <=? length (weekly_of df))%nat eqn:W.
    + apply Nat.leb_le in W.
      assert (W' : (length (weekly_of df) <? 8)%nat = false) by (apply Nat.ltb_ge; lia).
      rewrite W'.
      destruct (rsi_last_ok (daily_of df)) as [d ->].
      { unfold daily_of in *. rewrite present_dropna, <- length_dropna. lia. }
      destruct (rsi_last_ok (weekly_of df)) as [w ->].
      { unfold weekly_of in *. rewrite present_dropna, <- length_dropna. lia. }
      eexists. split; [reflexivity|]. split; reflexivity.
    + apply Nat.leb_gt in W.
      assert (W' : (length (weekly_of df) <? 8)%nat = true) by (apply Nat.ltb_lt; lia).
      rewrite W'. reflexivity.
  - apply Nat.leb_gt in D.
    assert (D' : (length (daily_of df) <? 40)%nat = true) by (apply Nat.ltb_lt; lia).
    rewrite D'. reflexivity.
Qed.

Lemma candidate_some (yf : Provider) (pm : dict DataFrame) (tk : string)
  (vol : float) (c : Candidate) :
  candidate yf pm tk vol = Some c ->
  let df := dict_get pm tk empty_frame in
  usable df = true /\ (40 <= length (daily_of df))%nat
  /\ (8 <= length (weekly_of df))%nat /\ ticker c = tk /\ volatility c = vol.
Proof.
  intros H df. pose proof (candidate_decided yf pm tk vol) as D. cbv zeta in D.
  fold df in D.
  destruct (usable df) eqn:U; cbn [andb] in D; [|congruence].
  destruct (40 <=? length (daily_of df))%nat eqn:A; cbn [andb] in D; [|congruence].
  destruct (8 <=? length (weekly_of df))%nat eqn:B; [|congruence].
  destruct D as [c' [E [T V]]]. rewrite H in E. injection E as <-.
  apply Nat.leb_le in A, B. auto.
Qed.

Lemma assoc_in_nodup {A} (d : dict A) (k : string) (v : A) :
  NoDup (keys d) -> In (k, v) d -> assoc k d = Some v.
Proof.
  induction d as [|[k' v'] d IH]; intros ND Hin; [destruct Hin|].
  inversion ND as [|? ? Hk ND']; subst. cbn.
  destruct Hin as [E | Hin].
  - injection E as -> ->. now rewrite String.eqb_refl.
  - destruct (String.eqb k' k) eqn:E.
    + apply String.eqb_eq in E. subst k'. exfalso. apply Hk.
      apply (in_map fst d (k, v)). exact Hin.
    + apply IH; assumption.
Qed.

Lemma in_vol_entries (ln sqrtQ : Q -> Q) (pm : dict DataFrame) (tk : string)
  (vol : float) :
  In (tk, vol) (vol_entries ln sqrtQ pm) ->
  exists df, In (tk, df) pm /\ usable df = true
             /\ vol = annual_vol ln sqrtQ (getitem df "Close").
Proof.
  unfold vol_entries. intro H. apply in_flat_map in H.
  destruct H as [[k df] [Hin H]].
  destruct (usable df) eqn:U; [|destruct H].
  destruct H as [E | []]. injection E as E1 E2. subst. eauto.
Qed.

Lemma in_vol_list (ln sqrtQ : Q -> Q) (pm : dict DataFrame) (tk : string)
  (vol : float) :
  In (tk, vol) (vol_list ln sqrtQ pm) ->
  isnan vol = false
  /\ exists df, In (tk, df) pm /\ usable df = true
                /\ vol = annual_vol ln sqrtQ (getitem df "Close").
Proof.
  unfold vol_list. intro H.
  apply (Permutation_in _ (list_sort_perm snd _)) in H.
  apply filter_In in H. destruct H as [H N]. cbn in N.
  split; [now apply negb_true_iff in N|].
  apply in_vol_entries. exact H.
Qed.

Lemma cands_app (yf : Provider) (pm : dict DataFrame) (l1 l2 : list (string * float)) :
  cands yf pm (l1 ++ l2) = cands yf pm l1 ++ cands yf pm l2.
Proof. apply flat_map_app. Qed.

Lemma count_cands (ln sqrtQ : Q -> Q) (yf : Provider) (pm l : dict DataFrame) :
  (forall tk df, In (tk, df) l -> assoc tk pm = Some df) ->
  length (cands yf pm (filter (fun x => negb (isnan (snd x))) (vol_entries ln sqrtQ l)))
  = length (filter (fun kv => passes ln sqrtQ (snd kv)) l).
Proof.
  induction l as [|[tk df] l IH]; intro H; [reflexivity|].
  assert (IH' := IH (fun k d Hin => H k d (or_intror Hin))). clear IH.
  change (vol_entries ln sqrtQ ((tk, df) :: l))
    with ((if usable df then [(tk, annual_vol ln sqrtQ (getitem df "Close"))] else [])
          ++ vol_entries ln sqrtQ l).
  rewrite filter_app, cands_app, length_app, IH'.
  assert (E : length (cands yf pm
                        (filter (fun x => negb (isnan (snd x)))
                           (if usable df
                            then [(tk, annual_vol ln sqrtQ (getitem df "Close"))]
                            else [])))
              = if passes ln sqrtQ df then 1%nat else O).
  { unfold passes.
    destruct (usable df) eqn:U; cbn [andb filter snd]; [|reflexivity].
    destruct (isnan (annual_vol ln sqrtQ (getitem df "Close"))) eqn:N;
      cbn [negb andb]; [reflexivity|].
    cbn [cands flat_map fst snd].
    pose proof (candidate_decided yf pm tk
                  (annual_vol ln sqrtQ (getitem df "Close"))) as D.
    cbv zeta in D. unfold dict_get in D.
    rewrite (H tk df (or_introl eq_refl)), U in D. cbn [andb] in D.
    destruct ((40 <=? length (daily_of df))%nat && (8 <=? length (weekly_of df))%nat).
    - destruct D as [c [-> _]]. reflexivity.
    - rewrite D. reflexivity. }
  rewrite E. cbn [filter snd]. destruct (passes ln sqrtQ df); reflexivity.
Qed.

Lemma length_cands_vol_list (ln sqrtQ : Q -> Q) (yf : Provider) (pm : dict DataFrame) :
  NoDup (keys pm) ->
  length (cands yf pm (vol_list ln sqrtQ pm)) = survivors ln sqrtQ pm.
Proof.
  intro ND. unfold survivors. rewrite <- (count_cands ln sqrtQ yf pm pm).
  - apply Permutation_length. unfold cands, vol_list.
    apply Permutation_flat_map. apply list_sort_perm.
  - intros tk df. apply assoc_in_nodup. exact ND.
Qed.

(** ** The ranked output *)

Lemma in_cands (yf : Provider) (pm : dict DataFrame) (vl : list (string * float))
  (c : Candidate) :
  In c (cands yf pm vl) ->
  exists tk vol, In (tk, vol) vl /\ candidate yf pm tk vol = Some c.
Proof.
  unfold cands. intro H. apply in_flat_map in H. destruct H as [[tk vol] [Hin H]].
  cbn [fst snd] in H. destruct (candidate yf pm tk vol) as [c'|] eqn:E; [|destruct H].
  destruct H as [-> | []]. eauto.
Qed.

Lemma In_firstn_In {A} (x : A) (n : nat) (l : list A) :
  In x (firstn n l) -> In x l.
Proof.
  intro H. rewrite <- (firstn_skipn n l). apply in_or_app. now left.
Qed.

Lemma StronglySorted_firstn {A} (R : A -> A -> Prop) (n : nat) (l : list A) :
  StronglySorted R l -> StronglySorted R (firstn n l).
Proof.
  intro S. revert n. induction S as [|a l S IH F]; intro n.
  - rewrite firstn_nil. constructor.
  - destruct n; cbn; constructor; [apply IH|].
    rewrite Forall_forall in *. intros x Hx. apply F.
    eapply (In_firstn_In); eauto.
Qed.

Lemma cands_sorted (yf : Provider) (pm : dict DataFrame) (vl : list (string * float)) :
  StronglySorted (fun a b => fle (snd a) (snd b)) vl ->
  StronglySorted (fun a b => fle (volatility a) (volatility b)) (cands yf pm vl).
Proof.
  induction 1 as [|[tk vol] vl S IH F]; [constructor|].
  cbn [cands flat_map fst snd]. fold (cands yf pm vl).
  destruct (candidate yf pm tk vol) as [c|] eqn:E; [|exact IH].
  cbn [app]. constructor; [exact IH|].
  apply candidate_some in E. destruct E as [_ [_ [_ [_ V]]]].
  rewrite Forall_forall in *. intros c' Hc'.
  apply in_cands in Hc'. destruct Hc' as [tk' [vol' [Hin E']]].
  apply candidate_some in E'. destruct E' as [_ [_ [_ [_ V']]]].
  rewrite V, V'. exact (F _ Hin).
Qed.

Lemma ranked_frame_cases (sort_rows : list Candidate -> list Candidate)
  (selected : list Candidate) :
  ranked_frame sort_rows selected =
  match selected with
  | [] => Raise (KeyError "volatility")
  | _ :: _ => Ok (firstn N_CARDS (sort_rows selected))
  end.
Proof. destruct selected; reflexivity. Qed.

(** ** Sorting a frame that is already in order *)

Lemma sorted_before {A} (R : A -> A -> Prop) (a b : list A) (x y : A) :
  StronglySorted R (a ++ x :: b) -> In y a -> R y x.
Proof.
  induction a as [|z a IH]; intros S H; [destruct H|].
  cbn in S. inversion S as [|? ? S' F]; subst.
  destruct H as [-> | H]; [|now apply IH].
  rewrite Forall_forall in F. apply F. apply in_or_app. right. now left.
Qed.

Lemma fold_insert_back_sorted {A} (key : A -> float) (l : list A) :
  forall done,
    StronglySorted (fun a b => fle (key a) (key b)) (rev done ++ l) ->
    fold_left (fun done x => insert_back key x done) l done = rev l ++ done.
Proof.
  induction l as [|x l IH]; intros done S; [reflexivity|].
  cbn [fold_left].
  assert (E : insert_back key x done = x :: done).
  { destruct done as [|y before]; [reflexivity|]. cbn [insert_back].
    assert (L : fle (key y) (key x)).
    { apply (sorted_before _ (rev (y :: before)) l x y S).
      apply in_rev. rewrite rev_involutive. now left. }
    destruct (fltb (key x) (key y)) eqn:C; [|reflexivity].
    apply fltb_not_fleb in C. unfold fle in L. congruence. }
  rewrite E, IH.
  - cbn [rev]. now rewrite <- app_assoc.
  - cbn [rev]. now rewrite <- app_assoc.
Qed.

(** The insertion pass returns a list in ascending order as it is, rows
    of equal key included. *)
Lemma insertion_pass_sorted {A} (key : A -> float) (l : list A) :
  StronglySorted (fun a b => fle (key a) (key b)) l -> insertion_pass key l = l.
Proof.
  intro S. unfold insertion_pass.
  rewrite (fold_insert_back_sorted key l [] S), app_nil_r. apply rev_involutive.
Qed.

Lemma filter_all {A} (keep : A -> bool) (l : list A) :
  Forall (fun a => keep a = true) l -> filter keep l = l.
Proof.
  induction 1 as [|a l Ha _ IH]; [reflexivity|].
  cbn [filter]. now rewrite Ha, IH.
Qed.

Lemma filter_nothing {A} (keep : A -> bool) (l : list A) :
  Forall (fun a => keep a = false) l -> filter keep l = [].
Proof.
  induction 1 as [|a l Ha _ IH]; [reflexivity|].
  cbn [filter]. now rewrite Ha, IH.
Qed.

Lemma sort_values_sorted_frame (frame : list Candidate) :
  Forall (fun r => isnan (volatility r) = false) frame ->
  StronglySorted (fun a b => fle (volatility a) (volatility b)) frame ->
  sort_values frame = frame.
Proof.
  intros V S. unfold sort_values.
  rewrite filter_all, filter_nothing, app_nil_r.
  - now apply insertion_pass_sorted.
  - exact V.
  - eapply Forall_impl; [|exact V]. intros r H. cbv beta. now rewrite H.
Qed.

Section RankedOutput.

Variables ln sqrtQ : Q -> Q.
Variable yf : Provider.
Variable sort_rows : list Candidate -> list Candidate.

(** What [sort_values] promises whatever the sorting algorithm: the same
    rows, in ascending order of the key. *)
Hypothesis sort_rows_perm : forall l, Permutation (sort_rows l) l.
Hypothesis sort_rows_sorted :
  forall l, Forall (fun r => isnan (volatility r) = false) l ->
            StronglySorted (fun a b => fle (volatility a) (volatility b)) (sort_rows l).

Let selected (pm : dict DataFrame) : list Candidate :=
  select yf pm (vol_list ln sqrtQ pm) [].

Lemma length_selected (pm : dict DataFrame) :
  NoDup (keys pm) ->
  length (selected pm) = Nat.min N_CARDS (survivors ln sqrtQ pm).
Proof.
  intro ND. unfold selected. rewrite selected_is_prefix, length_firstn.
  now rewrite (length_cands_vol_list ln sqrtQ yf pm ND).
Qed.

Lemma selected_at_most (pm : dict DataFrame) : (length (selected pm) <= N_CARDS)%nat.
Proof.
  unfold selected. rewrite selected_is_prefix, length_firstn. apply Nat.le_min_l.
Qed.

Lemma in_selected (pm : dict DataFrame) (c : Candidate) :
  NoDup (keys pm) -> In c (selected pm) ->
  exists df, assoc (ticker c) pm = Some df
             /\ usable df = true
             /\ volatility c = annual_vol ln sqrtQ (getitem df "Close")
             /\ isnan (volatility c) = false
             /\ (40 <= length (daily_of df))%nat
             /\ (8 <= length (weekly_of df))%nat.
Proof.
  intros ND H. unfold selected in H. rewrite selected_is_prefix in H.
  apply In_firstn_In in H. apply in_cands in H.
  destruct H as [tk [vol [Hin E]]].
  apply in_vol_list in Hin. destruct Hin as [N [df [Hdf [U V]]]].
  pose proof (assoc_in_nodup pm tk df ND Hdf) as A.
  apply candidate_some in E. cbv zeta in E. unfold dict_get in E. rewrite A in E.
  destruct E as [_ [D [W [T V']]]]. subst tk.
  exists df. rewrite V'. repeat split; auto.
Qed.

Lemma selected_valid (pm : dict DataFrame) :
  Forall (fun r => isnan (volatility r) = false) (selected pm).
Proof.
  apply Forall_forall. intros c H. unfold selected in H.
  rewrite selected_is_prefix in H. apply In_firstn_In in H. apply in_cands in H.
  destruct H as [tk [vol [Hin E]]].
  apply in_vol_list in Hin. destruct Hin as [N _].
  apply candidate_some in E. destruct E as [_ [_ [_ [_ V]]]]. now rewrite V.
Qed.

Lemma resorted_all (pm : dict DataFrame) :
  firstn N_CARDS (sort_rows (selected pm)) = sort_rows (selected pm).
Proof.
  apply firstn_all2. rewrite (Permutation_length (sort_rows_perm _)).
  apply selected_at_most.
Qed.

Lemma analyze_prices_cases (pm : dict DataFrame) :
  analyze_prices ln sqrtQ yf sort_rows pm =
  match selected pm with
  | [] => Raise (KeyError "volatility")
  | _ :: _ =>
      Ok (map (fun row => (row, signal (daily_rsi row) (weekly_rsi row)))
              (sort_rows (selected pm)))
  end.
Proof.
  unfold analyze_prices. fold (selected pm). rewrite ranked_frame_cases.
  destruct (selected pm) as [|c sel] eqn:E; [reflexivity|].
  rewrite <- E, resorted_all.
  destruct (sort_rows (selected pm)) as [|r rs] eqn:S; [|reflexivity].
  pose proof (Permutation_length (sort_rows_perm (selected pm))) as L.
  rewrite S, E in L. discriminate L.
Qed.

(** C6. How many rows a run puts out, by the number of survivors.  With
    no survivor there is no output of [min (10, 0) = 0] rows: the run
    raises [KeyError] out of [sort_values].  With a survivor there is a
    final output.  Every final output has [min (10, survivors)] rows, and
    no row of it has an undefined volatility, fewer than 40 daily
    observations or fewer than 8 weekly ones, the rows being tickers of
    the price map that pass every filter. *)
Theorem survivors_decide_the_output (pm : dict DataFrame) :
  NoDup (keys pm) ->
  (survivors ln sqrtQ pm = O ->
   analyze_prices ln sqrtQ yf sort_rows pm = Raise (KeyError "volatility"))
  /\ (0 < survivors ln sqrtQ pm ->
      exists out, analyze_prices ln sqrtQ yf sort_rows pm = Ok out)%nat
  /\ (forall out,
         analyze_prices ln sqrtQ yf sort_rows pm = Ok out ->
         length out = Nat.min N_CARDS (survivors ln sqrtQ pm)
         /\ (forall row sig,
                In (row, sig) out ->
                isnan (volatility row) = false
                /\ exists df,
                     assoc (ticker row) pm = Some df
                     /\ passes ln sqrtQ df = true
                     /\ (40 <= length (daily_of df))%nat
                     /\ (8 <= length (weekly_of df))%nat)).
Proof.
  intro ND. rewrite analyze_prices_cases.
  pose proof (length_selected pm ND) as L.
  split; [|split].
  - intro S. rewrite S, Nat.min_0_r in L.
    destruct (selected pm) as [|c sel]; [reflexivity | discriminate L].
  - intro S. destruct (selected pm) as [|c sel]; [|eauto].
    cbn [length] in L. unfold N_CARDS in L. lia.
  - intros out H.
    destruct (selected pm) as [|c sel] eqn:E; [discriminate|].
    injection H as <-. rewrite <- E in *. split.
    + rewrite length_map, (Permutation_length (sort_rows_perm _)). exact L.
    + intros row sig Hin. apply in_map_iff in Hin.
      destruct Hin as [r [Er Hr]]. injection Er as -> _.
      apply (Permutation_in _ (sort_rows_perm _)) in Hr.
      destruct (in_selected pm row ND Hr) as [df [A [U [V [N [D W]]]]]].
      split; [exact N|]. exists df. split; [exact A|].
      split; [|split; assumption].
      unfold passes. rewrite U, <- V, N. cbn [negb andb].
      apply andb_true_iff. split; apply Nat.leb_le; assumption.
Qed.

(** C7. The candidate ranking is an ascending sort by volatility score,
    stable (tickers of equal score keep their first-seen order) and
    defined on ties; the selection loop hands over at most 10 rows in
    ascending order of volatility.  The final frame is that selection
    sorted ascending by volatility and cut to 10 rows.  [sort_values]
    returns the selection as it is, in the order of the loop, rows of
    equal volatility included; and any sort that returns the same rows in
    ascending order does so whenever no two selected volatilities are
    equal. *)
Theorem ranking_stable_and_resort_keeps_order (pm : dict DataFrame) :
  let entries := filter (fun x => negb (isnan (snd x))) (vol_entries ln sqrtQ pm) in
  Permutation (vol_list ln sqrtQ pm) entries
  /\ StronglySorted (fun a b => fle (snd a) (snd b)) (vol_list ln sqrtQ pm)
  /\ (forall v : float,
         filter (fun x => feqb (snd x) v) (vol_list ln sqrtQ pm)
         = filter (fun x => feqb (snd x) v) entries)
  /\ list_sort snd [("a", of_Z 1); ("b", of_Z 1); ("c", of_Z 0)]%string
     = [("c", of_Z 0); ("a", of_Z 1); ("b", of_Z 1)]%string
  /\ StronglySorted (fun a b => fle (volatility a) (volatility b))
       (select yf pm (vol_list ln sqrtQ pm) [])
  /\ (length (select yf pm (vol_list ln sqrtQ pm) []) <= N_CARDS)%nat
  /\ sort_values (select yf pm (vol_list ln sqrtQ pm) [])
     = select yf pm (vol_list ln sqrtQ pm) []
  /\ (select yf pm (vol_list ln sqrtQ pm) [] <> [] ->
      ranked_frame sort_values (select yf pm (vol_list ln sqrtQ pm) [])
      = Ok (select yf pm (vol_list ln sqrtQ pm) []))
  /\ (forall out,
         ranked_frame sort_rows (select yf pm (vol_list ln sqrtQ pm) []) = Ok out ->
         out = firstn N_CARDS (sort_rows (select yf pm (vol_list ln sqrtQ pm) []))
         /\ (length out <= N_CARDS)%nat
         /\ Permutation out (select yf pm (vol_list ln sqrtQ pm) [])
         /\ StronglySorted (fun a b => fle (volatility a) (volatility b)) out
         /\ (StronglySorted (fun a b => flt (volatility a) (volatility b))
               (select yf pm (vol_list ln sqrtQ pm) []) ->
             out = select yf pm (vol_list ln sqrtQ pm) [])).
Proof.
  intro entries. fold (selected pm).
  assert (V : Forall (fun x : string * float => isnan (snd x) = false) entries).
  { apply Forall_forall. intros x Hx. apply filter_In in Hx.
    now apply negb_true_iff. }
  assert (S : StronglySorted (fun a b => fle (snd a) (snd b)) (vol_list ln sqrtQ pm)).
  { apply (list_sort_sorted snd). exact V. }
  split; [apply list_sort_perm|]. split; [exact S|].
  split; [intro v; apply list_sort_stable|]. split; [reflexivity|].
  assert (S' : StronglySorted (fun a b => fle (volatility a) (volatility b))
                 (selected pm)).
  { unfold selected. rewrite selected_is_prefix.
    apply StronglySorted_firstn, cands_sorted, S. }
  split; [exact S'|]. split; [apply selected_at_most|].
  assert (I : sort_values (selected pm) = selected pm)
    by (apply sort_values_sorted_frame; [apply selected_valid | exact S']).
  split; [exact I|]. split.
  { intro NE. unfold ranked_frame. rewrite I.
    pose proof (selected_at_most pm) as L.
    destruct (selected pm) as [|c sel] eqn:E; [contradiction|].
    cbn [record_columns existsb String.eqb Ascii.eqb Bool.eqb orb].
    rewrite firstn_all2 by exact L. reflexivity. }
  intros out H. rewrite ranked_frame_cases in H.
  destruct (selected pm) as [|c sel] eqn:E; [discriminate|].
  rewrite <- E in *.
  assert (O : out = firstn N_CARDS (sort_rows (selected pm))) by congruence.
  split; [exact O|]. rewrite resorted_all in O. subst out. split.
  - rewrite (Permutation_length (sort_rows_perm _)). apply selected_at_most.
  - split; [apply sort_rows_perm|]. split.
    + apply sort_rows_sorted, selected_valid.
    + intro St. symmetry.
      apply (sorted_permutation_unique volatility);
        [symmetry; apply sort_rows_perm | exact St |].
      apply sort_rows_sorted, selected_valid.
Qed.

End RankedOutput.

(** ** The sample order of [sort_values] keeps its promise *)

Lemma sort_stable_perm (l : list Candidate) : Permutation (Sample.sort_stable l) l.
Proof. apply list_sort_perm. Qed.

Lemma sort_stable_sorted (l : list Candidate) :
  Forall (fun r => isnan (volatility r) = false) l ->
  StronglySorted (fun a b => fle (volatility a) (volatility b)) (Sample.sort_stable l).
Proof. apply (list_sort_sorted volatility). Qed.

Lemma NoDup_keys_two_flat : NoDup (keys Sample.two_flat).
Proof. repeat constructor; cbn; intuition discriminate. Qed.

Lemma survivors_decide_the_output_witness :
  analyze_prices Sample.ln Sample.sqrtQ Sample.outage Sample.sort_stable
    (fst (fetch_all Sample.outage NIFTY50))
  = Raise (KeyError "volatility")
  /\ exists out,
       analyze_prices Sample.ln Sample.sqrtQ Sample.outage Sample.sort_stable
         Sample.two_flat
       = Ok out
       /\ length out = 2%nat.
Proof.
  split.
  - apply (survivors_decide_the_output Sample.ln Sample.sqrtQ Sample.outage
             Sample.sort_stable sort_stable_perm
             (fst (fetch_all Sample.outage NIFTY50))).
    + constructor.
    + reflexivity.
  - destruct (survivors_decide_the_output Sample.ln Sample.sqrtQ Sample.outage
                Sample.sort_stable sort_stable_perm Sample.two_flat
                NoDup_keys_two_flat)
      as [_ [H1 H2]].
    destruct H1 as [out E].
    { apply Nat.ltb_lt. vm_compute. reflexivity. }
    exists out. split; [exact E|].
    destruct (H2 out E) as [L _]. rewrite L. vm_compute. reflexivity.
Defined.

Lemma ranking_stable_and_resort_keeps_order_witness :
  map ticker (select Sample.outage Sample.two_flat
                (vol_list Sample.ln Sample.sqrtQ Sample.two_flat) [])
  = ["A.NS"; "B.NS"]%string
  /\ map volatility (select Sample.outage Sample.two_flat
                       (vol_list Sample.ln Sample.sqrtQ Sample.two_flat) [])
     = [Zero false; Zero false]
  /\ ranked_frame sort_values
       (select Sample.outage Sample.two_flat
          (vol_list Sample.ln Sample.sqrtQ Sample.two_flat) [])
     = Ok (select Sample.outage Sample.two_flat
             (vol_list Sample.ln Sample.sqrtQ Sample.two_flat) []).
Proof.
  split; [vm_compute; reflexivity|]. split; [vm_compute; reflexivity|].
  destruct (ranking_stable_and_resort_keeps_order Sample.ln Sample.sqrtQ
              Sample.outage Sample.sort_stable sort_stable_perm sort_stable_sorted
              Sample.two_flat)
    as [_ [_ [_ [_ [_ [_ [_ [H _]]]]]]]].
  apply H. vm_compute. intro E. discriminate E.
Defined.

(** ** A flat ticker *)

Lemma rsi_from_averages (series : Series Cell) :
  rsi series RSI_PERIOD =
  match astype_float (dropna series) with
  | [] => []
  | _ :: _ => smap (fun x => fsub (of_Z 100) (fdiv (of_Z 100) (fadd (of_Z 1) x)))
                (szip fdiv (avg_up series) (avg_down series))
  end.
Proof.
  unfold rsi, avg_up, avg_down.
  destruct (astype_float (dropna series)); reflexivity.
Qed.

Lemma in_prices (s : Series Cell) (q : Q) :
  In q (prices s) <-> exists i, In (i, Some q) s.
Proof.
  unfold prices, present. rewrite in_map_iff. split.
  - intros [[i q'] [E H]]. cbn in E. subst q'. apply in_flat_map in H.
    destruct H as [[j [p|]] [Hin H]]; cbn in H; [|destruct H].
    destruct H as [E | []]. injection E as -> ->. eauto.
  - intros [i H]. exists (i, q). split; [reflexivity|].
    apply in_flat_map. exists (i, Some q). split; [exact H | now left].
Qed.

Lemma prices_dropna (s : Series Cell) : prices (dropna s) = prices s.
Proof. unfold prices. now rewrite present_dropna. Qed.

Lemma length_prices_dropna (s : Series Cell) : length (prices s) = length (dropna s).
Proof. unfold prices. now rewrite length_map, length_dropna. Qed.

Lemma last_valid_in (l : list Cell) (q : Q) :
  forall acc,
    fold_left (fun acc c => match c with Some _ => c | None => acc end) l acc = Some q ->
    In (Some q) l \/ acc = Some q.
Proof.
  induction l as [|c l IH]; intros acc H; [now right|].
  cbn in H. apply IH in H. destruct H as [H | H]; [left; now right|].
  destruct c as [p|]; [left; left; exact H | now right].
Qed.

Lemma column_pos_lt (name : string) (cols : list string) (j : nat) :
  column_pos name cols = Some j -> (j < length cols)%nat.
Proof.
  revert j. induction cols as [|c cols IH]; intros j H; [discriminate|].
  cbn in H. destruct (String.eqb c name).
  - injection H as <-. cbn. lia.
  - destruct (column_pos name cols) as [k|]; [|discriminate].
    injection H as <-. cbn. specialize (IH k eq_refl). lia.
Qed.

Lemma nth_map_seq {B} (f : nat -> B) (n j : nat) (d : B) :
  (j < n)%nat -> nth j (map f (seq 0 n)) d = f j.
Proof.
  intro H. rewrite (nth_indep _ d (f O)) by (now rewrite length_map, length_seq).
  rewrite map_nth, seq_nth by exact H. reflexivity.
Qed.

(** A weekly close is one of the daily closes. *)
Lemma weekly_prices_in_daily (df : DataFrame) (q : Q) :
  In q (prices (weekly_of df)) -> In q (prices (daily_of df)).
Proof.
  unfold weekly_of, daily_of. rewrite !prices_dropna, !in_prices.
  intros [i H]. unfold getitem in *.
  assert (C : columns (resample_W_last df) = columns df).
  { unfold resample_W_last. destruct (map _ (rows df)); reflexivity. }
  rewrite C in H.
  destruct (column_pos "Close" (columns df)) as [j|] eqn:P; [|destruct H].
  apply column_pos_lt in P.
  apply in_map_iff in H. destruct H as [[lbl cells] [E H]].
  cbn [fst snd] in E. injection E as -> E.
  unfold resample_W_last in H.
  destruct (map (fun r => week_of (fst r)) (rows df)) as [|w0 ws]; [destruct H|].
  cbn [rows] in H. apply in_map_iff in H. destruct H as [w [Ew _]].
  injection Ew as _ <-.
  rewrite nth_map_seq in E by exact P.
  unfold last_valid in E. apply last_valid_in in E.
  destruct E as [E | E]; [|discriminate].
  apply in_map_iff in E. destruct E as [r [Er Hr]].
  apply filter_In in Hr. destruct Hr as [Hr _].
  exists (fst r). apply in_map_iff. exists r. split; [now rewrite Er | exact Hr].
Qed.

Lemma daily_nonempty_usable (df : DataFrame) :
  (0 < length (daily_of df))%nat -> usable df = true.
Proof.
  unfold daily_of, usable, has_column, getitem, df_empty.
  destruct (column_pos "Close" (columns df)) as [j|] eqn:P; [|cbn; lia].
  destruct (columns df) as [|c cols]; [discriminate|].
  destruct (rows df); [cbn; lia | reflexivity].
Qed.

Lemma assoc_some_in {A} (d : dict A) (k : string) (v : A) :
  assoc k d = Some v -> In (k, v) d.
Proof.
  induction d as [|[k' v'] d IH]; [discriminate|].
  cbn. destruct (String.eqb k' k) eqn:E.
  - apply String.eqb_eq in E. subst. intro H. injection H as ->. now left.
  - intro H. right. now apply IH.
Qed.

(** On a series that does not move every value of [rsi] is NaN. *)
Lemma rsi_constant_all_nan (s : Series Cell) (c : Q) :
  Forall (fun p => p == c) (prices s) ->
  forall v, In v (values (rsi s RSI_PERIOD)) -> v = NaN.
Proof.
  intros F v Hv. apply In_nth_error in Hv. destruct Hv as [[|k] Hk].
  - now apply (rsi_head_nan s).
  - apply (rsi_tail_values s k v Hk).
    rewrite Forall_forall in *. intros y Hy. apply In_firstn_In in Hy.
    destruct (prices s) as [|p ps] eqn:E; [destruct Hy|].
    cbn [hd]. rewrite (F y Hy), (F p (or_introl eq_refl)). reflexivity.
Qed.

Lemma rsi_constant_last_nan (s : Series Cell) (c : Q) :
  Forall (fun p => p == c) (prices s) -> (0 < length (prices s))%nat ->
  iloc_last (rsi s RSI_PERIOD) = Ok NaN.
Proof.
  intros F L. destruct (iloc_last_ok (rsi s RSI_PERIOD)) as [x [E Hx]].
  - intro E. apply (f_equal (@length _)) in E. rewrite length_rsi in E.
    unfold prices in L. rewrite length_map in L. cbn in E. lia.
  - rewrite E. f_equal. eapply rsi_constant_all_nan; eauto.
Qed.

Lemma fsub_self (c : Q) : fsub (of_Q c) (of_Q c) = Zero false.
Proof.
  destruct (fsub_of_Q c c) as [[_ E] | [N _]]; [exact E|].
  exfalso. apply N. ring.
Qed.

Lemma diff_constant (c : Q) (ps : list (Z * Q)) :
  Forall (fun p => p == c) (map snd ps) ->
  values (szip fsub (floats ps) (shift_from (of_Q c) (floats ps)))
  = repeat (Zero false) (length ps).
Proof.
  induction ps as [|[i x] ps IH]; intro F; [reflexivity|].
  inversion F as [|? ? E F']; subst. cbn [map snd] in *.
  cbn [floats map fst snd shift_from szip values repeat length].
  rewrite (of_Q_compat x c E), fsub_self. f_equal. apply IH. exact F'.
Qed.

Lemma ewm_loop_constant (z : float) (xs : Series float) :
  ewm_step alpha14 (NaN, of_Z 1) z = (z, of_Z 1) ->
  ewm_step alpha14 (z, of_Z 1) z = (z, of_Z 1) ->
  values xs = repeat z (length xs) ->
  forall w, w = NaN \/ w = z ->
            values (ewm_loop alpha14 (w, of_Z 1) xs) = repeat z (length xs).
Proof.
  intros S0 S1. induction xs as [|[i x] xs IH]; intros V w Hw; [reflexivity|].
  cbn [values map snd length repeat] in V. injection V as -> V.
  cbn [ewm_loop].
  assert (E : ewm_step alpha14 (w, of_Z 1) z = (z, of_Z 1)).
  { destruct Hw as [-> | ->]; assumption. }
  rewrite E. cbn [values map fst snd length repeat]. f_equal.
  apply IH; [exact V | now right].
Qed.

Lemma ewm_loop_constant_n (z : float) (xs : Series float) (n : nat) :
  ewm_step alpha14 (NaN, of_Z 1) z = (z, of_Z 1) ->
  ewm_step alpha14 (z, of_Z 1) z = (z, of_Z 1) ->
  values xs = repeat z n ->
  values (ewm_loop alpha14 (NaN, of_Z 1) xs) = repeat z n.
Proof.
  intros S0 S1 V.
  assert (L : length xs = n).
  { apply (f_equal (@length _)) in V. unfold values in V.
    now rewrite length_map, repeat_length in V. }
  subst n. apply ewm_loop_constant; auto.
Qed.

(** Both smoothed averages of a series that does not move are zero past
    the first point. *)
Lemma averages_constant (s : Series Cell) (c : Q) :
  Forall (fun p => p == c) (prices s) ->
  values (avg_up s) = match prices s with
                      | [] => []
                      | _ :: ps => NaN :: repeat (Zero false) (length ps)
                      end
  /\ values (avg_down s) = match prices s with
                           | [] => []
                           | _ :: ps => NaN :: repeat (Zero true) (length ps)
                           end.
Proof.
  intro F. unfold avg_up, avg_down, prices in *. rewrite astype_dropna.
  destruct (present s) as [|[i x] ps]; [split; reflexivity|].
  inversion F as [|? ? E F']; subst. cbn [map snd] in *.
  unfold diff, shift1.
  cbn [floats map fst snd shift_from szip smap ewm_mean values].
  rewrite fsub_nan_r. cbn [clip_lower0 clip_upper0 isnan fneg].
  rewrite (of_Q_compat x c E).
  pose proof (diff_constant c ps F') as D. rewrite length_map.
  split; f_equal.
  - apply (ewm_loop_constant_n (Zero false)); [reflexivity | reflexivity |].
    change (values (smap clip_lower0
                      (szip fsub (floats ps) (shift_from (of_Q c) (floats ps))))
            = repeat (Zero false) (length ps)).
    rewrite values_smap, D, map_repeat. reflexivity.
  - apply (ewm_loop_constant_n (Zero true)); [reflexivity | reflexivity |].
    change (values (smap fneg (smap clip_upper0
                      (szip fsub (floats ps) (shift_from (of_Q c) (floats ps)))))
            = repeat (Zero true) (length ps)).
    rewrite !values_smap, D, !map_repeat. reflexivity.
Qed.

Lemma before_split (tk : string) (vl : list (string * float)) (v : float) :
  In (tk, v) vl -> exists v' rest, vl = before tk vl ++ (tk, v') :: rest.
Proof.
  induction vl as [|[k w] vl IH]; intro H; [destruct H|].
  cbn [before]. destruct (String.eqb k tk) eqn:E.
  - apply String.eqb_eq in E. subst k. exists w, vl. reflexivity.
  - destruct H as [H | H].
    + injection H as -> _. rewrite String.eqb_refl in E. discriminate.
    + destruct (IH H) as [v' [rest R]]. exists v', rest. cbn. now rewrite <- R.
Qed.

Lemma in_vol_list_intro (ln sqrtQ : Q -> Q) (pm : dict DataFrame) (tk : string)
  (df : DataFrame) :
  In (tk, df) pm -> usable df = true ->
  isnan (annual_vol ln sqrtQ (getitem df "Close")) = false ->
  In (tk, annual_vol ln sqrtQ (getitem df "Close")) (vol_list ln sqrtQ pm).
Proof.
  intros Hin U N. unfold vol_list.
  apply (Permutation_in _ (Permutation_sym (list_sort_perm snd _))).
  apply filter_In. split; [|cbn; now rewrite N].
  unfold vol_entries. apply in_flat_map. exists (tk, df).
  split; [exact Hin|]. rewrite U. now left.
Qed.

Lemma vol_list_score (ln sqrtQ : Q -> Q) (pm : dict DataFrame) (tk : string)
  (df : DataFrame) (v : float) :
  NoDup (keys pm) -> assoc tk pm = Some df -> In (tk, v) (vol_list ln sqrtQ pm) ->
  v = annual_vol ln sqrtQ (getitem df "Close").
Proof.
  intros ND A H. apply in_vol_list in H. destruct H as [_ [df' [Hin [_ V]]]].
  apply (assoc_in_nodup pm tk df' ND) in Hin. congruence.
Qed.

Lemma length_prices_daily (df : DataFrame) :
  length (prices (daily_of df)) = length (daily_of df).
Proof.
  unfold prices, daily_of. now rewrite length_map, present_dropna, length_dropna.
Qed.

Lemma length_prices_weekly (df : DataFrame) :
  length (prices (weekly_of df)) = length (weekly_of df).
Proof.
  unfold prices, weekly_of. now rewrite length_map, present_dropna, length_dropna.
Qed.

Lemma weekly_constant (df : DataFrame) (c : Q) :
  Forall (fun p => p == c) (prices (daily_of df)) ->
  Forall (fun p => p == c) (prices (weekly_of df)).
Proof.
  rewrite !Forall_forall. intros F q Hq. apply F, weekly_prices_in_daily, Hq.
Qed.

(** The record the selection loop builds for a ticker that does not move:
    neither [float(...)] raises, both stored values are NaN. *)
Lemma candidate_flat (yf : Provider) (pm : dict DataFrame) (tk : string)
  (df : DataFrame) (c : Q) (vol : float) :
  assoc tk pm = Some df ->
  (40 <= length (daily_of df))%nat ->
  Forall (fun p => p == c) (prices (daily_of df)) ->
  (8 <= length (weekly_of df))%nat ->
  candidate yf pm tk vol
  = Some (mkCandidate tk (company_name yf tk) NaN NaN vol
            (values (astype_float (lastn 40 (daily_of df))))).
Proof.
  intros A D F W. unfold candidate, dict_get. rewrite A.
  rewrite (daily_nonempty_usable df) by lia. cbn [negb].
  fold (daily_of df). fold (weekly_of df).
  assert (D' : (length (daily_of df) <? 40)%nat = false) by (apply Nat.ltb_ge; lia).
  assert (W' : (length (weekly_of df) <? 8)%nat = false) by (apply Nat.ltb_ge; lia).
  rewrite D', W'.
  rewrite (rsi_constant_last_nan (daily_of df) c F)
    by (rewrite length_prices_daily; lia).
  rewrite (rsi_constant_last_nan (weekly_of df) c (weekly_constant df c F))
    by (rewrite length_prices_weekly; lia).
  reflexivity.
Qed.

Lemma In_firstn_app {A} (x : A) (n : nat) (l1 l2 : list A) :
  (length l1 < n)%nat -> In x (firstn n (l1 ++ x :: l2)).
Proof.
  intro H. rewrite firstn_app. apply in_or_app. right.
  destruct (n - length l1)%nat as [|k] eqn:E; [lia|]. now left.
Qed.

(** C10 (as amended). A ticker whose cleaned daily closes are at least 40
    equal positive prices, whose weekly resample has at least 8 points and
    which the selection loop reaches before it holds 10 records, is in
    the output: its volatility is zero, both smoothed averages are zero
    past the first point, the last daily and weekly RSI are NaN, no
    conversion raises, and the row is labelled Neutral without the
    conflict marker. *)
Theorem flat_ticker_selected_with_nan_rsi
  (ln sqrtQ : Q -> Q) (yf : Provider) (sort_rows : list Candidate -> list Candidate)
  (pm : dict DataFrame) (tk : string) (df : DataFrame) (c : Q) :
  (forall l, Permutation (sort_rows l) l) ->
  ln 1 == 0 ->
  NoDup (keys pm) -> assoc tk pm = Some df ->
  (40 <= length (daily_of df))%nat ->
  Forall (fun p => p == c) (prices (daily_of df)) -> 0 < c ->
  (8 <= length (weekly_of df))%nat ->
  (length (cands yf pm (before tk (vol_list ln sqrtQ pm))) < N_CARDS)%nat ->
  (exists sgn, annual_vol ln sqrtQ (getitem df "Close") = Zero sgn)
  /\ values (avg_up (daily_of df))
     = NaN :: repeat (Zero false) (length (daily_of df) - 1)
  /\ values (avg_down (daily_of df))
     = NaN :: repeat (Zero true) (length (daily_of df) - 1)
  /\ iloc_last (rsi (daily_of df) RSI_PERIOD) = Ok NaN
  /\ iloc_last (rsi (weekly_of df) RSI_PERIOD) = Ok NaN
  /\ exists row out,
       candidate yf pm tk (annual_vol ln sqrtQ (getitem df "Close")) = Some row
       /\ ticker row = tk /\ daily_rsi row = NaN /\ weekly_rsi row = NaN
       /\ analyze_prices ln sqrtQ yf sort_rows pm = Ok out
       /\ In (row, signal NaN NaN) out
       /\ signal NaN NaN = mkSignal Neutral PALETTE.yellow false.
Proof.
  intros SP L1 ND A D F Cpos W B.
  assert (Z : exists sgn, annual_vol ln sqrtQ (getitem df "Close") = Zero sgn).
  { apply (annual_vol_constant ln sqrtQ _ c L1).
    - intro E. rewrite E in Cpos. apply (Qlt_irrefl _ Cpos).
    - rewrite <- prices_dropna. fold (daily_of df). rewrite length_prices_daily. lia.
    - rewrite <- prices_dropna. exact F. }
  split; [exact Z|].
  destruct (averages_constant (daily_of df) c F) as [AU AD].
  pose proof (length_prices_daily df) as LP.
  destruct (prices (daily_of df)) as [|p ps] eqn:EP; [cbn in LP; lia|].
  cbn [length] in LP. replace (length (daily_of df) - 1)%nat with (length ps) by lia.
  split; [exact AU|]. split; [exact AD|].
  rewrite <- EP in F.
  split; [apply (rsi_constant_last_nan _ c F); rewrite length_prices_daily; lia|].
  split; [apply (rsi_constant_last_nan _ c (weekly_constant df c F));
          rewrite length_prices_weekly; lia|].
  set (vol := annual_vol ln sqrtQ (getitem df "Close")) in *.
  pose proof (candidate_flat yf pm tk df c vol A D F W) as CF.
  eexists. eexists (map (fun row => (row, signal (daily_rsi row) (weekly_rsi row)))
                      (sort_rows (select yf pm (vol_list ln sqrtQ pm) []))).
  split; [exact CF|]. split; [reflexivity|]. split; [reflexivity|].
  split; [reflexivity|].
  assert (Hin : In (tk, vol) (vol_list ln sqrtQ pm)).
  { apply in_vol_list_intro.
    - apply assoc_some_in. exact A.
    - apply daily_nonempty_usable. lia.
    - destruct Z as [sgn Z]. unfold vol in Z. now rewrite Z. }
  destruct (before_split tk _ vol Hin) as [v' [rest R]].
  assert (V : v' = vol).
  { apply (vol_list_score ln sqrtQ pm tk df v' ND A).
    rewrite R. apply in_or_app. right. now left. }
  subst v'.
  assert (S : In (mkCandidate tk (company_name yf tk) NaN NaN vol
                    (values (astype_float (lastn 40 (daily_of df)))))
                (select yf pm (vol_list ln sqrtQ pm) [])).
  { rewrite selected_is_prefix. rewrite R at 1. rewrite cands_app.
    cbn [cands flat_map fst snd]. rewrite CF. cbn [app].
    apply In_firstn_app. exact B. }
  split; [|split; [|reflexivity]].
  - rewrite (analyze_prices_cases ln sqrtQ yf sort_rows SP pm).
    destruct (select yf pm (vol_list ln sqrtQ pm) []); [destruct S | reflexivity].
  - apply in_map_iff. eexists. split; [|apply (Permutation_in _ (Permutation_sym (SP _))), S].
    reflexivity.
Qed.

Lemma flat_ticker_selected_with_nan_rsi_witness :
  exists row out,
    candidate Sample.outage Sample.one_flat "FLAT.NS"
      (annual_vol Sample.ln Sample.sqrtQ
         (getitem (Sample.bars (Sample.flat 40 50)) "Close")) = Some row
    /\ daily_rsi row = NaN /\ weekly_rsi row = NaN
    /\ analyze_prices Sample.ln Sample.sqrtQ Sample.outage Sample.sort_stable
         Sample.one_flat = Ok out
    /\ In (row, signal NaN NaN) out.
Proof.
  destruct (flat_ticker_selected_with_nan_rsi Sample.ln Sample.sqrtQ Sample.outage
              Sample.sort_stable Sample.one_flat "FLAT.NS"
              (Sample.bars (Sample.flat 40 50)) 50)
    as [_ [_ [_ [_ [_ [row [out [H1 [_ [H2 [H3 [H4 [H5 _]]]]]]]]]]]]].
  - exact sort_stable_perm.
  - reflexivity.
  - repeat constructor. cbn. intuition.
  - reflexivity.
  - apply Nat.leb_le. vm_compute. reflexivity.
  - vm_compute. repeat (constructor; try reflexivity).
  - reflexivity.
  - apply Nat.leb_le. vm_compute. reflexivity.
  - apply Nat.ltb_lt. vm_compute. reflexivity.
  - exists row, out. auto.
Defined.

(** C10 (as stated) fails: of eleven flat tickers with 40 daily closes
    over eight weeks each, the eleventh is not in the output, the loop
    having stopped at ten. *)
Lemma eleventh_flat_ticker_left_out :
  let df := Sample.bars (Sample.flat 40 50) in
  assoc "K.NS"%string Sample.eleven_flat = Some df
  /\ length (daily_of df) = 40%nat
  /\ Forall (fun p => p == 50) (prices (daily_of df))
  /\ exists out,
       analyze_prices Sample.ln Sample.sqrtQ Sample.outage Sample.sort_stable
         Sample.eleven_flat = Ok out
       /\ length out = 10%nat
       /\ ~ In "K.NS"%string (map (fun r => ticker (fst r)) out).
Proof.
  intro df. split; [reflexivity|]. split; [vm_compute; reflexivity|].
  split; [vm_compute; repeat (constructor; try reflexivity)|].
  eexists. split; [vm_compute; reflexivity|]. split; [reflexivity|].
  cbn. intuition discriminate.
Qed.

(** C5. Where the smoothed average of down-moves is zero the division
    raises nothing: the value is 100 when the average of up-moves is
    positive, NaN when it is zero too.  The selector does not look at
    the NaN: a flat ticker comes out with NaN for both RSI values and the
    label Neutral. *)
Theorem nan_rsi_reaches_the_output :
  (forall (u : float) (b : bool), positive u -> rsi_point u (Zero b) = of_Z 100)
  /\ (forall a b : bool, rsi_point (Zero a) (Zero b) = NaN)
  /\ analyze_prices Sample.ln Sample.sqrtQ Sample.outage Sample.sort_stable
       Sample.one_flat
     = Ok [ (mkCandidate "FLAT.NS" "" NaN NaN (Zero false) (repeat (of_Z 50) 40),
             mkSignal Neutral PALETTE.yellow false) ].
Proof.
  split; [exact rsi_point_saturates|]. split; [exact rsi_point_zero_zero|].
  vm_compute. reflexivity.
Qed.

(** ** A run of [rsi] on prices that move

    Prices 1, 2, 3, 2, 2, 5: the rises alone saturate at 100; after the
    fall the ratio of the averages is 13, which gives 100 - 100/14. *)
Example rsi_on_a_moving_series :
  values (rsi (Sample.closes_on_trading_days [1; 2; 3; 2; 2; 5]) RSI_PERIOD)
  = [NaN; of_Z 100; of_Z 100; of_Q (650 # 7); of_Q (650 # 7); of_Q (139250 # 1477)].
Proof. vm_compute. reflexivity. Qed.

(** * Further properties of the code *)

(** ** Signal classification *)

(** X1. The classification does not tell the daily from the weekly RSI:
    swapping the two gives the same label, colour and conflict marker. *)
Theorem signal_symmetric (d w : float) : signal d w = signal w d.
Proof.
  unfold signal.
  destruct (fgtb d (of_Z 60)), (fgtb w (of_Z 60)), (between d), (between w),
    (fltb d (of_Z 40)), (fltb w (of_Z 40)); reflexivity.
Qed.

Lemma fltb_nan_l (x : float) : fltb NaN x = false.
Proof. reflexivity. Qed.

Lemma fltb_nan_r (x : float) : fltb x NaN = false.
Proof. unfold fltb. destruct (rank x) as [[a p]|]; reflexivity. Qed.

Lemma between_nan : between NaN = false.
Proof. reflexivity. Qed.

(** X2. A NaN in either RSI value always ends on the fallback: the label
    is Neutral, the colour the yellow of the palette, the conflict marker
    off, whatever the other value is. *)
Theorem signal_of_nan_is_neutral (d w : float) :
  isnan d = true \/ isnan w = true ->
  signal d w = mkSignal Neutral PALETTE.yellow false.
Proof.
  assert (H : forall x, signal NaN x = mkSignal Neutral PALETTE.yellow false).
  { intro x. unfold signal, fgtb. rewrite fltb_nan_l, fltb_nan_r, between_nan.
    cbn [andb]. rewrite !andb_false_r. reflexivity. }
  assert (H' : forall x, signal x NaN = mkSignal Neutral PALETTE.yellow false).
  { intro x. unfold signal, fgtb. rewrite fltb_nan_l, fltb_nan_r, between_nan.
    cbn [andb]. rewrite !andb_false_r. reflexivity. }
  intros [E | E].
  - destruct d; try discriminate. apply H.
  - destruct w; try discriminate. apply H'.
Qed.

Lemma signal_of_nan_is_neutral_witness :
  signal NaN (of_Z 75) = mkSignal Neutral PALETTE.yellow false.
Proof. apply signal_of_nan_is_neutral. left. reflexivity. Defined.

(** X3. The colour and the conflict marker are functions of the label:
    gray with the marker for Conflict, green for Buy, red for Sell,
    yellow for Neutral, the last three without the marker. *)
Theorem signal_colour_follows_label (d w : float) :
  sig_color (signal d w)
  = match sig_label (signal d w) with
    | Conflict => PALETTE.gray
    | Buy => PALETTE.green
    | Sell => PALETTE.red
    | Neutral => PALETTE.yellow
    end
  /\ sig_cross (signal d w)
     = match sig_label (signal d w) with Conflict => true | _ => false end.
Proof.
  unfold signal.
  destruct (fgtb d (of_Z 60) && between w), (fgtb w (of_Z 60) && between d),
    (fgtb d (of_Z 60) && fgtb w (of_Z 60)), (fltb d (of_Z 40) && fltb w (of_Z 40)),
    (between d && between w); split; reflexivity.
Qed.

(** ** The height of the frame *)

Lemma iframe_height_rows (n : nat) :
  iframe_height n = Z.max 360 ((Z.of_nat n + 2) / 3 * CARD_HEIGHT + 120)%Z.
Proof.
  unfold iframe_height. f_equal. f_equal. f_equal.
  unfold Qceiling, Qfloor, Qdiv, Qinv, Qmult, inject_Z. cbn.
  Z.to_euclidean_division_equations. lia.
Qed.

Lemma length_output (ln sqrtQ : Q -> Q) (yf : Provider)
  (sort_rows : list Candidate -> list Candidate) (pm : dict DataFrame)
  (out : list (Candidate * Signal)) :
  (forall l, Permutation (sort_rows l) l) ->
  analyze_prices ln sqrtQ yf sort_rows pm = Ok out ->
  map fst out = sort_rows (select yf pm (vol_list ln sqrtQ pm) [])
  /\ (1 <= length out <= N_CARDS)%nat.
Proof.
  intros SP H. rewrite (analyze_prices_cases ln sqrtQ yf sort_rows SP) in H.
  destruct (select yf pm (vol_list ln sqrtQ pm) []) as [|c sel] eqn:E; [discriminate|].
  injection H as <-. rewrite <- E. split.
  - rewrite map_map. cbn. apply map_id.
  - rewrite length_map, (Permutation_length (SP _)).
    pose proof (selected_at_most ln sqrtQ yf pm) as L.
    cbv beta in L. rewrite E in L |- *. cbn [length] in *. lia.
Qed.

(** X4. For every output of the analysis the frame is between 360 and
    800 pixels high and holds the cards laid out three to a row: with
    [rows] the least number of rows of three that takes all cards, the
    height is at least [rows * CARD_HEIGHT + 120]. *)
Theorem iframe_height_holds_the_cards
  (ln sqrtQ : Q -> Q) (yf : Provider) (sort_rows : list Candidate -> list Candidate)
  (pm : dict DataFrame) (out : list (Candidate * Signal)) :
  (forall l, Permutation (sort_rows l) l) ->
  analyze_prices ln sqrtQ yf sort_rows pm = Ok out ->
  (360 <= iframe_height (length out) <= 800)%Z
  /\ exists rows : Z,
       (Z.of_nat (length out) <= 3 * rows < Z.of_nat (length out) + 3)%Z
       /\ (rows * CARD_HEIGHT + 120 <= iframe_height (length out))%Z.
Proof.
  intros SP H. destruct (length_output ln sqrtQ yf sort_rows pm out SP H) as [_ L].
  rewrite iframe_height_rows. unfold N_CARDS, CARD_HEIGHT in *.
  split.
  - assert ((Z.of_nat (length out) + 2) / 3 <= 4)%Z.
    { apply Z.div_le_upper_bound; lia. }
    lia.
  - exists ((Z.of_nat (length out) + 2) / 3)%Z. split; [|lia].
    Z.to_euclidean_division_equations. lia.
Qed.

Lemma two_flat_has_output :
  exists out,
    analyze_prices Sample.ln Sample.sqrtQ Sample.outage Sample.sort_stable
      Sample.two_flat = Ok out.
Proof. eexists. vm_compute. reflexivity. Qed.

Lemma iframe_height_holds_the_cards_witness :
  exists out,
    analyze_prices Sample.ln Sample.sqrtQ Sample.outage Sample.sort_stable
      Sample.two_flat = Ok out
    /\ (360 <= iframe_height (length out) <= 800)%Z.
Proof.
  destruct two_flat_has_output as [out E].
  exists out. split; [exact E|].
  exact (proj1 (iframe_height_holds_the_cards Sample.ln Sample.sqrtQ Sample.outage
                  Sample.sort_stable Sample.two_flat out sort_stable_perm E)).
Defined.

(** ** The shape of what [fetch_all] returns *)

Lemma fetch_loop_keys (yf : Provider) (raw : RawTable) (tickers : list string) :
  forall out,
    NoDup (keys out ++ tickers) ->
    keys (fst (fetch_loop yf raw tickers out)) = keys out ++ tickers.
Proof.
  induction tickers as [|t rest IH]; intros out ND.
  - cbn. now rewrite app_nil_r.
  - cbn [fetch_loop]. destruct (fetch_ticker yf raw t) as [df ev].
    specialize (IH (dict_set out t df)).
    destruct (fetch_loop yf raw rest (dict_set out t df)) as [out' ev'].
    cbn [fst] in *.
    assert (K : keys (dict_set out t df) = keys out ++ [t]).
    { rewrite keys_dict_set.
      destruct (existsb (String.eqb t) (keys out)) eqn:E; [|reflexivity].
      apply existsb_exists in E. destruct E as [x [Hx E]].
      apply String.eqb_eq in E. subst x.
      apply NoDup_remove_2 in ND. exfalso. apply ND.
      apply in_or_app. now left. }
    rewrite IH, K, <- app_assoc; [reflexivity|].
    rewrite K, <- app_assoc. exact ND.
Qed.

Lemma fetch_loop_events (yf : Provider) (raw : RawTable) (tickers : list string) :
  forall out e,
    In e (snd (fetch_loop yf raw tickers out)) ->
    exists t, In t tickers /\ e = CallDownloadOne t.
Proof.
  induction tickers as [|t rest IH]; intros out e H; [destruct H|].
  cbn [fetch_loop] in H. destruct (fetch_ticker yf raw t) as [df ev] eqn:F.
  specialize (IH (dict_set out t df) e).
  destruct (fetch_loop yf raw rest (dict_set out t df)) as [out' ev'].
  cbn [snd] in *. apply in_app_or in H. destruct H as [H | H].
  - exists t. split; [now left|]. unfold fetch_ticker in F.
    destruct (raw_getitem raw t); [injection F as _ <-; destruct H|].
    destruct (download_one yf t); injection F as _ <-;
      destruct H as [H | []]; now symmetry.
  - destruct (IH H) as [u [Hu E]]. exists u. split; [now right | exact E].
Qed.

(** X5. What [fetch_all] returns has one shape per outcome of the batch
    download.  When the batch download raises, the map is empty and no
    ticker is downloaded alone: the fallback serves tickers missing from a
    batch, not a missing batch.  When it succeeds for distinct tickers,
    the map has exactly the requested tickers as keys, in the order
    asked, and the only calls made beside the batch are single-ticker
    downloads of requested tickers. *)
Theorem fetch_all_shape (yf : Provider) (tickers : list string) :
  (forall e, download yf tickers = Raise e ->
             fst (fetch_all yf tickers) = []
             /\ forall t, single_downloads t (snd (fetch_all yf tickers)) = O)
  /\ (forall raw, download yf tickers = Ok raw -> NoDup tickers ->
                  keys (fst (fetch_all yf tickers)) = tickers
                  /\ forall ev, In ev (snd (fetch_all yf tickers)) ->
                                ev = CallDownload tickers
                                \/ exists t, In t tickers /\ ev = CallDownloadOne t).
Proof.
  unfold fetch_all. split.
  - intros e E. rewrite E. split; [reflexivity | intro t; reflexivity].
  - intros raw E ND. rewrite E.
    destruct tickers as [|t [|u rest]].
    + cbn. split; [reflexivity|]. intros ev [H | []]. now left.
    + cbn. split; [reflexivity|]. intros ev [H | []]. now left.
    + pose proof (fetch_loop_keys yf raw (t :: u :: rest) [] ND) as K.
      pose proof (fetch_loop_events yf raw (t :: u :: rest) []) as V.
      destruct (fetch_loop yf raw (t :: u :: rest) []) as [out ev].
      cbn [fst snd] in *. split; [exact K|].
      intros e [H | H]; [now left | right; now apply V].
Qed.

(** ** Fields of the selected records *)

Lemma candidate_fields (yf : Provider) (pm : dict DataFrame) (tk : string)
  (vol : float) (c : Candidate) :
  candidate yf pm tk vol = Some c ->
  let df := dict_get pm tk empty_frame in
  exists d w,
    iloc_last (rsi (daily_of df) RSI_PERIOD) = Ok d
    /\ iloc_last (rsi (weekly_of df) RSI_PERIOD) = Ok w
    /\ (40 <= length (daily_of df))%nat
    /\ c = mkCandidate tk (company_name yf tk) (round2 d) (round2 w) vol
             (values (astype_float (lastn 40 (daily_of df)))).
Proof.
  intros H df. pose proof (candidate_some yf pm tk vol c H) as S.
  cbv zeta in S. fold df in S. destruct S as [_ [D _]].
  unfold candidate in H. fold df in H. fold (daily_of df) in H.
  fold (weekly_of df) in H.
  destruct (negb (usable df)); [discriminate|].
  destruct (length (daily_of df) <? 40)%nat; [discriminate|].
  destruct (length (weekly_of df) <? 8)%nat; [discriminate|].
  destruct (iloc_last (rsi (daily_of df) RSI_PERIOD)) as [d|]; [|discriminate].
  destruct (iloc_last (rsi (weekly_of df) RSI_PERIOD)) as [w|]; [|discriminate].
  injection H as <-. exists d, w. auto.
Qed.

Lemma in_output (ln sqrtQ : Q -> Q) (yf : Provider)
  (sort_rows : list Candidate -> list Candidate) (pm : dict DataFrame)
  (out : list (Candidate * Signal)) (row : Candidate) (sig : Signal) :
  (forall l, Permutation (sort_rows l) l) ->
  analyze_prices ln sqrtQ yf sort_rows pm = Ok out ->
  In (row, sig) out ->
  sig = signal (daily_rsi row) (weekly_rsi row)
  /\ exists tk vol, In (tk, vol) (vol_list ln sqrtQ pm)
                    /\ candidate yf pm tk vol = Some row.
Proof.
  intros SP H Hin. rewrite (analyze_prices_cases ln sqrtQ yf sort_rows SP) in H.
  destruct (select yf pm (vol_list ln sqrtQ pm) []) as [|c sel] eqn:E; [discriminate|].
  injection H as <-. rewrite <- E in Hin.
  apply in_map_iff in Hin. destruct Hin as [r [Er Hr]]. injection Er as -> <-.
  split; [reflexivity|].
  apply (Permutation_in _ (SP _)) in Hr.
  rewrite selected_is_prefix in Hr. apply In_firstn_In in Hr.
  apply in_cands. exact Hr.
Qed.

Lemma length_lastn {A} (n : nat) (l : list A) :
  (n <= length l)%nat -> length (lastn n l) = n.
Proof. intro H. unfold lastn. rewrite length_skipn. lia. Qed.

Lemma lastn_map {A B} (f : A -> B) (n : nat) (l : list A) :
  lastn n (map f l) = map f (lastn n l).
Proof. unfold lastn. rewrite length_map. apply skipn_map. Qed.

Lemma rsi_value_cases (s : Series Cell) (v : float) :
  In v (values (rsi s RSI_PERIOD)) -> v = NaN \/ in_range v.
Proof.
  intro Hv. apply In_nth_error in Hv. destruct Hv as [[|k] Hk].
  - left. now apply (rsi_head_nan s).
  - destruct (rsi_tail_values s k v Hk) as [I1 I2].
    destruct (all_equal_dec (hd 0 (prices s)) (firstn (S (S k)) (prices s))); auto.
Qed.

Lemma rsi_last_cases (s : Series Cell) (v : float) :
  iloc_last (rsi s RSI_PERIOD) = Ok v -> v = NaN \/ in_range v.
Proof.
  intro H. destruct (iloc_last_ok (rsi s RSI_PERIOD)) as [x [E Hx]].
  - intro E. rewrite E in H. discriminate.
  - rewrite H in E. injection E as ->. now apply (rsi_value_cases s).
Qed.

Lemma round_half_even_range (q : Q) (lo hi : Z) :
  inject_Z lo <= q -> q <= inject_Z hi -> (lo <= round_half_even q <= hi)%Z.
Proof.
  intros L U. unfold round_half_even.
  assert (F1 : (lo <= Qfloor q)%Z).
  { apply Qfloor_resp_le in L. now rewrite Qfloor_Z in L. }
  assert (F2 : (Qfloor q <= hi)%Z).
  { apply Qfloor_resp_le in U. now rewrite Qfloor_Z in U. }
  destruct (Z.eq_dec (Qfloor q) hi) as [E | NE].
  - assert (C : Qcompare (q - inject_Z (Qfloor q)) (1 # 2) = Lt).
    { apply (proj1 (Qlt_alt _ _)). rewrite E.
      generalize dependent (inject_Z hi). intros h; intros. lra. }
    rewrite C. lia.
  - destruct (Qcompare (q - inject_Z (Qfloor q)) (1 # 2));
      [destruct (Z.even (Qfloor q))| |]; lia.
Qed.

Lemma round2_nan_or_in_range (x : float) :
  x = NaN \/ in_range x -> round2 x = NaN \/ in_range (round2 x).
Proof.
  intros [-> | R]; [now left | right].
  destruct x as [|s|s|q]; cbn [round2]; auto.
  destruct R as [L U]. unfold fle, fleb in L, U. cbn in L, U.
  apply Qle_bool_iff in L, U.
  assert (R : (0 <= round_half_even (q * 100) <= 10000)%Z).
  { apply round_half_even_range.
    - change (inject_Z 0) with 0. change (inject_Z 100) with 100 in U. lra.
    - change (inject_Z 10000) with 10000. change (inject_Z 100) with 100 in U. lra. }
  destruct (round_half_even (q * 100) =? 0)%Z eqn:E.
  - split; reflexivity.
  - apply Z.eqb_neq in E. unfold in_range, fle, fleb.
    change (of_Z 0) with (Zero false). change (of_Z 100) with (Num 100).
    cbn [rank Z.ltb Z.eqb Z.compare orb andb].
    split; apply Qle_bool_iff; rewrite Qred_correct.
    + apply Qle_shift_div_l; [reflexivity|]. rewrite Qmult_0_l.
      change 0 with (inject_Z 0). rewrite <- Zle_Qle. lia.
    + apply Qle_shift_div_r; [reflexivity|].
      change (100 * 100) with (inject_Z 10000). rewrite <- Zle_Qle. lia.
Qed.

Lemma stored_closes (g : Series Cell) (n : nat) :
  values (astype_float (lastn n (dropna g)))
  = map of_Q (lastn n (prices (dropna g))).
Proof.
  assert (V : forall t : Series Cell,
             values (astype_float t)
             = map (fun p => match snd p with Some q => of_Q q | None => NaN end) t).
  { intro t. unfold values, astype_float. now rewrite map_map. }
  rewrite V, <- lastn_map, <- V, astype_dropna, values_floats.
  rewrite prices_dropna. unfold prices. now rewrite lastn_map.
Qed.

(** X6. In every output of the analysis, each row holds as [series_daily]
    the last 40 daily closes of its ticker, 40 values exactly, and as
    daily and weekly RSI a value that is NaN or lies in [[0, 100]] and has
    at most two decimals; its signal is the classification of these two
    values. *)
Theorem output_rows_are_well_formed
  (ln sqrtQ : Q -> Q) (yf : Provider) (sort_rows : list Candidate -> list Candidate)
  (pm : dict DataFrame) (out : list (Candidate * Signal))
  (row : Candidate) (sig : Signal) :
  (forall l, Permutation (sort_rows l) l) ->
  analyze_prices ln sqrtQ yf sort_rows pm = Ok out ->
  In (row, sig) out ->
  let df := dict_get pm (ticker row) empty_frame in
  series_daily row = map of_Q (lastn 40 (prices (daily_of df)))
  /\ length (series_daily row) = 40%nat
  /\ (daily_rsi row = NaN \/ in_range (daily_rsi row))
  /\ (weekly_rsi row = NaN \/ in_range (weekly_rsi row))
  /\ two_decimals (daily_rsi row) /\ two_decimals (weekly_rsi row)
  /\ sig = signal (daily_rsi row) (weekly_rsi row).
Proof.
  intros SP H Hin.
  destruct (in_output ln sqrtQ yf sort_rows pm out row sig SP H Hin)
    as [Hs [tk [vol [_ C]]]].
  destruct (candidate_fields yf pm tk vol row C) as [d [w [Ed [Ew [D ->]]]]].
  cbn [ticker series_daily daily_rsi weekly_rsi].
  set (df := dict_get pm tk empty_frame) in *.
  assert (S : values (astype_float (lastn 40 (daily_of df)))
              = map of_Q (lastn 40 (prices (daily_of df))))
    by (unfold daily_of; apply stored_closes).
  rewrite S. split; [reflexivity|]. split.
  - rewrite length_map. apply length_lastn. rewrite length_prices_daily. exact D.
  - split; [apply round2_nan_or_in_range, (rsi_last_cases _ _ Ed)|].
    split; [apply round2_nan_or_in_range, (rsi_last_cases _ _ Ew)|].
    split; [apply round2_two_decimals|]. split; [apply round2_two_decimals | exact Hs].
Qed.

Lemma output_rows_are_well_formed_witness :
  exists out row sig,
    analyze_prices Sample.ln Sample.sqrtQ Sample.outage Sample.sort_stable
      Sample.two_flat = Ok out
    /\ In (row, sig) out
    /\ length (series_daily row) = 40%nat.
Proof.
  destruct two_flat_has_output as [out E].
  destruct out as [|[row sig] out'] eqn:O.
  - exfalso.
    destruct (length_output Sample.ln Sample.sqrtQ Sample.outage Sample.sort_stable
                Sample.two_flat [] sort_stable_perm E) as [_ [L _]].
    cbn in L. lia.
  - exists out, row, sig. subst out. split; [exact E|]. split; [now left|].
    exact (proj1 (proj2 (output_rows_are_well_formed Sample.ln Sample.sqrtQ
                           Sample.outage Sample.sort_stable Sample.two_flat
                           ((row, sig) :: out') row sig sort_stable_perm E
                           (or_introl eq_refl)))).
Defined.

(** ** One card per ticker *)

Lemma NoDup_map_filter {A B} (key : A -> B) (keep : A -> bool) (rows : list A)
  (distinct : NoDup (map key rows)) : NoDup (map key (filter keep rows)).
Proof.
  induction rows as [|r rows IH]; [constructor|].
  inversion distinct as [|? ? Hr Hrows]; subst. cbn [filter].
  destruct (keep r); [|exact (IH Hrows)].
  cbn [map]. constructor; [|exact (IH Hrows)].
  intro Hin. apply Hr. apply in_map_iff in Hin. destruct Hin as [x [E Hx]].
  apply filter_In in Hx. apply in_map_iff. exists x. tauto.
Qed.

Lemma keys_vol_entries (ln sqrtQ : Q -> Q) (pm : dict DataFrame) :
  map fst (vol_entries ln sqrtQ pm) = map fst (filter (fun kv => usable (snd kv)) pm).
Proof.
  unfold vol_entries. induction pm as [|[tk df] pm IH]; [reflexivity|].
  cbn [flat_map filter snd]. destruct (usable df); cbn; now rewrite IH.
Qed.

Lemma NoDup_vol_list (ln sqrtQ : Q -> Q) (pm : dict DataFrame) :
  NoDup (keys pm) -> NoDup (map fst (vol_list ln sqrtQ pm)).
Proof.
  intro ND. unfold vol_list.
  eapply Permutation_NoDup.
  - apply Permutation_map. symmetry. apply list_sort_perm.
  - apply NoDup_map_filter. rewrite keys_vol_entries.
    apply NoDup_map_filter. exact ND.
Qed.

Lemma NoDup_cands (yf : Provider) (pm : dict DataFrame) (vl : list (string * float)) :
  NoDup (map fst vl) -> NoDup (map ticker (cands yf pm vl)).
Proof.
  induction vl as [|[tk vol] vl IH]; intro H; [constructor|].
  inversion H as [|? ? Ht H']; subst.
  cbn [cands flat_map fst snd]. fold (cands yf pm vl).
  destruct (candidate yf pm tk vol) as [c|] eqn:E; [|now apply IH].
  cbn [app map]. constructor; [|now apply IH].
  apply candidate_some in E. destruct E as [_ [_ [_ [T _]]]]. rewrite T.
  intro Hin. apply Ht. apply in_map_iff in Hin. destruct Hin as [c' [E' Hc']].
  apply in_cands in Hc'. destruct Hc' as [tk' [vol' [Hin' C']]].
  apply candidate_some in C'. destruct C' as [_ [_ [_ [T' _]]]].
  apply in_map_iff. exists (tk', vol'). split; [cbn; congruence | exact Hin'].
Qed.

Lemma NoDup_firstn {A} (n : nat) (l : list A) : NoDup l -> NoDup (firstn n l).
Proof.
  intro H. rewrite <- (firstn_skipn n l) in H.
  now apply NoDup_app_remove_r in H.
Qed.

(** X7. No ticker gets two cards: in every output of the analysis on a
    price map the tickers of the rows are pairwise distinct. *)
Theorem output_tickers_distinct
  (ln sqrtQ : Q -> Q) (yf : Provider) (sort_rows : list Candidate -> list Candidate)
  (pm : dict DataFrame) (out : list (Candidate * Signal)) :
  (forall l, Permutation (sort_rows l) l) ->
  NoDup (keys pm) ->
  analyze_prices ln sqrtQ yf sort_rows pm = Ok out ->
  NoDup (map (fun r => ticker (fst r)) out).
Proof.
  intros SP ND H.
  destruct (length_output ln sqrtQ yf sort_rows pm out SP H) as [M _].
  rewrite <- (map_map fst ticker), M.
  eapply Permutation_NoDup.
  - apply Permutation_map. symmetry. apply SP.
  - rewrite selected_is_prefix, <- firstn_map.
    apply NoDup_firstn, NoDup_cands, NoDup_vol_list, ND.
Qed.

Lemma output_tickers_distinct_witness :
  exists out,
    analyze_prices Sample.ln Sample.sqrtQ Sample.outage Sample.sort_stable
      Sample.two_flat = Ok out
    /\ NoDup (map (fun r => ticker (fst r)) out).
Proof.
  destruct two_flat_has_output as [out E].
  exists out. split; [exact E|].
  exact (output_tickers_distinct Sample.ln Sample.sqrtQ Sample.outage
           Sample.sort_stable Sample.two_flat out sort_stable_perm
           NoDup_keys_two_flat E).
Defined.

(** ** The company name is an ornament *)

Lemma candidate_without_company (yf yf' : Provider) (pm : dict DataFrame)
  (tk : string) (vol : float) :
  option_map without_company (candidate yf pm tk vol)
  = option_map without_company (candidate yf' pm tk vol).
Proof.
  unfold candidate.
  destruct (negb (usable (dict_get pm tk empty_frame))); [reflexivity|].
  destruct (length _ <? 40)%nat; [reflexivity|].
  destruct (length _ <? 8)%nat; [reflexivity|].
  destruct (iloc_last _) as [d|]; [|reflexivity].
  destruct (iloc_last _) as [w|]; reflexivity.
Qed.

Lemma select_without_company (yf yf' : Provider) (pm : dict DataFrame)
  (vl : list (string * float)) :
  forall sel sel',
    map without_company sel = map without_company sel' ->
    map without_company (select yf pm vl sel)
    = map without_company (select yf' pm vl sel').
Proof.
  induction vl as [|[tk vol] vl IH]; intros sel sel' E; [exact E|].
  cbn [select].
  assert (L : length sel = length sel').
  { apply (f_equal (@length _)) in E. now rewrite !length_map in E. }
  rewrite L. destruct (N_CARDS <=? length sel')%nat; [exact E|].
  pose proof (candidate_without_company yf yf' pm tk vol) as C.
  destruct (candidate yf pm tk vol) as [c|], (candidate yf' pm tk vol) as [c'|];
    cbn in C; try discriminate.
  - apply IH. rewrite !map_app, E. cbn [map]. do 2 f_equal. congruence.
  - apply IH. exact E.
Qed.

Lemma company_name_of_failure (yf : Provider) (tk : string) (e : exn) :
  ticker_info yf tk = Raise e -> company_name yf tk = EmptyString.
Proof. intro H. unfold company_name. now rewrite H. Qed.

(** X8. The name lookup is best effort: which tickers are selected, in
    which order, and every number stored for them are the same whatever
    [yf.Ticker(tk).info] returns or raises; only the company name
    depends on it, and it is the empty string when the lookup raises. *)
Theorem selection_ignores_name_lookup
  (yf yf' : Provider) (pm : dict DataFrame) (vl : list (string * float)) :
  map without_company (select yf pm vl [])
  = map without_company (select yf' pm vl [])
  /\ (forall c, In c (select yf pm vl []) ->
                company c = company_name yf (ticker c))
  /\ (forall tk e, ticker_info yf tk = Raise e -> company_name yf tk = EmptyString).
Proof.
  split; [now apply select_without_company|].
  split; [|exact (company_name_of_failure yf)].
  intros c H. rewrite selected_is_prefix in H. apply In_firstn_In in H.
  apply in_cands in H. destruct H as [tk [vol [_ C]]].
  destruct (candidate_fields yf pm tk vol c C) as [d [w [_ [_ [_ ->]]]]].
  reflexivity.
Qed.

(** ** [rsi] on prices that only rise or only fall *)

Lemma of_Q_nonzero (q : Q) : ~ q == 0 -> of_Q q = Num (Qred q).
Proof.
  intro H. unfold of_Q. apply Qeq_bool_false_iff in H. now rewrite H.
Qed.

Lemma fsub_of_Q_eq (x p : Q) : fsub (of_Q x) (of_Q p) = of_Q (x - p).
Proof.
  destruct (Qeq_dec x 0) as [Ex | Ex], (Qeq_dec p 0) as [Ep | Ep].
  - rewrite (of_Q_zero x Ex), (of_Q_zero p Ep), of_Q_zero by lra. reflexivity.
  - rewrite (of_Q_zero x Ex), (of_Q_nonzero p Ep), of_Q_nonzero by lra.
    unfold fsub. cbn [fneg fadd]. f_equal. apply Qred_complete.
    rewrite Qred_correct. lra.
  - rewrite (of_Q_nonzero x Ex), (of_Q_zero p Ep), of_Q_nonzero by lra.
    unfold fsub. cbn [fneg fadd]. f_equal. apply Qred_complete. lra.
  - rewrite (of_Q_nonzero x Ex), (of_Q_nonzero p Ep).
    unfold fsub. cbn [fneg fadd]. apply of_Q_compat.
    rewrite !Qred_correct. lra.
Qed.

Lemma down_is_zero (x p : Q) :
  p <= x -> fneg (clip_upper0 (fsub (of_Q x) (of_Q p))) = Zero true.
Proof.
  intro H. destruct (fsub_of_Q x p) as [[E ->] | [N [q [-> Eq]]]]; [reflexivity|].
  rewrite clip_upper0_Num.
  destruct (Qle_bool q 0) eqn:L; [|reflexivity].
  apply Qle_bool_iff in L. exfalso. apply N. lra.
Qed.

Lemma up_is_zero (x p : Q) :
  x <= p -> clip_lower0 (fsub (of_Q x) (of_Q p)) = Zero false.
Proof.
  intro H. destruct (fsub_of_Q x p) as [[E ->] | [N [q [-> Eq]]]]; [reflexivity|].
  rewrite clip_lower0_Num.
  destruct (Qle_bool 0 q) eqn:L; [|reflexivity].
  apply Qle_bool_iff in L. exfalso. apply N. lra.
Qed.

Lemma rsi_point_zero_up (d : float) :
  positive d -> rsi_point (Zero false) d = of_Z 0.
Proof.
  destruct d as [| | |q]; cbn [positive]; try contradiction. intro H.
  unfold rsi_point. cbn [fdiv fsign].
  assert (S : Qltb q 0 = false) by (apply Qltb_ge, Qlt_le_weak, H).
  rewrite S. reflexivity.
Qed.

Lemma rising_loop (ps : list (Z * Q)) :
  forall (p : Q) (wu wd : float),
    Sorted Qlt (p :: map snd ps) -> okst wu -> wd = NaN \/ wd = Zero true ->
    values (rsi_loop alpha14 (of_Q p) (wu, of_Z 1) (wd, of_Z 1) (floats ps))
    = repeat (of_Z 100) (length ps).
Proof.
  induction ps as [|[i x] ps IH]; intros p wu wd S Hu Hd; [reflexivity|].
  cbn [map snd] in S. inversion S as [|? ? S' R]; subst.
  inversion R as [|? ? Lt]; subst.
  cbn [floats map fst snd rsi_loop].
  rewrite (down_is_zero x p) by (now apply Qlt_le_weak).
  destruct (delta_up_down x p) as [Nu [_ [Pu _]]].
  destruct (ewm_step_ok wu _ Hu Nu) as [wu' [-> [Nu' Pu']]].
  assert (Ed : ewm_step alpha14 (wd, of_Z 1) (Zero true) = (Zero true, of_Z 1))
    by (destruct Hd as [-> | ->]; reflexivity).
  rewrite Ed. cbn [fst values map snd length repeat].
  f_equal.
  - apply rsi_point_saturates. apply Pu'. right. now apply Pu.
  - apply IH; [exact S' | now right | now right].
Qed.

Lemma falling_loop (ps : list (Z * Q)) :
  forall (p : Q) (wu wd : float),
    Sorted (fun a b => b < a) (p :: map snd ps) ->
    wu = NaN \/ wu = Zero false -> okst wd ->
    values (rsi_loop alpha14 (of_Q p) (wu, of_Z 1) (wd, of_Z 1) (floats ps))
    = repeat (of_Z 0) (length ps).
Proof.
  induction ps as [|[i x] ps IH]; intros p wu wd S Hu Hd; [reflexivity|].
  cbn [map snd] in S. inversion S as [|? ? S' R]; subst.
  inversion R as [|? ? Lt]; subst.
  cbn [floats map fst snd rsi_loop].
  rewrite (up_is_zero x p) by (now apply Qlt_le_weak).
  destruct (delta_up_down x p) as [_ [Nd [_ Pd]]].
  destruct (ewm_step_ok wd _ Hd Nd) as [wd' [-> [Nd' Pd']]].
  assert (Eu : ewm_step alpha14 (wu, of_Z 1) (Zero false) = (Zero false, of_Z 1))
    by (destruct Hu as [-> | ->]; reflexivity).
  rewrite Eu. cbn [fst values map snd length repeat].
  f_equal.
  - apply rsi_point_zero_up. apply Pd'. right. now apply Pd.
  - apply IH; [exact S' | now right | now right].
Qed.

(** X9. On prices that rise at every step [rsi] is exactly 100 at every
    point after the first, and on prices that fall at every step exactly
    0: with no move the other way the corresponding average stays zero
    from the start. *)
Theorem rsi_saturates_on_monotone_prices (series : Series Cell) :
  (Sorted Qlt (prices series) ->
   values (rsi series RSI_PERIOD)
   = match prices series with
     | [] => []
     | _ :: rest => NaN :: repeat (of_Z 100) (length rest)
     end)
  /\ (Sorted (fun a b => b < a) (prices series) ->
      values (rsi series RSI_PERIOD)
      = match prices series with
        | [] => []
        | _ :: rest => NaN :: repeat (of_Z 0) (length rest)
        end).
Proof.
  rewrite rsi_default_unfold. unfold prices.
  destruct (present series) as [|[i x] ps]; [split; reflexivity|].
  cbn [map snd values]. rewrite length_map. split; intro S.
  - f_equal. apply (rising_loop ps x NaN NaN S); now left.
  - f_equal. apply (falling_loop ps x NaN NaN S); now left.
Qed.

Lemma rsi_saturates_on_monotone_prices_witness :
  values (rsi (Sample.closes_on_trading_days [1; 2; 4]) RSI_PERIOD)
  = [NaN; of_Z 100; of_Z 100].
Proof.
  apply (proj1 (rsi_saturates_on_monotone_prices
                  (Sample.closes_on_trading_days [1; 2; 4]))).
  cbn. repeat constructor.
Defined.

(** ** [rsi] reads the differences only *)

Lemma rsi_loop_same_deltas (alpha : float) (ps : list (Z * Q)) :
  forall (qs : list (Z * Q)) (p q : Q) (su sd : float * float),
    map fst ps = map fst qs ->
    Forall2 Qeq (deltas p (map snd ps)) (deltas q (map snd qs)) ->
    rsi_loop alpha (of_Q p) su sd (floats ps)
    = rsi_loop alpha (of_Q q) su sd (floats qs).
Proof.
  induction ps as [|[i x] ps IH]; intros [|[j y] qs] p q su sd I D;
    try discriminate; [reflexivity|].
  cbn [map fst snd deltas] in *. injection I as -> I.
  inversion D as [|? ? ? ? E D']; subst.
  cbn [floats map fst snd rsi_loop].
  rewrite !fsub_of_Q_eq, (of_Q_compat _ _ E).
  f_equal. apply IH; assumption.
Qed.

(** X10. [rsi] depends on the prices through their successive differences
    only: two series with the same dates and the same differences from
    one price to the next get the same RSI series, whatever the level of
    the prices and the period. *)
Theorem rsi_depends_on_differences_only (s t : Series Cell) (period : Z) :
  index (dropna s) = index (dropna t) ->
  Forall2 Qeq (successive_differences (prices s)) (successive_differences (prices t)) ->
  rsi s period = rsi t period.
Proof.
  intros I D. rewrite !rsi_unfold, !astype_dropna.
  assert (I' : map fst (present s) = map fst (present t)).
  { rewrite <- !index_astype, !astype_dropna in I. unfold index, floats in I.
    now rewrite !map_map in I. }
  unfold prices in D.
  destruct (present s) as [|[i x] ps], (present t) as [|[j y] qs];
    try discriminate; [reflexivity|].
  cbn [map fst snd successive_differences floats] in *.
  injection I' as -> I'. f_equal.
  apply rsi_loop_same_deltas; assumption.
Qed.

Lemma rsi_depends_on_differences_only_witness :
  rsi (Sample.closes_on_trading_days [1; 2; 4]) RSI_PERIOD
  = rsi (Sample.closes_on_trading_days [11; 12; 14]) RSI_PERIOD.
Proof.
  apply rsi_depends_on_differences_only.
  - reflexivity.
  - cbn. repeat constructor.
Defined.

(** ** What [annual_vol] reads *)

Lemma present_app (a b : Series Cell) : present (a ++ b) = present a ++ present b.
Proof. apply flat_map_app. Qed.

Lemma prices_app (a b : Series Cell) : prices (a ++ b) = prices a ++ prices b.
Proof. unfold prices. now rewrite present_app, map_app. Qed.

Lemma lastn_app_r {A} (n : nat) (a b : list A) :
  (n <= length b)%nat -> lastn n (a ++ b) = lastn n b.
Proof.
  intro H. unfold lastn. rewrite length_app, skipn_app.
  rewrite skipn_all2 by lia. cbn [app]. f_equal. lia.
Qed.

Lemma window_is_lastn {A} (l : list A) :
  (if (252 <? length l)%nat then lastn 252 l else l) = lastn 252 l.
Proof.
  destruct (252 <? length l)%nat eqn:E; [reflexivity|].
  apply Nat.ltb_ge in E. symmetry. now apply lastn_all.
Qed.

Lemma annual_vol_of_window (ln sqrtQ : Q -> Q) (s : Series Cell) :
  (10 <= length (prices s))%nat ->
  annual_vol ln sqrtQ s
  = let valid := filter (fun r => negb (isnan r))
                   (log_returns ln (map of_Q (lastn 252 (prices s)))) in
    if (length valid <? 2)%nat then NaN
    else fmul (population_std sqrtQ valid) (np_sqrt sqrtQ (of_Z 252)).
Proof.
  intro H. rewrite annual_vol_meets_spec. unfold annual_vol_spec.
  rewrite length_map. apply Nat.ltb_ge in H. rewrite H.
  rewrite <- (length_map of_Q), window_is_lastn, lastn_map. reflexivity.
Qed.

(** X11. [annual_vol] reads the most recent 252 observations and nothing
    before them: bars older than that, however many and whatever their
    prices, do not change the volatility. *)
Theorem annual_vol_ignores_older_history
  (ln sqrtQ : Q -> Q) (older recent : Series Cell) :
  (252 <= length (prices recent))%nat ->
  annual_vol ln sqrtQ (older ++ recent) = annual_vol ln sqrtQ recent.
Proof.
  intro H. rewrite !annual_vol_of_window.
  - rewrite prices_app, lastn_app_r by exact H. reflexivity.
  - lia.
  - rewrite prices_app, length_app. lia.
Qed.

Lemma annual_vol_ignores_older_history_witness :
  annual_vol Sample.ln Sample.sqrtQ
    (Sample.closes_on_trading_days [1; 2; 3]
     ++ Sample.closes_on_trading_days (Sample.flat 252 50))
  = annual_vol Sample.ln Sample.sqrtQ
      (Sample.closes_on_trading_days (Sample.flat 252 50)).
Proof.
  apply annual_vol_ignores_older_history.
  apply Nat.leb_le. vm_compute. reflexivity.
Defined.

Lemma prices_scale (k : Q) (s : Series Cell) :
  prices (scale_prices k s) = map (Qmult k) (prices s).
Proof.
  unfold prices, present, scale_prices.
  induction s as [|[i [q|]] s IH]; cbn; [reflexivity | now rewrite IH | exact IH].
Qed.

Lemma Qltb_scale (k q : Q) : 0 < k -> Qltb (k * q) 0 = Qltb q 0.
Proof.
  intro H. destruct (Qltb q 0) eqn:E.
  - apply Qltb_lt in E. apply Qltb_lt.
    setoid_replace 0 with (k * 0) by ring. now apply Qmult_lt_l.
  - apply Qltb_ge in E. apply Qltb_ge.
    apply Qmult_le_0_compat; [now apply Qlt_le_weak | exact E].
Qed.

Lemma Qltb_compat (p q r : Q) : p == q -> Qltb p r = Qltb q r.
Proof.
  intro E. destruct (Qltb q r) eqn:H.
  - apply Qltb_lt. apply Qltb_lt in H. now rewrite E.
  - apply Qltb_ge. apply Qltb_ge in H. now rewrite E.
Qed.

Lemma fdiv_scale (k x p : Q) :
  0 < k -> fdiv (of_Q (k * x)) (of_Q (k * p)) = fdiv (of_Q x) (of_Q p).
Proof.
  intro H.
  assert (K : ~ k == 0) by (intro E; rewrite E in H; apply (Qlt_irrefl _ H)).
  assert (Z0 : forall y, y == 0 -> k * y == 0) by (intros y E; rewrite E; ring).
  assert (N0 : forall y, ~ y == 0 -> ~ k * y == 0).
  { intros y Ny E. apply Qmult_integral in E. tauto. }
  destruct (Qeq_dec x 0) as [Ex | Ex], (Qeq_dec p 0) as [Ep | Ep].
  - now rewrite (of_Q_zero _ (Z0 x Ex)), (of_Q_zero _ (Z0 p Ep)),
      (of_Q_zero x Ex), (of_Q_zero p Ep).
  - rewrite (of_Q_zero _ (Z0 x Ex)), (of_Q_nonzero _ (N0 p Ep)),
      (of_Q_zero x Ex), (of_Q_nonzero p Ep).
    cbn [fdiv fsign]. do 2 f_equal.
    rewrite (Qltb_compat _ _ 0 (Qred_correct (k * p))),
      (Qltb_compat _ _ 0 (Qred_correct p)).
    now apply Qltb_scale.
  - rewrite (of_Q_nonzero _ (N0 x Ex)), (of_Q_zero _ (Z0 p Ep)),
      (of_Q_nonzero x Ex), (of_Q_zero p Ep).
    cbn [fdiv fsign]. do 2 f_equal.
    rewrite (Qltb_compat _ _ 0 (Qred_correct (k * x))),
      (Qltb_compat _ _ 0 (Qred_correct x)).
    now apply Qltb_scale.
  - rewrite (of_Q_nonzero _ (N0 x Ex)), (of_Q_nonzero _ (N0 p Ep)),
      (of_Q_nonzero x Ex), (of_Q_nonzero p Ep).
    cbn [fdiv]. apply of_Q_compat. rewrite !Qred_correct. field. tauto.
Qed.

Lemma log_returns_scale (ln : Q -> Q) (k : Q) (l : list Q) :
  0 < k ->
  log_returns ln (map of_Q (map (Qmult k) l)) = log_returns ln (map of_Q l).
Proof.
  intro H. unfold log_returns. destruct l as [|p l]; [reflexivity|].
  cbn [map tl]. revert p. induction l as [|x l IH]; intro p; [reflexivity|].
  cbn [map combine fst snd]. rewrite (fdiv_scale k x p H). f_equal. apply IH.
Qed.

(** X12. [annual_vol] reads the prices through the quotients of
    successive prices only: multiplying every price by the same positive
    factor (another currency, a share split applied throughout) leaves
    the volatility as it is. *)
Theorem annual_vol_scale_invariant
  (ln sqrtQ : Q -> Q) (k : Q) (s : Series Cell) :
  0 < k -> annual_vol ln sqrtQ (scale_prices k s) = annual_vol ln sqrtQ s.
Proof.
  intro H. destruct (le_lt_dec 10 (length (prices s))) as [L | L].
  - rewrite !annual_vol_of_window; [| exact L | now rewrite prices_scale, length_map].
    rewrite prices_scale, lastn_map, (log_returns_scale ln k _ H). reflexivity.
  - rewrite !annual_vol_short; [reflexivity | exact L |].
    now rewrite prices_scale, length_map.
Qed.

Lemma annual_vol_scale_invariant_witness :
  annual_vol Sample.ln Sample.sqrtQ
    (scale_prices 3 (Sample.closes_on_trading_days [1; 2; 4]))
  = annual_vol Sample.ln Sample.sqrtQ (Sample.closes_on_trading_days [1; 2; 4]).
Proof. apply annual_vol_scale_invariant. reflexivity. Defined.

(** ** The weekly resample *)

Lemma fold_last_valid_some (l : list Cell) :
  forall q0, exists q',
    fold_left (fun acc c => match c with Some _ => c | None => acc end) l (Some q0)
    = Some q'.
Proof.
  induction l as [|c l IH]; intro q0; cbn; [eauto|].
  destruct c; apply IH.
Qed.

Lemma last_valid_of_in (l : list Cell) (q : Q) :
  In (Some q) l -> exists q', last_valid l = Some q'.
Proof.
  unfold last_valid. generalize (@None Q) as acc.
  induction l as [|c l IH]; intros acc H; [destruct H|].
  cbn. destruct H as [-> | H]; [apply fold_last_valid_some | now apply IH].
Qed.

Lemma filter_none {A} (ws : list A) : filter (fun _ : A => false) ws = [].
Proof. induction ws as [|w ws IH]; [reflexivity | exact IH]. Qed.

Lemma dropna_map {A} (F : A -> Z * Cell) (l : list A) :
  dropna (map F l)
  = map F (filter (fun a => match snd (F a) with Some _ => true | None => false end) l).
Proof.
  unfold dropna. induction l as [|a l IH]; [reflexivity|].
  cbn [map filter]. rewrite IH. cbv beta.
  destruct (F a) as [i [q|]] eqn:E; cbn [snd map]; rewrite ?E; reflexivity.
Qed.

Lemma resample_rows (df : DataFrame) :
  rows (resample_W_last df)
  = map (fun w =>
           (week_label w,
            map (fun j => last_valid
                            (map (fun r => nth j (snd r) None)
                               (filter (fun r => (week_of (fst r) =? w)%Z) (rows df))))
                (seq 0 (length (columns df)))))
        (week_bins df).
Proof.
  unfold resample_W_last, week_bins.
  destruct (map (fun r => week_of (fst r)) (rows df)); reflexivity.
Qed.

Lemma resample_columns (df : DataFrame) : columns (resample_W_last df) = columns df.
Proof.
  unfold resample_W_last. destruct (map _ (rows df)); reflexivity.
Qed.

(** The weekly closes, one per week that holds a close. *)
Lemma weekly_of_repr (df : DataFrame) (j : nat) :
  column_pos "Close" (columns df) = Some j ->
  weekly_of df
  = map (fun w => (week_label w,
                   last_valid (map (fun r => nth j (snd r) None)
                                 (filter (fun r => (week_of (fst r) =? w)%Z) (rows df)))))
      (filter (fun w =>
                 match last_valid (map (fun r => nth j (snd r) None)
                                     (filter (fun r => (week_of (fst r) =? w)%Z)
                                        (rows df)))
                 with Some _ => true | None => false end)
              (week_bins df)).
Proof.
  intro P. unfold weekly_of, getitem.
  rewrite resample_columns, P, resample_rows, map_map.
  pose proof (column_pos_lt _ _ _ P) as L.
  rewrite (map_ext _ (fun w =>
             (week_label w,
              last_valid (map (fun r => nth j (snd r) None)
                            (filter (fun r => (week_of (fst r) =? w)%Z) (rows df)))))).
  - apply dropna_map.
  - intro w. cbn [fst snd]. now rewrite nth_map_seq.
Qed.

Lemma in_valid_days (df : DataFrame) (j : nat) (d w : Z) :
  column_pos "Close" (columns df) = Some j ->
  In (d, w) (valid_days df) <->
  w = week_of d /\ exists r q, In r (rows df) /\ fst r = d
                               /\ nth j (snd r) None = Some q.
Proof.
  intro P. unfold valid_days, daily_of, getitem. rewrite P, in_map_iff. split.
  - intros [[i c] [E H]]. cbn in E. injection E as -> <-.
    unfold dropna in H. apply filter_In in H. destruct H as [H S].
    cbn in S. destruct c as [q|]; [|discriminate].
    apply in_map_iff in H. destruct H as [r [Er Hr]]. injection Er as Ei Ec.
    split; [reflexivity|]. exists r, q. auto.
  - intros [-> [r [q [Hr [Ei Ec]]]]]. exists (d, Some q). split; [reflexivity|].
    unfold dropna. apply filter_In. split; [|reflexivity].
    apply in_map_iff. exists r. split; [f_equal; assumption | exact Hr].
Qed.

Lemma length_weekly (df : DataFrame) :
  length (weekly_of df) = weeks_hit (week_bins df) (valid_days df).
Proof.
  destruct (column_pos "Close" (columns df)) as [j|] eqn:P.
  - rewrite (weekly_of_repr df j P), length_map. unfold weeks_hit. f_equal.
    apply filter_ext. intro w.
    set (cells := map (fun r => nth j (snd r) None)
                    (filter (fun r => (week_of (fst r) =? w)%Z) (rows df))).
    destruct (existsb (fun d => (snd d =? w)%Z) (valid_days df)) eqn:X.
    + apply existsb_exists in X. destruct X as [[d w'] [Hd E]].
      cbn in E. apply Z.eqb_eq in E. subst w'.
      apply (in_valid_days df j d w P) in Hd.
      destruct Hd as [-> [r [q [Hr [Ei Ec]]]]].
      destruct (last_valid_of_in cells q) as [q' ->]; [|reflexivity].
      subst cells. apply in_map_iff. exists r. split; [exact Ec|].
      apply filter_In. split; [exact Hr|]. rewrite Ei. apply Z.eqb_refl.
    + destruct (last_valid cells) as [q|] eqn:V; [|reflexivity].
      exfalso. unfold last_valid in V. apply last_valid_in in V.
      destruct V as [V | V]; [|discriminate].
      subst cells. apply in_map_iff in V. destruct V as [r [Ec Hr]].
      apply filter_In in Hr. destruct Hr as [Hr Ew]. apply Z.eqb_eq in Ew.
      assert (Hd : In (fst r, w) (valid_days df)).
      { apply (in_valid_days df j); [exact P|]. split; [now symmetry|].
        exists r, q. auto. }
      assert (T : existsb (fun d => (snd d =? w)%Z) (valid_days df) = true).
      { apply existsb_exists. exists (fst r, w). split; [exact Hd|].
        apply Z.eqb_refl. }
      congruence.
  - unfold weekly_of, valid_days, daily_of, getitem.
    rewrite resample_columns, P. cbn. unfold weeks_hit. cbn.
    now rewrite filter_none.
Qed.

(** *** Counting weeks and days *)

Lemma existsb_filter_other (w w' : Z) (days : list (Z * Z)) :
  w' <> w ->
  existsb (fun d => (snd d =? w')%Z)
    (filter (fun d => negb (snd d =? w)%Z) days)
  = existsb (fun d => (snd d =? w')%Z) days.
Proof.
  intro N. induction days as [|d days IH]; [reflexivity|].
  cbn. destruct (snd d =? w)%Z eqn:E; cbn; [|now rewrite IH].
  apply Z.eqb_eq in E. rewrite IH.
  destruct (snd d =? w')%Z eqn:E'; [|reflexivity].
  apply Z.eqb_eq in E'. congruence.
Qed.

Lemma weeks_hit_filter_other (w : Z) (ws : list Z) (days : list (Z * Z)) :
  ~ In w ws ->
  weeks_hit ws (filter (fun d => negb (snd d =? w)%Z) days) = weeks_hit ws days.
Proof.
  intro N. unfold weeks_hit. f_equal. apply filter_ext_in. intros w' H.
  apply existsb_filter_other. intros ->. contradiction.
Qed.

Lemma weeks_hit_cons (w : Z) (ws : list Z) (days : list (Z * Z)) :
  weeks_hit (w :: ws) days
  = ((if existsb (fun d => (snd d =? w)%Z) days then 1 else 0) + weeks_hit ws days)%nat.
Proof.
  unfold weeks_hit. cbn. destruct (existsb _ days); reflexivity.
Qed.

Lemma split_by_week (w : Z) (days : list (Z * Z)) :
  (length (filter (fun d => (snd d =? w)%Z) days)
   + length (filter (fun d => negb (snd d =? w)%Z) days))%nat = length days.
Proof. apply filter_length. Qed.

Lemma existsb_week_nonempty (w : Z) (days : list (Z * Z)) :
  existsb (fun d => (snd d =? w)%Z) days = true ->
  (1 <= length (filter (fun d => (snd d =? w)%Z) days))%nat.
Proof.
  intro H. apply existsb_exists in H. destruct H as [d [Hd E]].
  assert (I : In d (filter (fun d => (snd d =? w)%Z) days))
    by (apply filter_In; auto).
  destruct (filter _ days); [destruct I | cbn; lia].
Qed.

Lemma existsb_week_empty (w : Z) (days : list (Z * Z)) :
  existsb (fun d => (snd d =? w)%Z) days = false ->
  filter (fun d => (snd d =? w)%Z) days = [].
Proof.
  intro H. induction days as [|d days IH]; [reflexivity|].
  cbn in *. apply orb_false_iff in H. destruct H as [H1 H2].
  rewrite H1. now apply IH.
Qed.

Lemma weeks_hit_le_days (ws : list Z) :
  NoDup ws -> forall days, (weeks_hit ws days <= length days)%nat.
Proof.
  induction 1 as [|w ws N ND IH]; intro days.
  - cbn. lia.
  - rewrite weeks_hit_cons.
    rewrite <- (weeks_hit_filter_other w ws days N).
    specialize (IH (filter (fun d => negb (snd d =? w)%Z) days)).
    pose proof (split_by_week w days) as S.
    destruct (existsb (fun d => (snd d =? w)%Z) days) eqn:X.
    + apply existsb_week_nonempty in X. lia.
    + lia.
Qed.

Lemma week_of_weekday (d w : Z) :
  weekday d -> week_of d = w ->
  In d [7 * w + 1; 7 * w + 2; 7 * w + 3; 7 * w + 4; 7 * w + 5]%Z.
Proof.
  unfold weekday, week_of. intros H E. cbn.
  assert (d = 7 * w + 1 \/ d = 7 * w + 2 \/ d = 7 * w + 3 \/ d = 7 * w + 4
          \/ d = 7 * w + 5)%Z
    by (Z.to_euclidean_division_equations; lia).
  intuition.
Qed.

Lemma one_week_has_five_days (w : Z) (days : list (Z * Z)) :
  NoDup (map fst days) ->
  (forall d, In d days -> weekday (fst d) /\ snd d = week_of (fst d)) ->
  (length (filter (fun d => (snd d =? w)%Z) days) <= 5)%nat.
Proof.
  intros ND H.
  rewrite <- (length_map fst).
  change 5%nat
    with (length [7 * w + 1; 7 * w + 2; 7 * w + 3; 7 * w + 4; 7 * w + 5]%Z).
  apply NoDup_incl_length.
  - apply NoDup_map_filter. exact ND.
  - intros x Hx. apply in_map_iff in Hx. destruct Hx as [d [<- Hd]].
    apply filter_In in Hd. destruct Hd as [Hd E]. apply Z.eqb_eq in E.
    destruct (H d Hd) as [Wd Ew]. apply week_of_weekday; congruence.
Qed.

Lemma days_le_five_per_week (ws : list Z) :
  NoDup ws ->
  forall days,
    NoDup (map fst days) ->
    (forall d, In d days -> weekday (fst d) /\ snd d = week_of (fst d)) ->
    (forall d, In d days -> In (snd d) ws) ->
    (length days <= 5 * weeks_hit ws days)%nat.
Proof.
  induction 1 as [|w ws N ND IH]; intros days NDd W I.
  - destruct days as [|d days]; [cbn; lia|]. destruct (I d (or_introl eq_refl)).
  - rewrite weeks_hit_cons.
    rewrite <- (weeks_hit_filter_other w ws days N).
    set (rest := filter (fun d => negb (snd d =? w)%Z) days).
    assert (IH' : (length rest <= 5 * weeks_hit ws rest)%nat).
    { apply IH.
      - apply NoDup_map_filter. exact NDd.
      - intros d Hd. apply filter_In in Hd. apply W. tauto.
      - intros d Hd. apply filter_In in Hd. destruct Hd as [Hd E].
        destruct (I d Hd) as [E' | Hin]; [|exact Hin].
        apply negb_true_iff, Z.eqb_neq in E. congruence. }
    pose proof (split_by_week w days) as S. fold rest in S.
    pose proof (one_week_has_five_days w days NDd W) as F.
    destruct (existsb (fun d => (snd d =? w)%Z) days) eqn:X.
    + lia.
    + rewrite (existsb_week_empty w days X) in S. cbn in S. lia.
Qed.

(** *** The weeks of a frame *)

Lemma fold_min_le (l : list Z) :
  forall a, (fold_left Z.min l a <= a)%Z
            /\ forall x, In x l -> (fold_left Z.min l a <= x)%Z.
Proof.
  induction l as [|y l IH]; intro a; cbn; [split; [lia | intros x []]|].
  destruct (IH (Z.min a y)) as [I1 I2]. split; [lia|].
  intros x [-> | H]; [lia | now apply I2].
Qed.

Lemma fold_max_ge (l : list Z) :
  forall a, (a <= fold_left Z.max l a)%Z
            /\ forall x, In x l -> (x <= fold_left Z.max l a)%Z.
Proof.
  induction l as [|y l IH]; intro a; cbn; [split; [lia | intros x []]|].
  destruct (IH (Z.max a y)) as [I1 I2]. split; [lia|].
  intros x [-> | H]; [lia | now apply I2].
Qed.

Lemma NoDup_consecutive (lo : Z) (n a : nat) :
  NoDup (map (fun k => (lo + Z.of_nat k)%Z) (seq a n)).
Proof.
  revert a. induction n as [|n IH]; intro a; cbn; constructor; [|apply IH].
  intro H. apply in_map_iff in H. destruct H as [k [E Hk]].
  apply in_seq in Hk. lia.
Qed.

Lemma NoDup_week_bins (df : DataFrame) : NoDup (week_bins df).
Proof.
  unfold week_bins. destruct (map _ (rows df)); [constructor|].
  apply NoDup_consecutive.
Qed.

Lemma in_week_bins (df : DataFrame) (r : Z * list Cell) :
  In r (rows df) -> In (week_of (fst r)) (week_bins df).
Proof.
  intro H. unfold week_bins.
  assert (Hw : In (week_of (fst r)) (map (fun r => week_of (fst r)) (rows df)))
    by (apply in_map_iff; eauto).
  destruct (map (fun r => week_of (fst r)) (rows df)) as [|w0 ws]; [destruct Hw|].
  destruct (fold_min_le ws w0) as [L1 L2]. destruct (fold_max_ge ws w0) as [U1 U2].
  set (lo := fold_left Z.min ws w0) in *. set (hi := fold_left Z.max ws w0) in *.
  set (w := week_of (fst r)) in *.
  assert (B : (lo <= w <= hi)%Z).
  { destruct Hw as [<- | Hw]; [lia|]. split; [now apply L2 | now apply U2]. }
  apply in_map_iff. exists (Z.to_nat (w - lo)). split; [lia|].
  apply in_seq. lia.
Qed.

Lemma valid_days_facts (df : DataFrame) (d : Z * Z) :
  In d (valid_days df) -> snd d = week_of (fst d) /\ In (snd d) (week_bins df).
Proof.
  destruct d as [i w]. intro H.
  destruct (column_pos "Close" (columns df)) as [j|] eqn:P.
  - apply (in_valid_days df j i w P) in H.
    destruct H as [-> [r [q [Hr [<- _]]]]]. split; [reflexivity|].
    now apply in_week_bins.
  - unfold valid_days, daily_of, getitem in H. rewrite P in H. destruct H.
Qed.

Lemma length_valid_days (df : DataFrame) :
  length (valid_days df) = length (daily_of df).
Proof. apply length_map. Qed.

Lemma index_valid_days (df : DataFrame) :
  map fst (valid_days df) = index (daily_of df).
Proof. unfold valid_days, index. now rewrite map_map. Qed.

Lemma sunday_label (w : Z) : ((week_label w - 1) mod 7 = 6)%Z.
Proof. unfold week_label. Z.to_euclidean_division_equations. lia. Qed.

(** X13. Resampling to weeks never adds an observation: the weekly
    series has at most as many points as the cleaned daily series, each
    weekly close is one of the daily closes, and each weekly point is
    dated on a Sunday. *)
Theorem weekly_is_drawn_from_daily (df : DataFrame) :
  (length (weekly_of df) <= length (daily_of df))%nat
  /\ (forall q, In q (prices (weekly_of df)) -> In q (prices (daily_of df)))
  /\ Forall (fun d => ((d - 1) mod 7 = 6)%Z) (index (weekly_of df)).
Proof.
  split; [|split].
  - rewrite length_weekly, <- length_valid_days.
    apply weeks_hit_le_days, NoDup_week_bins.
  - apply weekly_prices_in_daily.
  - destruct (column_pos "Close" (columns df)) as [j|] eqn:P.
    + rewrite (weekly_of_repr df j P). unfold index. rewrite map_map.
      apply Forall_forall. intros d H. apply in_map_iff in H.
      destruct H as [w [<- _]]. cbn [fst]. apply sunday_label.
    + unfold weekly_of, getitem. rewrite resample_columns, P. constructor.
Qed.

(** X14. When the daily bars are dated on distinct days from Monday to
    Friday, a week holds at most five of them, so the daily series has at
    most five times as many points as the weekly one: a ticker with 40
    daily observations has its 8 weekly ones, and the weekly test of the
    selection loop rejects nothing the daily test let through. *)
Theorem weekdays_give_eight_weeks (df : DataFrame) :
  NoDup (index (daily_of df)) ->
  Forall weekday (index (daily_of df)) ->
  (length (daily_of df) <= 5 * length (weekly_of df))%nat
  /\ ((40 <= length (daily_of df))%nat -> (8 <= length (weekly_of df))%nat).
Proof.
  intros ND W.
  assert (L : (length (daily_of df) <= 5 * length (weekly_of df))%nat).
  { rewrite length_weekly, <- length_valid_days.
    apply days_le_five_per_week.
    - apply NoDup_week_bins.
    - now rewrite index_valid_days.
    - intros d Hd. split; [|exact (proj1 (valid_days_facts df d Hd))].
      rewrite Forall_forall in W. apply W. rewrite <- index_valid_days.
      now apply in_map.
    - intros d Hd. exact (proj2 (valid_days_facts df d Hd)). }
  split; [exact L | lia].
Qed.

Lemma increasing_NoDup (l : list Z) : Sorted Z.lt l -> NoDup l.
Proof.
  intro S. apply Sorted_StronglySorted in S; [|intros x y z; lia].
  induction S as [|a l S IH F]; constructor; [|exact IH].
  intro H. rewrite Forall_forall in F. specialize (F a H). lia.
Qed.

Lemma weekdays_by_check (l : list Z) :
  forallb (fun d => ((d - 1) mod 7 <? 5)%Z) l = true -> Forall weekday l.
Proof.
  intro H. apply Forall_forall. intros d Hd.
  rewrite forallb_forall in H. apply Z.ltb_lt. now apply H.
Qed.

Lemma weekdays_give_eight_weeks_witness :
  (8 <= length (weekly_of (Sample.bars (Sample.flat 40 50))))%nat.
Proof.
  apply (weekdays_give_eight_weeks (Sample.bars (Sample.flat 40 50))).
  - apply increasing_NoDup. vm_compute. repeat (constructor; try reflexivity).
  - apply weekdays_by_check. vm_compute. reflexivity.
  - apply Nat.leb_le. vm_compute. reflexivity.
Defined.

(** ** The sparkline *)

Lemma stands_for_compat (x : float) (a b : Q) :
  stands_for x a -> a == b -> stands_for x b.
Proof.
  destruct x; cbn [stands_for]; intros H E; try contradiction.
  - now rewrite <- E.
  - now rewrite <- E.
Qed.

Lemma stands_of_Q (q : Q) : stands_for (of_Q q) q.
Proof.
  unfold of_Q. destruct (Qeq_bool q 0) eqn:E; cbn [stands_for].
  - now apply Qeq_bool_iff.
  - apply Qred_correct.
Qed.

Lemma stands_of_Z (z : Z) : stands_for (of_Z z) (inject_Z z).
Proof. apply stands_of_Q. Qed.

Lemma stands_fneg (x : float) (a : Q) :
  stands_for x a -> stands_for (fneg x) (- a).
Proof.
  destruct x; cbn [stands_for fneg]; intro H; try contradiction.
  - rewrite H. reflexivity.
  - rewrite Qred_correct, H. reflexivity.
Qed.

Lemma stands_fadd (x y : float) (a b : Q) :
  stands_for x a -> stands_for y b -> stands_for (fadd x y) (a + b).
Proof.
  destruct x as [| |s|p], y as [| |t|q]; cbn [stands_for fadd];
    intros Ha Hb; try contradiction.
  - rewrite Ha, Hb. reflexivity.
  - rewrite Ha, Hb. ring.
  - rewrite Ha, Hb. ring.
  - apply (stands_for_compat _ (p + q)); [apply stands_of_Q|].
    rewrite Ha, Hb. reflexivity.
Qed.

Lemma stands_fsub (x y : float) (a b : Q) :
  stands_for x a -> stands_for y b -> stands_for (fsub x y) (a - b).
Proof.
  intros Ha Hb. unfold fsub, Qminus. apply stands_fadd; [exact Ha|].
  now apply stands_fneg.
Qed.

Lemma stands_fmul (x y : float) (a b : Q) :
  stands_for x a -> stands_for y b -> stands_for (fmul x y) (a * b).
Proof.
  destruct x as [| |s|p], y as [| |t|q]; cbn [stands_for fmul];
    intros Ha Hb; try contradiction.
  - rewrite Ha. ring.
  - rewrite Ha. ring.
  - rewrite Hb. ring.
  - apply (stands_for_compat _ (p * q)); [apply stands_of_Q|].
    rewrite Ha, Hb. reflexivity.
Qed.

Lemma stands_fdiv (x y : float) (a b : Q) :
  stands_for x a -> stands_for y b -> ~ b == 0 -> stands_for (fdiv x y) (a / b).
Proof.
  destruct x as [| |s|p], y as [| |t|q]; cbn [stands_for fdiv];
    intros Ha Hb N; try contradiction.
  - rewrite Ha. unfold Qdiv. ring.
  - apply (stands_for_compat _ (p / q)); [apply stands_of_Q|].
    rewrite Ha, Hb. reflexivity.
Qed.

Lemma Qle_bool_compat (p q a b : Q) :
  p == a -> q == b -> Qle_bool p q = Qle_bool a b.
Proof.
  intros Ea Eb. destruct (Qle_bool a b) eqn:E.
  - apply Qle_bool_iff. apply Qle_bool_iff in E. now rewrite Ea, Eb.
  - destruct (Qle_bool p q) eqn:F; [|reflexivity].
    apply Qle_bool_iff in F. rewrite Ea, Eb in F. apply Qle_bool_iff in F.
    congruence.
Qed.

Lemma Qltb_compat2 (p q a b : Q) :
  p == a -> q == b -> Qltb p q = Qltb a b.
Proof.
  intros Ea Eb. destruct (Qltb a b) eqn:E.
  - apply Qltb_lt. apply Qltb_lt in E. now rewrite Ea, Eb.
  - apply Qltb_ge. apply Qltb_ge in E. now rewrite Ea, Eb.
Qed.

Lemma Qeq_bool_compat (p q a b : Q) :
  p == a -> q == b -> Qeq_bool p q = Qeq_bool a b.
Proof.
  intros Ea Eb. destruct (Qeq_bool a b) eqn:E.
  - apply Qeq_bool_iff. apply Qeq_bool_iff in E. now rewrite Ea, Eb.
  - apply Qeq_bool_false_iff. apply Qeq_bool_false_iff in E. now rewrite Ea, Eb.
Qed.

Lemma stands_rank (x : float) (a : Q) :
  stands_for x a -> exists p, rank x = Some (0%Z, p) /\ p == a.
Proof.
  destruct x as [| |s|p]; cbn [stands_for rank]; intro H; try contradiction.
  - exists 0. split; [reflexivity | now symmetry].
  - exists p. split; [reflexivity | exact H].
Qed.

Lemma stands_fleb (x y : float) (a b : Q) :
  stands_for x a -> stands_for y b -> fleb x y = Qle_bool a b.
Proof.
  intros Ha Hb. destruct (stands_rank x a Ha) as [p [Rx Ep]].
  destruct (stands_rank y b Hb) as [q [Ry Eq]].
  unfold fleb. rewrite Rx, Ry. cbn [Z.ltb Z.eqb Z.compare orb andb].
  now apply Qle_bool_compat.
Qed.

Lemma stands_fltb (x y : float) (a b : Q) :
  stands_for x a -> stands_for y b -> fltb x y = Qltb a b.
Proof.
  intros Ha Hb. destruct (stands_rank x a Ha) as [p [Rx Ep]].
  destruct (stands_rank y b Hb) as [q [Ry Eq]].
  unfold fltb. rewrite Rx, Ry. cbn [Z.ltb Z.eqb Z.compare orb andb].
  now apply Qltb_compat2.
Qed.

Lemma stands_feqb (x y : float) (a b : Q) :
  stands_for x a -> stands_for y b -> feqb x y = Qeq_bool a b.
Proof.
  intros Ha Hb. destruct (stands_rank x a Ha) as [p [Rx Ep]].
  destruct (stands_rank y b Hb) as [q [Ry Eq]].
  unfold feqb. rewrite Rx, Ry. cbn [Z.eqb Z.compare andb].
  now apply Qeq_bool_compat.
Qed.

Lemma stands_fle (x y : float) (a b : Q) :
  stands_for x a -> stands_for y b -> a <= b -> fle x y.
Proof.
  intros Ha Hb L. unfold fle. rewrite (stands_fleb x y a b Ha Hb).
  now apply Qle_bool_iff.
Qed.


Lemma stands_feq (x y : float) (a b : Q) :
  stands_for x a -> stands_for y b -> a == b -> feqb x y = true.
Proof.
  intros Ha Hb L. rewrite (stands_feqb x y a b Ha Hb). now apply Qeq_bool_iff.
Qed.

Lemma stands_not_nan (x : float) (a : Q) : stands_for x a -> isnan x = false.
Proof. destruct x; cbn; intro H; try contradiction; reflexivity. Qed.

Lemma fmin_stands (x y : float) (a b : Q) :
  stands_for x a -> stands_for y b ->
  exists m, stands_for (fmin x y) m /\ m <= a /\ m <= b /\ (m == a \/ m == b).
Proof.
  intros Ha Hb. unfold fmin.
  rewrite (stands_not_nan x a Ha), (stands_not_nan y b Hb),
    (stands_fltb y x b a Hb Ha).
  destruct (Qltb b a) eqn:E.
  - apply Qltb_lt in E. exists b. repeat split; auto; lra.
  - apply Qltb_ge in E. exists a. repeat split; auto; lra.
Qed.

Lemma fmax_stands (x y : float) (a b : Q) :
  stands_for x a -> stands_for y b ->
  exists m, stands_for (fmax x y) m /\ a <= m /\ b <= m /\ (m == a \/ m == b).
Proof.
  intros Ha Hb. unfold fmax.
  rewrite (stands_not_nan x a Ha), (stands_not_nan y b Hb),
    (stands_fltb x y a b Ha Hb).
  destruct (Qltb a b) eqn:E.
  - apply Qltb_lt in E. exists b. repeat split; auto; lra.
  - apply Qltb_ge in E. exists a. repeat split; auto; lra.
Qed.

Lemma fold_fmin_stands (rest : list Q) :
  forall acc a, stands_for acc a ->
    exists m, stands_for (fold_left fmin (map of_Q rest) acc) m
              /\ m <= a /\ (forall q, In q rest -> m <= q)
              /\ (m == a \/ exists q, In q rest /\ m == q).
Proof.
  induction rest as [|q rest IH]; intros acc a Ha.
  - exists a. cbn. repeat split; auto; try lra. intros q [].
  - cbn [map fold_left].
    destruct (fmin_stands acc (of_Q q) a q Ha (stands_of_Q q))
      as [m [Hm [L1 [L2 C]]]].
    destruct (IH _ m Hm) as [m' [Hm' [L [A C']]]].
    exists m'. split; [exact Hm'|]. split; [lra|]. split.
    + intros r [<- | Hr]; [lra | now apply A].
    + destruct C' as [E | [r [Hr E]]].
      * destruct C as [C | C]; [left; lra | right; exists q; split; [now left | lra]].
      * right. exists r. split; [now right | exact E].
Qed.

Lemma fold_fmax_stands (rest : list Q) :
  forall acc a, stands_for acc a ->
    exists m, stands_for (fold_left fmax (map of_Q rest) acc) m
              /\ a <= m /\ (forall q, In q rest -> q <= m)
              /\ (m == a \/ exists q, In q rest /\ m == q).
Proof.
  induction rest as [|q rest IH]; intros acc a Ha.
  - exists a. cbn. repeat split; auto; try lra. intros q [].
  - cbn [map fold_left].
    destruct (fmax_stands acc (of_Q q) a q Ha (stands_of_Q q))
      as [m [Hm [L1 [L2 C]]]].
    destruct (IH _ m Hm) as [m' [Hm' [L [A C']]]].
    exists m'. split; [exact Hm'|]. split; [lra|]. split.
    + intros r [<- | Hr]; [lra | now apply A].
    + destruct C' as [E | [r [Hr E]]].
      * destruct C as [C | C]; [left; lra | right; exists q; split; [now left | lra]].
      * right. exists r. split; [now right | exact E].
Qed.

Lemma inject_Z_sub (a b : Z) : inject_Z (a - b) == inject_Z a - inject_Z b.
Proof.
  unfold Z.sub, Qminus. now rewrite inject_Z_plus, inject_Z_opp.
Qed.

Lemma frac_bounds (mn mx q : Q) :
  mn < mx -> mn <= q <= mx -> 0 <= (q - mn) / (mx - mn) <= 1.
Proof.
  intros D B. split.
  - apply Qle_shift_div_l; lra.
  - apply Qle_shift_div_r; lra.
Qed.

Lemma frac_mono (mn mx p q : Q) :
  mn < mx -> p <= q -> (p - mn) / (mx - mn) <= (q - mn) / (mx - mn).
Proof.
  intros D L. apply Qle_shift_div_l; [lra|].
  rewrite Qmult_comm, Qmult_div_r; lra.
Qed.

Lemma frac_one (mn mx p : Q) : mn < mx -> p == mx -> (p - mn) / (mx - mn) == 1.
Proof. intros D E. rewrite E. field. lra. Qed.

Lemma frac_zero (mn mx p : Q) : p == mn -> (p - mn) / (mx - mn) == 0.
Proof. intros E. rewrite E. unfold Qdiv. ring. Qed.

(** The heights of the points, as rationals: [mn] and [mx] are the least
    and the greatest value. *)
Lemma sparkline_ys_stands (q0 : Q) (rest : list Q) (h : Z) :
  exists mn mx,
    (forall q, In q (q0 :: rest) -> mn <= q <= mx)
    /\ (exists q, In q (q0 :: rest) /\ q == mn)
    /\ (exists q, In q (q0 :: rest) /\ q == mx)
    /\ exists f,
         sparkline_ys (map of_Q (q0 :: rest)) h = map f (q0 :: rest)
         /\ forall q,
              stands_for (f q)
                (if Qeq_bool mx mn then inject_Z h / 2
                 else inject_Z h - (q - mn) / (mx - mn) * inject_Z (h - 6) - 3).
Proof.
  destruct (fold_fmin_stands rest (of_Q q0) q0 (stands_of_Q q0))
    as [mn [Hmn [L0 [L C]]]].
  destruct (fold_fmax_stands rest (of_Q q0) q0 (stands_of_Q q0))
    as [mx [Hmx [U0 [U D]]]].
  exists mn, mx. split; [|split; [|split]].
  - intros q [<- | Hq]; [lra|]. split; [now apply L | now apply U].
  - destruct C as [E | [q [Hq E]]].
    + exists q0. split; [now left | lra].
    + exists q. split; [now right | lra].
  - destruct D as [E | [q [Hq E]]].
    + exists q0. split; [now left | lra].
    + exists q. split; [now right | lra].
  - unfold sparkline_ys. cbn [map].
    rewrite (stands_feqb _ _ mx mn Hmx Hmn).
    change (of_Q q0 :: map of_Q rest) with (map of_Q (q0 :: rest)).
    destruct (Qeq_bool mx mn) eqn:E.
    + exists (fun _ => fmul (of_Z 1) (of_Q (inject_Z h / 2))). split.
      * now rewrite map_map.
      * intro q. eapply stands_for_compat.
        -- apply stands_fmul; [apply stands_of_Z | apply stands_of_Q].
        -- change (inject_Z 1) with 1. ring.
    + apply Qeq_bool_false_iff in E.
      exists (fun q =>
                fsub (fsub (of_Z h)
                        (fmul (fdiv (fsub (of_Q q) (fold_left fmin (map of_Q rest) (of_Q q0)))
                                 (fsub (fold_left fmax (map of_Q rest) (of_Q q0))
                                    (fold_left fmin (map of_Q rest) (of_Q q0))))
                           (of_Z (h - 6))))
                     (of_Z 3)).
      split; [now rewrite map_map|].
      intro q. change 3 with (inject_Z 3).
      apply stands_fsub; [|apply stands_of_Z].
      apply stands_fsub; [apply stands_of_Z|].
      apply stands_fmul; [|apply stands_of_Z].
      apply stands_fdiv.
      * apply stands_fsub; [apply stands_of_Q | exact Hmn].
      * apply stands_fsub; assumption.
      * intro Z. apply E. lra.
Qed.

Lemma nth_error_map_some {A B} (f : A -> B) (l : list A) (i : nat) (a : A) (b : B) :
  nth_error l i = Some a -> nth_error (map f l) i = Some b -> b = f a.
Proof.
  intros Ha Hb. rewrite nth_error_map, Ha in Hb. cbn in Hb. congruence.
Qed.

(** X15. The sparkline draws higher prices higher.  For finite values and
    a height of at least 6 there is one height per value; a value that is
    not below another is not drawn below it (its [y] is not greater);
    unless all values are equal, a greatest value is drawn at [y = 3] and
    a least one at [y = height - 3]; when all values are equal, every
    point is drawn at half the height. *)
Theorem sparkline_draws_higher_prices_higher (qs : list Q) (height : Z) :
  (6 <= height)%Z ->
  let ys := sparkline_ys (map of_Q qs) height in
  length ys = length qs
  /\ (forall i j p q yi yj,
        nth_error qs i = Some p -> nth_error qs j = Some q ->
        nth_error ys i = Some yi -> nth_error ys j = Some yj ->
        p <= q -> fle yj yi)
  /\ (forall i p yi,
        nth_error qs i = Some p -> nth_error ys i = Some yi ->
        (exists q, In q qs /\ ~ q == p) ->
        ((forall q, In q qs -> q <= p) -> feqb yi (of_Z 3) = true)
        /\ ((forall q, In q qs -> p <= q) -> feqb yi (of_Z (height - 3)) = true))
  /\ ((forall p q, In p qs -> In q qs -> p == q) ->
      forall y, In y ys -> feqb y (of_Q (inject_Z height / 2)) = true).
Proof.
  intros H ys. subst ys.
  destruct qs as [|q0 rest].
  { cbn. split; [reflexivity|]. split; [|split].
    - intros [|i] j p q yi yj Hp; discriminate.
    - intros [|i] p yi Hp; discriminate.
    - intros _ y []. }
  destruct (sparkline_ys_stands q0 rest height)
    as [mn [mx [B [[qmn [Imn Emn]] [[qmx [Imx Emx]] [f [E F]]]]]]].
  rewrite E.
  assert (K : 0 <= inject_Z (height - 6)).
  { change 0 with (inject_Z 0). rewrite <- Zle_Qle. lia. }
  assert (M : mn <= mx) by (specialize (B q0 (or_introl eq_refl)); lra).
  split; [apply length_map|]. split; [|split].
  - intros i j p q yi yj Hp Hq Hi Hj L.
    rewrite (nth_error_map_some f _ i p yi Hp Hi).
    rewrite (nth_error_map_some f _ j q yj Hq Hj).
    apply (stands_fle _ _ _ _ (F q) (F p)).
    destruct (Qeq_bool mx mn) eqn:Q; [lra|].
    apply Qeq_bool_false_iff in Q.
    assert (D : mn < mx).
    { destruct (Qlt_le_dec mn mx) as [D | D]; [exact D|]. exfalso. apply Q. lra. }
    pose proof (frac_mono mn mx p q D L) as T.
    generalize dependent ((p - mn) / (mx - mn)).
    generalize dependent ((q - mn) / (mx - mn)).
    intros u t T. nra.
  - intros i p yi Hp Hi [q [Iq Nq]].
    rewrite (nth_error_map_some f _ i p yi Hp Hi).
    pose proof (nth_error_In _ _ Hp) as Ip.
    assert (D : mn < mx).
    { destruct (B p Ip) as [P1 P2]. destruct (B q Iq) as [Q1 Q2].
      destruct (Qlt_le_dec mn mx) as [D | D]; [exact D|]. exfalso. apply Nq. lra. }
    assert (Q : Qeq_bool mx mn = false) by (apply Qeq_bool_false_iff; lra).
    pose proof (F p) as Fp. rewrite Q in Fp.
    split; intro X.
    + assert (Ep : p == mx).
      { specialize (X qmx Imx). destruct (B p Ip). lra. }
      apply (stands_feq _ _ _ _ Fp (stands_of_Z 3)).
      rewrite (frac_one mn mx p D Ep). change (inject_Z 3) with 3.
      rewrite inject_Z_sub. change (inject_Z 6) with 6. ring.
    + assert (Ep : p == mn).
      { specialize (X qmn Imn). destruct (B p Ip). lra. }
      apply (stands_feq _ _ _ _ Fp (stands_of_Z (height - 3))).
      rewrite (frac_zero mn mx p Ep), !inject_Z_sub.
      change (inject_Z 3) with 3. ring.
  - intros A y Hy. apply in_map_iff in Hy. destruct Hy as [q [<- Hq]].
    assert (Q : Qeq_bool mx mn = true).
    { apply Qeq_bool_iff. rewrite <- Emn, <- Emx. now apply A. }
    pose proof (F q) as Fq. rewrite Q in Fq.
    apply (stands_feq _ _ _ _ Fq (stands_of_Q _)). reflexivity.
Qed.

Lemma sparkline_draws_higher_prices_higher_witness :
  length (sparkline_ys (map of_Q [1; 2; 4]) 36) = length [1; 2; 4].
Proof.
  apply (sparkline_draws_higher_prices_higher [1; 2; 4] 36). lia.
Defined.

(** *** The abscissae *)

Lemma nth_error_seq0 (n i : nat) : (i < n)%nat -> nth_error (seq 0 n) i = Some i.
Proof.
  intro H. rewrite (nth_error_nth' _ O) by (now rewrite length_seq).
  now rewrite seq_nth.
Qed.

Lemma length_linspace (start stop : Z) (n : nat) :
  length (linspace start stop n) = n.
Proof. unfold linspace. now rewrite length_map, length_seq. Qed.

(** Point [i] of [linspace] is [start + i * (stop - start) / (n - 1)]. *)
Lemma linspace_stands (start stop : Z) (n i : nat) :
  (2 <= n)%nat -> (i < n)%nat ->
  exists x, nth_error (linspace start stop n) i = Some x
            /\ stands_for x
                 (inject_Z start
                  + inject_Z (Z.of_nat i)
                    * (inject_Z (stop - start) / inject_Z (Z.of_nat (n - 1)))).
Proof.
  intros N I. unfold linspace.
  rewrite nth_error_map, (nth_error_seq0 n i I). cbn [option_map].
  eexists. split; [reflexivity|].
  assert (P : 0 < inject_Z (Z.of_nat (n - 1))).
  { change 0 with (inject_Z 0). rewrite <- Zlt_Qlt. lia. }
  assert (NZ : ~ inject_Z (Z.of_nat (n - 1)) == 0) by lra.
  destruct ((0 <? i)%nat && (i =? n - 1)%nat) eqn:C.
  - apply andb_prop in C. destruct C as [_ C]. apply Nat.eqb_eq in C. subst i.
    eapply stands_for_compat; [apply stands_of_Z|].
    rewrite inject_Z_sub. field. exact NZ.
  - assert (D : (0 <? Z.of_nat (n - 1))%Z = true) by (apply Z.ltb_lt; lia).
    rewrite D.
    pose proof (stands_fdiv _ _ _ _ (stands_of_Z (stop - start))
                  (stands_of_Z (Z.of_nat (n - 1))) NZ) as St.
    rewrite (stands_feqb _ _ _ _ St (stands_of_Z 0)).
    destruct (Qeq_bool _ (inject_Z 0)).
    + eapply stands_for_compat.
      * apply stands_fadd; [|apply stands_of_Z].
        apply stands_fmul; [|apply stands_of_Z].
        apply stands_fdiv; [apply stands_of_Z | apply stands_of_Z | exact NZ].
      * field. exact NZ.
    + eapply stands_for_compat.
      * apply stands_fadd; [|apply stands_of_Z].
        apply stands_fmul; [apply stands_of_Z | exact St].
      * field. exact NZ.
Qed.

Lemma linspace_in_box (start stop : Z) (n : nat) (x : float) :
  (2 <= n)%nat -> (start <= stop)%Z -> In x (linspace start stop n) ->
  fle (of_Z start) x /\ fle x (of_Z stop).
Proof.
  intros N L H. apply In_nth_error in H. destruct H as [i Hi].
  assert (I : (i < n)%nat).
  { rewrite <- (length_linspace start stop n). apply nth_error_Some. congruence. }
  destruct (linspace_stands start stop n i N I) as [x' [E S]].
  rewrite Hi in E. injection E as <-.
  assert (P : 0 < inject_Z (Z.of_nat (n - 1))).
  { change 0 with (inject_Z 0). rewrite <- Zlt_Qlt. lia. }
  assert (D : 0 <= inject_Z (stop - start)).
  { change 0 with (inject_Z 0). rewrite <- Zle_Qle. lia. }
  assert (I0 : 0 <= inject_Z (Z.of_nat i)).
  { change 0 with (inject_Z 0). rewrite <- Zle_Qle. lia. }
  assert (I1 : inject_Z (Z.of_nat i) <= inject_Z (Z.of_nat (n - 1))).
  { rewrite <- Zle_Qle. lia. }
  assert (T : inject_Z (Z.of_nat (n - 1))
              * (inject_Z (stop - start) / inject_Z (Z.of_nat (n - 1)))
              == inject_Z (stop - start)) by (apply Qmult_div_r; lra).
  assert (T0 : 0 <= inject_Z (stop - start) / inject_Z (Z.of_nat (n - 1)))
    by (apply Qle_shift_div_l; lra).
  assert (E : inject_Z stop == inject_Z start + inject_Z (stop - start))
    by (rewrite inject_Z_sub; ring).
  generalize dependent (inject_Z (stop - start) / inject_Z (Z.of_nat (n - 1))).
  intros st S T T0.
  split.
  - apply (stands_fle _ _ _ _ (stands_of_Z start) S). nra.
  - apply (stands_fle _ _ _ _ S (stands_of_Z stop)). nra.
Qed.

Lemma length_sparkline_ys (vals : list float) (height : Z) :
  length (sparkline_ys vals height) = length vals.
Proof.
  unfold sparkline_ys. destruct vals as [|v rest]; [reflexivity|].
  destruct (feqb _ _); now rewrite length_map.
Qed.

Lemma sparkline_ys_in_box (qs : list Q) (height : Z) (y : float) :
  (6 <= height)%Z -> In y (sparkline_ys (map of_Q qs) height) ->
  fle (of_Z 3) y /\ fle y (of_Z (height - 3)).
Proof.
  intros H Hy. destruct qs as [|q0 rest]; [destruct Hy|].
  destruct (sparkline_ys_stands q0 rest height)
    as [mn [mx [B [_ [_ [f [E F]]]]]]].
  rewrite E in Hy. apply in_map_iff in Hy. destruct Hy as [q [<- Hq]].
  assert (K : 6 <= inject_Z height).
  { change 6 with (inject_Z 6). rewrite <- Zle_Qle. lia. }
  pose proof (F q) as Fq.
  assert (V : 3 <= (if Qeq_bool mx mn then inject_Z height / 2
                    else inject_Z height
                         - (q - mn) / (mx - mn) * inject_Z (height - 6) - 3)
              <= inject_Z height - 3).
  { destruct (Qeq_bool mx mn) eqn:Q.
    - split; [apply Qle_shift_div_l; lra | apply Qle_shift_div_r; lra].
    - apply Qeq_bool_false_iff in Q.
      assert (D : mn < mx).
      { destruct (B q Hq). destruct (Qlt_le_dec mn mx) as [D | D]; [exact D|].
        exfalso. apply Q. lra. }
      pose proof (frac_bounds mn mx q D (B q Hq)) as T.
      rewrite inject_Z_sub. change (inject_Z 6) with 6.
      generalize dependent ((q - mn) / (mx - mn)). intros t _ T. nra. }
  split.
  - apply (stands_fle _ _ _ _ (stands_of_Z 3) Fq). change (inject_Z 3) with 3. lra.
  - apply (stands_fle _ _ _ _ Fq (stands_of_Z (height - 3))).
    rewrite (inject_Z_sub height 3). change (inject_Z 3) with 3. lra.
Qed.

(** The drawing of two or more finite values lies in the box. *)
Lemma sparkline_box (qs : list Q) (width height : Z) :
  (2 <= length qs)%nat -> (4 <= width)%Z -> (6 <= height)%Z ->
  exists pts,
    sparkline_points (map of_Q qs) width height = Some pts
    /\ length pts = length qs
    /\ map snd pts = sparkline_ys (map of_Q qs) height
    /\ forall x y, In (x, y) pts ->
         fle (of_Z 2) x /\ fle x (of_Z (width - 2))
         /\ fle (of_Z 3) y /\ fle y (of_Z (height - 3)).
Proof.
  intros N W H. unfold sparkline_points. rewrite length_map.
  assert (C : (length qs <? 2)%nat = false) by (apply Nat.ltb_ge; exact N).
  rewrite C. eexists. split; [reflexivity|]. split; [|split].
  - rewrite length_combine, length_linspace, length_sparkline_ys, length_map. lia.
  - assert (G : forall (a : list float) (b : list float),
               length a = length b -> map snd (combine a b) = b).
    { induction a as [|x a IH]; intros [|y b] L; try discriminate; [reflexivity|].
      cbn. f_equal. apply IH. now injection L. }
    apply G. now rewrite length_linspace, length_sparkline_ys, length_map.
  - intros x y Hin. pose proof (in_combine_l _ _ _ _ Hin) as Hx.
    pose proof (in_combine_r _ _ _ _ Hin) as Hy.
    destruct (linspace_in_box 2 (width - 2) (length qs) x N ltac:(lia) Hx).
    destruct (sparkline_ys_in_box qs height y H Hy).
    auto.
Qed.

(** X16. The sparkline stays inside its box.  For two or more finite
    values, a width of at least 4 and a height of at least 6 the path has
    one point per value, and every point lies between 2 and [width - 2]
    across and between 3 and [height - 3] down, so that the stroke is
    never cut by the edge. *)
Theorem sparkline_stays_in_the_box (qs : list Q) (width height : Z) :
  (2 <= length qs)%nat -> (4 <= width)%Z -> (6 <= height)%Z ->
  exists pts,
    sparkline_points (map of_Q qs) width height = Some pts
    /\ length pts = length qs
    /\ forall x y, In (x, y) pts ->
         fle (of_Z 2) x /\ fle x (of_Z (width - 2))
         /\ fle (of_Z 3) y /\ fle y (of_Z (height - 3)).
Proof.
  intros N W H. destruct (sparkline_box qs width height N W H) as [pts [E [L [_ B]]]].
  exists pts. auto.
Qed.

Lemma sparkline_stays_in_the_box_witness :
  exists pts,
    sparkline_points (map of_Q [1; 2; 4]) 180 36 = Some pts
    /\ length pts = 3%nat
    /\ forall x y, In (x, y) pts ->
         fle (of_Z 2) x /\ fle x (of_Z (180 - 2))
         /\ fle (of_Z 3) y /\ fle y (of_Z (36 - 3)).
Proof.
  apply (sparkline_stays_in_the_box [1; 2; 4] 180 36); [cbn; lia | lia | lia].
Defined.



Lemma lastn_lastn {A} (m n : nat) (l : list A) :
  (m <= n)%nat -> lastn m (lastn n l) = lastn m l.
Proof.
  intro H. unfold lastn. rewrite length_skipn, skipn_skipn. f_equal. lia.
Qed.

(** X18. Every card has its chart: for each row of an output of the
    analysis the sparkline of the card is a path of exactly 30 points,
    whose heights are those of the last 30 daily closes of the ticker,
    and every point lies inside the box of 180 by 36, between 2 and 178
    across and between 3 and 33 down. *)
Theorem cards_plot_the_last_30_closes
  (ln sqrtQ : Q -> Q) (yf : Provider) (sort_rows : list Candidate -> list Candidate)
  (pm : dict DataFrame) (out : list (Candidate * Signal))
  (row : Candidate) (sig : Signal) :
  (forall l, Permutation (sort_rows l) l) ->
  analyze_prices ln sqrtQ yf sort_rows pm = Ok out ->
  In (row, sig) out ->
  let df := dict_get pm (ticker row) empty_frame in
  exists pts,
    card_sparkline row = Some pts
    /\ length pts = 30%nat
    /\ map snd pts = sparkline_ys (map of_Q (lastn 30 (prices (daily_of df)))) 36
    /\ forall x y, In (x, y) pts ->
         fle (of_Z 2) x /\ fle x (of_Z 178) /\ fle (of_Z 3) y /\ fle y (of_Z 33).
Proof.
  intros SP H Hin.
  destruct (in_output ln sqrtQ yf sort_rows pm out row sig SP H Hin)
    as [_ [tk [vol [_ C]]]].
  destruct (candidate_fields yf pm tk vol row C) as [d [w [_ [_ [D ->]]]]].
  cbv zeta. cbn [ticker].
  unfold card_sparkline. cbn [series_daily].
  set (df := dict_get pm tk empty_frame) in *.
  assert (S : values (astype_float (lastn 40 (daily_of df)))
              = map of_Q (lastn 40 (prices (daily_of df))))
    by (unfold daily_of; apply stored_closes).
  rewrite S, lastn_map, lastn_lastn by lia.
  assert (L : length (lastn 30 (prices (daily_of df))) = 30%nat).
  { apply length_lastn. rewrite length_prices_daily. lia. }
  destruct (sparkline_box (lastn 30 (prices (daily_of df))) 180 36)
    as [pts [E [Lp [Y B]]]]; [lia | lia | lia |].
  exists pts. rewrite L in Lp. auto.
Qed.

Lemma cards_plot_the_last_30_closes_witness :
  exists out row sig pts,
    analyze_prices Sample.ln Sample.sqrtQ Sample.outage Sample.sort_stable
      Sample.two_flat = Ok out
    /\ In (row, sig) out
    /\ card_sparkline row = Some pts
    /\ length pts = 30%nat.
Proof.
  destruct two_flat_has_output as [out E].
  destruct out as [|[row sig] out'] eqn:O.
  - exfalso.
    destruct (length_output Sample.ln Sample.sqrtQ Sample.outage Sample.sort_stable
                Sample.two_flat [] sort_stable_perm E) as [_ [L _]].
    cbn in L. lia.
  - destruct (cards_plot_the_last_30_closes Sample.ln Sample.sqrtQ Sample.outage
                Sample.sort_stable Sample.two_flat ((row, sig) :: out') row sig
                sort_stable_perm E (or_introl eq_refl)) as [pts [C [L _]]].
    exists out, row, sig, pts. subst out. split; [exact E|].
    split; [now left|]. split; [exact C | exact L].
Defined.

(** ** The branch of the script for an empty frame *)

(** X19. The warning for an empty frame is never shown.  Whatever the
    provider serves, a run of the script ends in one of two ways: the
    [KeyError] of [sort_values] escapes, which happens exactly when no
    ticker is selected, or the page is built with between one and ten
    cards. *)
Theorem warning_is_never_shown
  (ln sqrtQ : Q -> Q) (yf : Provider) (sort_rows : list Candidate -> list Candidate) :
  (forall l, Permutation (sort_rows l) l) ->
  let price_map := fst (fetch_all yf NIFTY50) in
  let selected := select yf price_map (vol_list ln sqrtQ price_map) [] in
  run_app ln sqrtQ yf sort_rows <> NoDataWarning
  /\ (selected = [] ->
      run_app ln sqrtQ yf sort_rows = Uncaught (KeyError "volatility"))
  /\ (selected <> [] ->
      exists df, run_app ln sqrtQ yf sort_rows = Page df
                 /\ (1 <= length df <= N_CARDS)%nat
                 /\ map fst df = sort_rows selected).
Proof.
  intros SP price_map selected.
  unfold run_app, analyze_universe. fold price_map.
  destruct (analyze_prices ln sqrtQ yf sort_rows price_map) as [out|e] eqn:E.
  - destruct (length_output ln sqrtQ yf sort_rows price_map out SP E) as [M L].
    rewrite (analyze_prices_cases ln sqrtQ yf sort_rows SP) in E.
    fold selected in E, M.
    destruct out as [|r out']; [cbn in L; lia|].
    split; [discriminate|]. split.
    + intro S. rewrite S in E. discriminate.
    + intros _. eexists. split; [reflexivity|]. split; [exact L | exact M].
  - rewrite (analyze_prices_cases ln sqrtQ yf sort_rows SP) in E.
    fold selected in E.
    split; [discriminate|]. split.
    + intros _. destruct selected; [congruence | discriminate].
    + intro S. destruct selected; [contradiction | discriminate].
Qed.

Lemma warning_is_never_shown_witness :
  run_app Sample.ln Sample.sqrtQ Sample.outage Sample.sort_stable <> NoDataWarning.
Proof.
  apply (warning_is_never_shown Sample.ln Sample.sqrtQ Sample.outage
           Sample.sort_stable sort_stable_perm).
Defined.
